(** * MachXO2 architecture back-end of nextpnr: resource enumeration and packing

    A shallow embedding of [machxo2/arch.h] (the chip database records, the
    site iterator [BelIterator] and [Arch::getBels]) and of [machxo2/pack.cc]
    (the three packing passes and the driver [Arch::pack]), followed by the
    properties the design document states about them.

    Conventions of the embedding.
    - C++ [int]/[int32_t] values are integers of [Z].  Every increment in the
      code is applied to a value strictly below an [int32_t] field of the
      database, so no operation modelled here can wrap.
    - An array reached through a [RelPtr] is a [list]; reading outside of it
      has no defined result in C++ and is [None] here.
    - [IdString] (an interned name) is the string it interns.
    - A [CellInfo*] or [NetInfo*] is the key under which the object is (or is
      about to be) owned by [ctx->cells] / [ctx->nets]; [nullptr] is [None].
      Following a pointer whose object is not owned by anybody any more is a
      fault of the run ([undefined_behaviour]).
    - [std::unordered_map] is a [gmap]; [sorted(m)] is the list of its keys in
      ascending order. *)

From Stdlib Require Import ZArith Lia Ascii.
From stdpp Require Import gmap strings list fin_maps sorting pretty.

(** ** Part I: definitions *)

(** *** The chip database and its site iterator ([arch.h]) *)

Module Chipdb.
Local Open Scope Z_scope.

(** Modelled from the spec: [Location]/[LocationPOD] are declared outside of
    [arch.h]; the design document describes a location as an integer (x, y)
    grid coordinate. *)
Record Location := mkLocation { x : Z; y : Z }.

(** Modelled from the spec: [BelId] is declared outside of [arch.h]; a
    resource identifier is the value (location, local index). *)
Record BelId := mkBelId { location : Location; index : Z }.

(** [BelInfoPOD]; the pin-to-wire table ([num_bel_wires], [bel_wires]) plays
    no role in enumeration and is kept as its length only. *)
Record BelInfoPOD := mkBelInfoPOD {
  bel_name : string;
  bel_type : Z;
  bel_z : Z;
  num_bel_wires : Z
}.

(** [TileTypePOD], restricted to its site table. *)
Record TileTypePOD := mkTileTypePOD {
  num_bels : Z;
  bel_data : list BelInfoPOD
}.

(** [ChipInfoPOD], restricted to the grid and the tile array. *)
Record ChipInfoPOD := mkChipInfoPOD {
  width : Z;
  height : Z;
  num_tiles : Z;
  tiles : list TileTypePOD
}.

(** [RelPtr<T>::operator[]]. *)
Definition rel_index {A} (arr : list A) (i : Z) : option A :=
  if i <? 0 then None else arr !! Z.to_nat i.

(** [struct BelIterator]; the [chip] pointer is passed along explicitly. *)
Record BelIterator := mkBelIterator { cursor_index : Z; cursor_tile : Z }.

(** The [while] loop of [BelIterator::operator++].  Every turn of the loop
    moves to the next tile, so [num_tiles - cursor_tile] turns always
    suffice; [fuel] counts the turns that are left. *)
Fixpoint skip_empty_tiles (fuel : nat) (chip : ChipInfoPOD) (it : BelIterator)
  : option BelIterator :=
  if cursor_tile it <? num_tiles chip then
    match rel_index (tiles chip) (cursor_tile it) with
    | None => None
    | Some t =>
        if cursor_index it >=? num_bels t then
          match fuel with
          | O => None
          | S fuel' =>
              skip_empty_tiles fuel' chip
                {| cursor_index := 0; cursor_tile := cursor_tile it + 1 |}
          end
        else Some it
    end
  else Some it.

(** [BelIterator::operator++()]. *)
Definition operator_incr (chip : ChipInfoPOD) (it : BelIterator) : option BelIterator :=
  skip_empty_tiles (Z.to_nat (num_tiles chip - cursor_tile it)) chip
    {| cursor_index := cursor_index it + 1; cursor_tile := cursor_tile it |}.

(** [BelIterator::operator!=]. *)
Definition operator_ne (a b : BelIterator) : bool :=
  negb (cursor_index a =? cursor_index b) || negb (cursor_tile a =? cursor_tile b).

(** [BelIterator::operator*]; [%] and [/] of C++ truncate towards zero and
    are not defined for a zero divisor. *)
Definition operator_deref (chip : ChipInfoPOD) (it : BelIterator) : option BelId :=
  if width chip =? 0 then None
  else Some {| location := {| x := Z.rem (cursor_tile it) (width chip);
                              y := Z.quot (cursor_tile it) (width chip) |};
               index := cursor_index it |}.

Record BelRange := mkBelRange { b : BelIterator; e : BelIterator }.

(** [Arch::getBels]. *)
Definition getBels (chip_info : ChipInfoPOD) : option BelRange :=
  b0 ← operator_incr chip_info {| cursor_index := -1; cursor_tile := 0 |};
  Some {| b := b0;
          e := {| cursor_index := 0;
                  cursor_tile := width chip_info * height chip_info |} |}.

(** The range-based [for (auto bel : getBels())]: the identifiers the loop
    body sees, in order.  [fuel] bounds the number of turns. *)
Fixpoint for_range (fuel : nat) (chip : ChipInfoPOD) (it last : BelIterator)
  : option (list BelId) :=
  if operator_ne it last then
    match fuel with
    | O => None
    | S fuel' =>
        bel ← operator_deref chip it;
        it' ← operator_incr chip it;
        rest ← for_range fuel' chip it' last;
        Some (bel :: rest)
    end
  else Some [].

Definition enumerate_bels (fuel : nat) (chip_info : ChipInfoPOD) : option (list BelId) :=
  r ← getBels chip_info;
  for_range fuel chip_info (b r) (e r).

(** [Arch::tileInfo]. *)
Definition tileInfo (chip_info : ChipInfoPOD) (id : BelId) : option TileTypePOD :=
  rel_index (tiles chip_info)
    (y (location id) * width chip_info + x (location id)).

(** The site record of an identifier: [tileInfo(bel)->bel_data[bel.index]]. *)
Definition bel_record (chip_info : ChipInfoPOD) (id : BelId) : option BelInfoPOD :=
  t ← tileInfo chip_info id;
  rel_index (bel_data t) (index id).

(** The database invariants the generator guarantees: the tile array covers
    the grid, and every site table has the length its count announces. *)
Definition wf_tile (t : TileTypePOD) : Prop :=
  0 ≤ num_bels t ∧ Z.of_nat (length (bel_data t)) = num_bels t.

Definition wf_chip (chip : ChipInfoPOD) : Prop :=
  0 ≤ width chip ∧ 0 ≤ height chip ∧
  num_tiles chip = width chip * height chip ∧
  Z.of_nat (length (tiles chip)) = num_tiles chip ∧
  Forall wf_tile (tiles chip).

(** The canonical order in the words of the design document: rows by
    ascending y, within a row ascending x, within the tile at index
    [y * width + x] ascending local index. *)
Definition tile_bel_count (chip : ChipInfoPOD) (t : Z) : Z :=
  from_option num_bels 0 (rel_index (tiles chip) t).

Definition canonical_bels (chip : ChipInfoPOD) : list BelId :=
  yy ← seqZ 0 (height chip);
  xx ← seqZ 0 (width chip);
  i ← seqZ 0 (tile_bel_count chip (yy * width chip + xx));
  [ {| location := {| x := xx; y := yy |}; index := i |} ].

(** The sum, over all tiles, of the tile's site count. *)
Definition total_bels (chip : ChipInfoPOD) : Z :=
  foldr (λ t acc, num_bels t + acc) 0 (tiles chip).

(** [BelIterator::operator==]. *)
Definition operator_eq (a b : BelIterator) : bool :=
  (cursor_index a =? cursor_index b) && (cursor_tile a =? cursor_tile b).

(** [BelIterator::operator++(int)]: the result is the iterator as it was
    (first component), the iterator itself has moved on (second
    component). *)
Definition operator_post_incr (chip : ChipInfoPOD) (it : BelIterator)
  : option (BelIterator * BelIterator) :=
  it' ← operator_incr chip it;
  Some (it, it').

(** [BelRange::begin] and [BelRange::end]. *)
Definition begin_ (r : BelRange) : BelIterator := b r.
Definition end_ (r : BelRange) : BelIterator := e r.

(** [Arch::getGridDimX], [Arch::getGridDimY], [Arch::max_loc_bels],
    [Arch::getTileBelDimZ] and [Arch::getTilePipDimZ]. *)
Definition getGridDimX (chip_info : ChipInfoPOD) : Z := width chip_info.
Definition getGridDimY (chip_info : ChipInfoPOD) : Z := height chip_info.
Definition max_loc_bels : Z := 20.
Definition getTileBelDimZ (x y : Z) : Z := max_loc_bels.
Definition getTilePipDimZ (x y : Z) : Z := 2.

(** Modelled from the spec: [Loc] is declared outside of [arch.h]; a grid
    coordinate together with the position of the site within its tile. *)
Record Loc := mkLoc { loc_x : Z; loc_y : Z; loc_z : Z }.

(** How a query on the database ends: with a value, on a failed
    [NPNR_ASSERT], or by reading outside of an array of the database, which
    has no defined result. *)
Inductive query (A : Type) :=
  | Value (a : A)
  | AssertFailed
  | OutOfBounds.
Arguments Value {A} a.
Arguments AssertFailed {A}.
Arguments OutOfBounds {A}.

(** [bel != BelId()]; [BelId] is declared outside of [arch.h], so the
    default-constructed identifier [BelId()] is a parameter, [none]. *)
Definition is_none (none bel : BelId) : bool :=
  (x (location bel) =? x (location none)) && (y (location bel) =? y (location none))
  && (index bel =? index none).

(** [Arch::getBelLocation]. *)
Definition getBelLocation (none : BelId) (chip_info : ChipInfoPOD) (bel : BelId)
  : query Loc :=
  if is_none none bel then AssertFailed
  else
    match bel_record chip_info bel with
    | None => OutOfBounds
    | Some r =>
        Value {| loc_x := x (location bel); loc_y := y (location bel); loc_z := bel_z r |}
    end.

(** [Arch::getBelType]; the result is the index of the interned name. *)
Definition getBelType (none : BelId) (chip_info : ChipInfoPOD) (bel : BelId)
  : query Z :=
  if is_none none bel then AssertFailed
  else
    match bel_record chip_info bel with
    | None => OutOfBounds
    | Some r => Value (bel_type r)
    end.

(** [Arch::getBelName]: [operator<<] writes an [int] in decimal, with a
    minus sign when it is negative. *)
Definition getBelName (none : BelId) (chip_info : ChipInfoPOD) (bel : BelId)
  : query string :=
  if is_none none bel then AssertFailed
  else
    match bel_record chip_info bel with
    | None => OutOfBounds
    | Some r =>
        Value ("X" +:+ pretty (x (location bel)) +:+ "/Y" +:+ pretty (y (location bel))
               +:+ "/" +:+ bel_name r)
    end.

End Chipdb.

(** *** The netlist ([nextpnr.h], used by [pack.cc]) *)

Module Netlist.

(** Modelled from the spec: [IdString] is declared outside of the files at
    hand; names are interned, so a name is identified with its string. *)
Abbreviation IdString := string (only parsing).

(** Modelled from the spec: [Property] (the value of an attribute, a
    parameter or a setting) is declared outside of the files at hand; it is
    either a string or an integer of a given bit width. *)
Inductive Property :=
  | PropString (str : string)
  | PropInt (intval : Z) (width : Z).

Inductive PortType := PORT_IN | PORT_OUT | PORT_INOUT.

(** Modelled from the spec: a cell has a port-to-net map; [net] is the
    [NetInfo*] of the port. *)
Record PortInfo := mkPortInfo {
  port_name : IdString;
  port_net : option IdString;
  port_type : PortType
}.

(** Modelled from the spec: PortRef (cell + port name). *)
Record PortRef := mkPortRef {
  ref_cell : option IdString;
  ref_port : IdString
}.

(** Modelled from the spec: Cell (name, type, attribute map, parameter map,
    port-to-net map). *)
Record CellInfo := mkCellInfo {
  cell_name : IdString;
  cell_type : IdString;
  cell_ports : gmap string PortInfo;
  cell_attrs : gmap string Property;
  cell_params : gmap string Property
}.

(** Modelled from the spec: Net (name, one driver port-reference, list of
    user port-references). *)
Record NetInfo := mkNetInfo {
  net_name : IdString;
  net_driver : PortRef;
  net_users : list PortRef
}.

(** The part of [Context] the packer works on. *)
Record Context := mkContext {
  cells : gmap string CellInfo;
  nets : gmap string NetInfo;
  settings : gmap string Property
}.

#[global] Instance Property_eq_dec : EqDecision Property.
Proof. solve_decision. Defined.
#[global] Instance PortType_eq_dec : EqDecision PortType.
Proof. solve_decision. Defined.
#[global] Instance PortInfo_eq_dec : EqDecision PortInfo.
Proof. solve_decision. Defined.
#[global] Instance PortRef_eq_dec : EqDecision PortRef.
Proof. solve_decision. Defined.
#[global] Instance CellInfo_eq_dec : EqDecision CellInfo.
Proof. solve_decision. Defined.
#[global] Instance NetInfo_eq_dec : EqDecision NetInfo.
Proof. solve_decision. Defined.
#[global] Instance Context_eq_dec : EqDecision Context.
Proof. solve_decision. Defined.

(** Field updates. *)
Definition set_port_net (n : option IdString) (p : PortInfo) : PortInfo :=
  {| port_name := port_name p; port_net := n; port_type := port_type p |}.
Definition set_cell_ports (ps : gmap string PortInfo) (c : CellInfo) : CellInfo :=
  {| cell_name := cell_name c; cell_type := cell_type c; cell_ports := ps;
     cell_attrs := cell_attrs c; cell_params := cell_params c |}.
Definition set_cell_attrs (a : gmap string Property) (c : CellInfo) : CellInfo :=
  {| cell_name := cell_name c; cell_type := cell_type c; cell_ports := cell_ports c;
     cell_attrs := a; cell_params := cell_params c |}.
Definition set_cell_params (p : gmap string Property) (c : CellInfo) : CellInfo :=
  {| cell_name := cell_name c; cell_type := cell_type c; cell_ports := cell_ports c;
     cell_attrs := cell_attrs c; cell_params := p |}.
Definition set_net_driver (d : PortRef) (n : NetInfo) : NetInfo :=
  {| net_name := net_name n; net_driver := d; net_users := net_users n |}.
Definition set_net_users (us : list PortRef) (n : NetInfo) : NetInfo :=
  {| net_name := net_name n; net_driver := net_driver n; net_users := us |}.
Definition set_cells (cs : gmap string CellInfo) (ctx : Context) : Context :=
  {| cells := cs; nets := nets ctx; settings := settings ctx |}.
Definition set_nets (ns : gmap string NetInfo) (ctx : Context) : Context :=
  {| cells := cells ctx; nets := ns; settings := settings ctx |}.
Definition set_settings (s : gmap string Property) (ctx : Context) : Context :=
  {| cells := cells ctx; nets := nets ctx; settings := s |}.

(** [driver.cell = nullptr]. *)
Definition clear_driver_cell (n : NetInfo) : NetInfo :=
  set_net_driver {| ref_cell := None; ref_port := ref_port (net_driver n) |} n.

(** A [PortInfo] as [std::unordered_map::operator[]] value-initialises it. *)
Definition default_port : PortInfo :=
  {| port_name := EmptyString; port_net := None; port_type := PORT_IN |}.

(** Modelled from the spec: [sorted] is declared outside of the files at
    hand; it walks a map in canonical name order.  The pointer that comes
    with each key is the key itself. *)
Definition sorted {V} (m : gmap string V) : list IdString :=
  merge_sort String.le (map_to_list m).*1.

(** The ways in which a run can end other than by returning.
    [log_execution_error_exception] is the recoverable failure a pass
    signals through [log_error]; [assertion_failure] is a failed
    [NPNR_ASSERT]; [std_out_of_range] is thrown by [at()];
    [undefined_behaviour] stands for following a dangling pointer. *)
Inductive exn :=
  | log_execution_error_exception
  | assertion_failure
  | std_out_of_range
  | undefined_behaviour.

#[global] Instance exn_eq_dec : EqDecision exn.
Proof. solve_decision. Defined.

(** The outcome of a piece of code that works on the netlist: a value, or
    an exception together with the netlist as it was when the exception
    left the code (nothing is rolled back). *)
Inductive result (A : Type) :=
  | Ok (a : A)
  | Throw (e : exn) (ctx : Context).
Arguments Ok {A} a.
Arguments Throw {A} e ctx.

Definition bind {A B} (r : result A) (k : A → result B) : result B :=
  match r with
  | Ok a => k a
  | Throw e ctx => Throw e ctx
  end.

#[global] Instance result_bind : MBind result := λ A B k r, bind r k.
#[global] Instance result_ret : MRet result := λ A a, Ok a.

(** A [for] loop over a list whose body may throw. *)
Fixpoint for_each {K St} (body : K → St → result St) (l : list K) (st : St)
  : result St :=
  match l with
  | [] => Ok st
  | k :: l' => st' ← body k st; for_each body l' st'
  end.

(** [for (auto k : s) m.erase(k)] for an [unordered_set] [s]. *)
Definition erase_all {V} (s : gset string) (m : gmap string V) : gmap string V :=
  foldr delete m (elements s).

(** The netlist invariants ([BaseCtx::check]): objects are stored under
    their own names, and ports and nets refer to each other. *)
Definition port_on_net (k p : IdString) (ni : NetInfo) : Prop :=
  net_driver ni = {| ref_cell := Some k; ref_port := p |} ∨
  {| ref_cell := Some k; ref_port := p |} ∈ net_users ni.

Definition ref_on_port (ctx : Context) (n : IdString) (r : PortRef) : Prop :=
  match ref_cell r with
  | None => True
  | Some c =>
      match cells ctx !! c with
      | None => False
      | Some ce =>
          match cell_ports ce !! ref_port r with
          | None => False
          | Some pi => port_net pi = Some n
          end
      end
  end.

Definition wf_names (ctx : Context) : Prop :=
  map_Forall (λ k c, cell_name c = k) (cells ctx) ∧
  map_Forall (λ k n, net_name n = k) (nets ctx).

Definition wf_ports (ctx : Context) : Prop :=
  map_Forall (λ k c,
    map_Forall (λ p pi,
      match port_net pi with
      | None => True
      | Some n =>
          match nets ctx !! n with
          | None => False
          | Some ni => port_on_net k p ni
          end
      end) (cell_ports c)) (cells ctx).

Definition wf_nets (ctx : Context) : Prop :=
  map_Forall (λ n ni,
    ref_on_port ctx n (net_driver ni) ∧
    Forall (ref_on_port ctx n) (net_users ni)) (nets ctx).

Definition wf_netlist (ctx : Context) : Prop :=
  wf_names ctx ∧ wf_ports ctx ∧ wf_nets ctx.

#[global] Instance port_on_net_dec k p ni : Decision (port_on_net k p ni).
Proof. unfold port_on_net. apply _. Defined.
#[global] Instance ref_on_port_dec ctx n r : Decision (ref_on_port ctx n r).
Proof. unfold ref_on_port. repeat case_match; apply _. Defined.
#[global] Instance wf_names_dec ctx : Decision (wf_names ctx).
Proof. unfold wf_names. apply _. Defined.
#[global] Instance wf_ports_dec ctx : Decision (wf_ports ctx).
Proof.
  unfold wf_ports. apply map_Forall_dec. intros k c.
  apply map_Forall_dec. intros p pi. repeat case_match; apply _.
Defined.
#[global] Instance wf_nets_dec ctx : Decision (wf_nets ctx).
Proof. unfold wf_nets. apply _. Defined.
#[global] Instance wf_netlist_dec ctx : Decision (wf_netlist ctx).
Proof. unfold wf_netlist. apply _. Defined.

End Netlist.

(** *** Site binding ([Arch::bindBel] and its companions) *)

Module Binding.
Import Chipdb Netlist.

#[global] Instance Location_eq_dec : EqDecision Location.
Proof. solve_decision. Defined.
#[global] Instance BelId_eq_dec : EqDecision BelId.
Proof. solve_decision. Defined.
#[global] Instance BelId_countable : Countable BelId.
Proof.
  apply (inj_countable'
           (λ id, (x (location id), y (location id), index id))
           (λ t, {| location := {| x := t.1.1; y := t.1.2 |}; index := t.2 |})).
  by intros [[??]?].
Defined.

(** Modelled from the spec: the placement-strength marker tells a
    tool-chosen binding from a user-fixed one. *)
Inductive PlaceStrength := STRENGTH_PLACER | STRENGTH_USER.

(** Modelled from the spec: the binding state of the resource graph, kept
    apart from the database.  It records the occupant of a site and, on the
    side of the netlist, the location of a cell; both together with the
    strength of the binding. *)
Record BindingState := mkBindingState {
  bel_occupant : gmap BelId (IdString * PlaceStrength);
  cell_location : gmap string (BelId * PlaceStrength)
}.

(** How a call of the binding interface ends: it returns, or it stops on a
    programmer error (a failed assertion); in both cases with the binding
    state it leaves behind. *)
Inductive bind_outcome :=
  | Returned (st : BindingState)
  | ProgrammerError (st : BindingState).

(** A site identifier is valid when the database has a record for it. *)
Definition valid_bel (chip_info : ChipInfoPOD) (bel : BelId) : bool :=
  bool_decide (is_Some (bel_record chip_info bel)).

(** Modelled from the spec: [Arch::checkBelAvail] ([arch.cc]) is not among
    the files at hand; it is a pure predicate. *)
Definition checkBelAvail (st : BindingState) (bel : BelId) : bool :=
  bool_decide (bel_occupant st !! bel = None).

(** Modelled from the spec: [Arch::getBoundBelCell] ([arch.cc]) is not among
    the files at hand; it returns the current occupant or none and never
    fails. *)
Definition getBoundBelCell (st : BindingState) (bel : BelId) : option IdString :=
  fst <$> bel_occupant st !! bel.

(** Modelled from the spec: [Arch::bindBel] ([arch.cc]) is not among the
    files at hand, [arch.h] only declares it.  It is an exclusive claim: an
    invalid identifier is a programmer error, and so is a site that already
    has an occupant, which is never overwritten; otherwise the occupant of
    the site and the location of the cell are both recorded. *)
Definition bindBel (chip_info : ChipInfoPOD) (st : BindingState)
  (bel : BelId) (cell : IdString) (strength : PlaceStrength) : bind_outcome :=
  if negb (valid_bel chip_info bel) then ProgrammerError st
  else
    match bel_occupant st !! bel with
    | Some _ => ProgrammerError st
    | None =>
        Returned {| bel_occupant := <[bel := (cell, strength)]> (bel_occupant st);
                    cell_location := <[cell := (bel, strength)]> (cell_location st) |}
    end.

(** Modelled from the spec: [Arch::unbindBel] ([arch.cc]) is not among the
    files at hand; it clears the record of a bound site and is a programmer
    error on a site that is not bound. *)
Definition unbindBel (chip_info : ChipInfoPOD) (st : BindingState) (bel : BelId)
  : bind_outcome :=
  if negb (valid_bel chip_info bel) then ProgrammerError st
  else
    match bel_occupant st !! bel with
    | None => ProgrammerError st
    | Some (cell, _) =>
        Returned {| bel_occupant := delete bel (bel_occupant st);
                    cell_location := delete cell (cell_location st) |}
    end.

End Binding.

(** *** The packer ([pack.cc]) *)

Module Pack.
Import Netlist.

(** Modelled from the spec: the interned constants of [constids.inc] and the
    names the packer interns itself. *)
Definition id_FACADE_SLICE : IdString := "FACADE_SLICE".
Definition id_FACADE_FF : IdString := "FACADE_FF".
Definition id_LUT4 : IdString := "LUT4".
Definition id_F0 : IdString := "F0".
Definition id_F1 : IdString := "F1".
Definition id_LUT0_INITVAL : IdString := "LUT0_INITVAL".
Definition id_LUT1_INITVAL : IdString := "LUT1_INITVAL".
Definition id_BEL : IdString := "BEL".

(** Modelled from the spec: [create_machxo2_cell] ([cells.cc]) is not among
    the files at hand.  It builds a synthetic cell of the given type and
    name; a device slice combines lookup-table and flip-flop halves, so the
    new cell carries the lookup-table inputs, the flip-flop pins and the
    outputs of both, all unconnected, and no attribute. *)
Definition slice_ports : list (IdString * PortType) :=
  [ ("A0", PORT_IN); ("B0", PORT_IN); ("C0", PORT_IN); ("D0", PORT_IN);
    ("A1", PORT_IN); ("B1", PORT_IN); ("C1", PORT_IN); ("D1", PORT_IN);
    ("M0", PORT_IN); ("M1", PORT_IN); ("CLK", PORT_IN); ("LSR", PORT_IN);
    ("CE", PORT_IN); ("DI0", PORT_IN); ("DI1", PORT_IN);
    ("F0", PORT_OUT); ("Q0", PORT_OUT); ("F1", PORT_OUT); ("Q1", PORT_OUT) ].

Definition create_machxo2_cell (type : IdString) (name : string) : CellInfo :=
  {| cell_name := name;
     cell_type := type;
     cell_ports :=
       list_to_map
         ((λ '(p, t), (p, {| port_name := p; port_net := None; port_type := t |}))
            <$> slice_ports);
     cell_attrs := ∅;
     cell_params := ∅ |}.

(** Modelled from the spec: [is_lut] and [is_ff] ([cells.h]) recognise the
    4-input lookup-table cell and the flip-flop cell by their type. *)
Definition is_lut (cell : CellInfo) : bool := bool_decide (cell_type cell = id_LUT4).
Definition is_ff (cell : CellInfo) : bool := bool_decide (cell_type cell = id_FACADE_FF).

(** [cell->ports.at(p).net = n]; [None] is the [std::out_of_range] of [at]. *)
Definition set_port_net_at (p : IdString) (n : option IdString) (cell : CellInfo)
  : option CellInfo :=
  match cell_ports cell !! p with
  | None => None
  | Some pi => Some (set_cell_ports (<[p := set_port_net n pi]> (cell_ports cell)) cell)
  end.

(** [cell->ports[p].net = n] with the inserting [operator[]]. *)
Definition set_port_net_default (p : IdString) (n : option IdString) (cell : CellInfo)
  : CellInfo :=
  set_cell_ports
    (<[p := set_port_net n (default default_port (cell_ports cell !! p))]> (cell_ports cell))
    cell.

(** **** [set_net_constant] *)

(** The body of the loop over [orig->users]; [constnet] is the net object
    the caller still owns, its future key is its name. *)
Definition redirect_user (user : PortRef) (st : Context * NetInfo)
  : result (Context * NetInfo) :=
  let '(ctx, constnet) := st in
  match ref_cell user with
  | None => Ok (ctx, constnet)
  | Some uc =>
      match cells ctx !! uc with
      | None => Throw undefined_behaviour ctx
      | Some c =>
          Ok (set_cells
                (<[uc := set_port_net_default (ref_port user) (Some (net_name constnet)) c]>
                   (cells ctx)) ctx,
              set_net_users (net_users constnet ++ [user]) constnet)
      end
  end.

Definition set_net_constant (ctx : Context) (orig : IdString) (constnet : NetInfo)
  (constval : bool) : result (Context * NetInfo) :=
  match nets ctx !! orig with
  | None => Throw undefined_behaviour ctx
  | Some ni =>
      let ctx1 := set_nets (<[orig := clear_driver_cell ni]> (nets ctx)) ctx in
      '(ctx2, constnet') ← for_each redirect_user (net_users ni) (ctx1, constnet);
      Ok (set_nets (alter (set_net_users []) orig (nets ctx2)) ctx2, constnet')
  end.

(** **** [pack_constants] *)

(** What the loop over the nets works on: the netlist, the two constant
    nets under construction and [dead_nets]. *)
Record ConstLocals := mkConstLocals {
  c_ctx : Context;
  gnd_net : NetInfo;
  vcc_net : NetInfo;
  dead_nets : list IdString
}.

Definition pack_constants_body (net : IdString) (st : ConstLocals) : result ConstLocals :=
  let ctx := c_ctx st in
  match nets ctx !! net with
  | None => Throw undefined_behaviour ctx
  | Some ni =>
      match ref_cell (net_driver ni) with
      | None => Ok st
      | Some drv =>
          match cells ctx !! drv with
          | None => Throw undefined_behaviour ctx
          | Some dc =>
              if bool_decide (cell_type dc = "GND") then
                let drv_cell := cell_name dc in
                '(ctx', gnd') ← set_net_constant ctx net (gnd_net st) false;
                Ok {| c_ctx := set_cells (delete drv_cell (cells ctx')) ctx';
                      gnd_net := gnd'; vcc_net := vcc_net st;
                      dead_nets := dead_nets st ++ [net] |}
              else if bool_decide (cell_type dc = "VCC") then
                let drv_cell := cell_name dc in
                '(ctx', vcc') ← set_net_constant ctx net (vcc_net st) true;
                Ok {| c_ctx := set_cells (delete drv_cell (cells ctx')) ctx';
                      gnd_net := gnd_net st; vcc_net := vcc';
                      dead_nets := dead_nets st ++ [net] |}
              else Ok st
          end
      end
  end.

(** The constant-source cell and the two nets as they are built before the
    loop. *)
Definition new_gnd_net (const_cell : CellInfo) : NetInfo :=
  {| net_name := "$PACKER_GND_NET";
     net_driver := {| ref_cell := Some (cell_name const_cell); ref_port := id_F0 |};
     net_users := [] |}.

Definition new_vcc_net (const_cell : CellInfo) : NetInfo :=
  {| net_name := "$PACKER_VCC_NET";
     net_driver := {| ref_cell := Some (cell_name const_cell); ref_port := id_F1 |};
     net_users := [] |}.

Definition new_const_cell : option CellInfo :=
  let const_cell := create_machxo2_cell id_FACADE_SLICE "$PACKER_CONST" in
  let const_cell :=
    set_cell_params
      (<[id_LUT1_INITVAL := PropInt 65535 16]>
         (<[id_LUT0_INITVAL := PropInt 0 16]> (cell_params const_cell))) const_cell in
  const_cell ← set_port_net_at id_F0 (Some "$PACKER_GND_NET") const_cell;
  set_port_net_at id_F1 (Some "$PACKER_VCC_NET") const_cell.

Definition pack_constants (ctx : Context) : result Context :=
  match new_const_cell with
  | None => Throw std_out_of_range ctx
  | Some const_cell =>
      st ← for_each pack_constants_body (sorted (nets ctx))
                 {| c_ctx := ctx; gnd_net := new_gnd_net const_cell;
                    vcc_net := new_vcc_net const_cell; dead_nets := [] |};
      let ctx1 := c_ctx st in
      let cells1 := <[cell_name const_cell := const_cell]> (cells ctx1) in
      let nets1 := <[net_name (gnd_net st) := gnd_net st]> (nets ctx1) in
      let nets2 := <[net_name (vcc_net st) := vcc_net st]> nets1 in
      Ok (set_nets (foldl (λ m dn, delete dn m) nets2 (dead_nets st))
            (set_cells cells1 ctx1))
  end.

(** **** [pack_io] *)

Definition is_nextpnr_iob (cell : CellInfo) : bool :=
  bool_decide (cell_type cell = "$nextpnr_ibuf") ||
  bool_decide (cell_type cell = "$nextpnr_obuf") ||
  bool_decide (cell_type cell = "$nextpnr_iobuf").

Definition is_facade_iob (cell : CellInfo) : bool :=
  bool_decide (cell_type cell = "FACADE_IO").

(** Modelled from the spec: [disconnect_port] ([design_utils.cc]) is not
    among the files at hand.  Disconnecting a port severs its connection:
    the port leaves the user list of its net, stops being the driver of the
    net if it was, and is left without a net. *)
Definition is_ref (cell port : IdString) (r : PortRef) : Prop :=
  ref_cell r = Some cell ∧ ref_port r = port.

#[global] Instance is_ref_dec cell port r : Decision (is_ref cell port r).
Proof. unfold is_ref. apply _. Defined.

Definition disconnect_port (ctx : Context) (cell : IdString) (port_name : IdString)
  : result Context :=
  match cells ctx !! cell with
  | None => Throw undefined_behaviour ctx
  | Some c =>
      match cell_ports c !! port_name with
      | None => Ok ctx
      | Some port =>
          match port_net port with
          | None => Ok ctx
          | Some n =>
              match nets ctx !! n with
              | None => Throw undefined_behaviour ctx
              | Some ni =>
                  let ni1 :=
                    set_net_users
                      (filter (λ u, ¬ is_ref cell port_name u) (net_users ni)) ni in
                  let ni2 :=
                    if decide (is_ref cell port_name (net_driver ni1))
                    then clear_driver_cell ni1 else ni1 in
                  let c' :=
                    set_cell_ports
                      (<[port_name := set_port_net None port]> (cell_ports c)) c in
                  Ok (set_cells (<[cell := c']> (cells ctx))
                        (set_nets (<[n := ni2]> (nets ctx)) ctx))
              end
          end
      end
  end.

(** The body of the loop over the cells; the second component is
    [packed_cells].  The ports of an [unordered_map] are visited in the
    order of the map. *)
Definition pack_io_body (cell : IdString) (st : Context * gset string)
  : result (Context * gset string) :=
  let '(ctx, packed_cells) := st in
  match cells ctx !! cell with
  | None => Throw undefined_behaviour ctx
  | Some ci =>
      if is_nextpnr_iob ci then
        ctx' ← for_each (λ p ctx, disconnect_port ctx cell p)
                     (map_to_list (cell_ports ci)).*1 ctx;
        Ok (ctx', {[cell_name ci]} ∪ packed_cells)
      else Ok (ctx, packed_cells)
  end.

Definition pack_io (ctx : Context) : result Context :=
  '(ctx', packed_cells) ← for_each pack_io_body (sorted (cells ctx)) (ctx, ∅);
  Ok (set_cells (erase_all packed_cells (cells ctx')) ctx').

(** **** [pack_lut_lutffs] *)

(** Following a [CellInfo*] while the pass runs: the cell is one of the
    slice cells the pass has built and still owns ([new_cells]), or it is
    owned by [ctx->cells]. *)
Definition deref_cell (ctx : Context) (new_cells : list CellInfo) (p : IdString)
  : option CellInfo :=
  match list_find (λ c, cell_name c = p) new_cells with
  | Some (_, c) => Some c
  | None => cells ctx !! p
  end.

(** Modelled from the spec: [net_only_drives] ([design_utils.h]) is not
    among the files at hand.  It looks on a net for a cell of the wanted
    kind that is fed through the wanted pin and returns the first one; with
    [exclusive] it insists on that pin being the only user of the net,
    without it other fan-out of the net is allowed. *)
Fixpoint find_load (ctx : Context) (new_cells : list CellInfo)
  (cell_pred : CellInfo → bool) (port : IdString) (users : list PortRef)
  : result (option IdString) :=
  match users with
  | [] => Ok None
  | load :: rest =>
      match ref_cell load with
      | None => find_load ctx new_cells cell_pred port rest
      | Some p =>
          match deref_cell ctx new_cells p with
          | None => Throw undefined_behaviour ctx
          | Some c =>
              if cell_pred c && bool_decide (ref_port load = port)
              then Ok (Some p)
              else find_load ctx new_cells cell_pred port rest
          end
      end
  end.

Definition net_only_drives (ctx : Context) (new_cells : list CellInfo)
  (net : option IdString) (cell_pred : CellInfo → bool) (port : IdString)
  (exclusive : bool) : result (option IdString) :=
  match net with
  | None => Ok None
  | Some n =>
      match nets ctx !! n with
      | None => Throw undefined_behaviour ctx
      | Some ni =>
          if exclusive && negb (bool_decide (length (net_users ni) = 1))
          then Ok None
          else find_load ctx new_cells cell_pred port (net_users ni)
      end
  end.

(** Modelled from the spec: [replace_port] ([design_utils.cc]) is not among
    the files at hand.  Merging a cell into a slice moves the connection of
    a port of the old cell to a port of the slice cell: the slice port takes
    over the net, the old port is left without one, and the net refers to
    the slice port where it referred to the old one (as its driver for an
    output, among its users otherwise).  [rep_cell] is a cell the caller
    still owns. *)
Definition replace_ref (old_cell old_name rep_cell rep_name : IdString) (load : PortRef)
  : PortRef :=
  if decide (is_ref old_cell old_name load)
  then {| ref_cell := Some rep_cell; ref_port := rep_name |}
  else load.

Definition replace_port (ctx : Context) (old_cell : IdString) (old_name : IdString)
  (rep_cell : CellInfo) (rep_name : IdString) : result (Context * CellInfo) :=
  match cells ctx !! old_cell with
  | None => Throw undefined_behaviour ctx
  | Some oc =>
      match cell_ports oc !! old_name with
      | None => Ok (ctx, rep_cell)
      | Some old =>
          match cell_ports rep_cell !! rep_name with
          | None => Throw std_out_of_range ctx
          | Some rep =>
              let rep_cell' :=
                set_cell_ports
                  (<[rep_name := set_port_net (port_net old) rep]> (cell_ports rep_cell))
                  rep_cell in
              let oc' :=
                set_cell_ports
                  (<[old_name := set_port_net None old]> (cell_ports oc)) oc in
              let ctx1 := set_cells (<[old_cell := oc']> (cells ctx)) ctx in
              match port_net old with
              | None => Ok (ctx1, rep_cell')
              | Some n =>
                  match nets ctx1 !! n with
                  | None => Throw undefined_behaviour ctx1
                  | Some ni =>
                      let ni' :=
                        match port_type rep with
                        | PORT_OUT =>
                            set_net_driver
                              {| ref_cell := Some (cell_name rep_cell);
                                 ref_port := rep_name |} ni
                        | _ =>
                            set_net_users
                              (replace_ref old_cell old_name (cell_name rep_cell) rep_name
                                 <$> net_users ni) ni
                        end in
                      Ok (set_nets (<[n := ni']> (nets ctx1)) ctx1, rep_cell')
                  end
              end
          end
      end
  end.

(** Moving several ports in a row. *)
Definition replace_ports (old_cell : IdString) (moves : list (IdString * IdString))
  (st : Context * CellInfo) : result (Context * CellInfo) :=
  for_each (λ '(old_name, rep_name) '(ctx, rep_cell),
              replace_port ctx old_cell old_name rep_cell rep_name) moves st.

(** Modelled from the spec: [lut_to_lc] ([cells.cc]) is not among the files
    at hand.  It merges the configuration of a lookup-table into the slice
    cell [lc]: the truth table becomes the initialisation data of the
    slice's first lookup-table and the inputs move over; the output moves to
    the slice output only when no flip-flop takes the value inside the
    slice ([no_dff]). *)
Definition lut_to_lc (ctx : Context) (lut : IdString) (lc : CellInfo) (no_dff : bool)
  : result (Context * CellInfo) :=
  match cells ctx !! lut with
  | None => Throw undefined_behaviour ctx
  | Some lutc =>
      let lc1 :=
        set_cell_params
          (<[id_LUT0_INITVAL := default (PropInt 0 16) (cell_params lutc !! "INIT")]>
             (cell_params lc)) lc in
      '(ctx1, lc2) ← replace_ports lut
                       [("A", "A0"); ("B", "B0"); ("C", "C0"); ("D", "D0")] (ctx, lc1);
      if no_dff then replace_port ctx1 lut "Z" lc2 id_F0 else Ok (ctx1, lc2)
  end.

(** Modelled from the spec: [dff_to_lc] ([cells.cc]) is not among the files
    at hand.  It merges the configuration of a flip-flop into the slice
    cell [lc]: the register parameters are taken over and clock, set/reset,
    clock enable and output move over; the data input stays inside the
    slice unless the value has to be passed through the lookup-table
    ([pass_thru_lut]). *)
Definition dff_to_lc (ctx : Context) (dff : IdString) (lc : CellInfo) (pass_thru_lut : bool)
  : result (Context * CellInfo) :=
  match cells ctx !! dff with
  | None => Throw undefined_behaviour ctx
  | Some dffc =>
      let lc1 :=
        set_cell_params
          (<["REG0_REGSET" := default (PropString "RESET") (cell_params dffc !! "REGSET")]>
             (cell_params lc)) lc in
      '(ctx1, lc2) ← replace_ports dff
                       [("CLK", "CLK"); ("LSR", "LSR"); ("CE", "CE"); ("Q", "Q0")]
                       (ctx, lc1);
      if pass_thru_lut then
        let lc3 :=
          set_cell_params (<[id_LUT0_INITVAL := PropInt 43690 16]> (cell_params lc2)) lc2 in
        replace_port ctx1 dff "DI" lc3 "A0"
      else Ok (ctx1, lc2)
  end.

(** What the loop over the cells works on: the netlist, [packed_cells] and
    [new_cells]. *)
Record LutLocals := mkLutLocals {
  l_ctx : Context;
  packed_cells : gset string;
  new_cells : list CellInfo
}.

(** [lut_bel != end && dff_bel != end && lut_bel->second != dff_bel->second] *)
Definition locations_differ (lut_bel dff_bel : option Property) : bool :=
  match lut_bel, dff_bel with
  | Some l, Some d => bool_decide (l ≠ d)
  | _, _ => false
  end.

(** The [if (dff)] block: the result is the netlist, the slice cell,
    [packed_cells] and [packed_dff]. *)
Definition try_pack_dff (ctx : Context) (new_cells : list CellInfo) (ci_ptr : IdString)
  (ci : CellInfo) (o : option IdString) (dff : IdString)
  (packed : CellInfo) (packed_cells : gset string)
  : result (Context * CellInfo * gset string * bool) :=
  match deref_cell ctx new_cells dff with
  | None => Throw undefined_behaviour ctx
  | Some dffc =>
      let lut_bel := cell_attrs ci !! id_BEL in
      let dff_bel := cell_attrs dffc !! id_BEL in
      if locations_differ lut_bel dff_bel then Ok (ctx, packed, packed_cells, false)
      else
        '(ctx1, packed1) ← lut_to_lc ctx ci_ptr packed false;
        '(ctx2, packed2) ← dff_to_lc ctx1 dff packed1 false;
        match o ≫= (λ on, nets ctx2 !! on) with
        | None => Throw undefined_behaviour ctx2
        | Some oni =>
            let ctx3 := set_nets (delete (net_name oni) (nets ctx2)) ctx2 in
            let packed3 :=
              match dff_bel with
              | Some v => set_cell_attrs (<[id_BEL := v]> (cell_attrs packed2)) packed2
              | None => packed2
              end in
            Ok (ctx3, packed3, {[cell_name dffc]} ∪ packed_cells, true)
        end
  end.

Definition pack_lut_lutffs_body (cell : IdString) (st : LutLocals) : result LutLocals :=
  let ctx := l_ctx st in
  match cells ctx !! cell with
  | None => Throw undefined_behaviour ctx
  | Some ci =>
      if is_lut ci then
        let packed := create_machxo2_cell id_FACADE_SLICE (cell_name ci +:+ "_LC") in
        let packed := set_cell_attrs (cell_attrs packed ∪ cell_attrs ci) packed in
        let packed_cells := {[cell_name ci]} ∪ packed_cells st in
        match cell_ports ci !! "Z" with
        | None => Throw std_out_of_range ctx
        | Some zp =>
            let o := port_net zp in
            dff ← net_only_drives ctx (new_cells st) o is_ff "DI" false;
            '(ctx1, packed1, packed_cells1, packed_dff) ←
              match dff with
              | Some dffp =>
                  try_pack_dff ctx (new_cells st) cell ci o dffp packed packed_cells
              | None => Ok (ctx, packed, packed_cells, false)
              end;
            '(ctx2, packed2) ←
              (if (packed_dff : bool) then Ok (ctx1, packed1)
               else lut_to_lc ctx1 cell packed1 true);
            Ok {| l_ctx := ctx2; packed_cells := packed_cells1;
                  new_cells := new_cells st ++ [packed2] |}
        end
      else Ok st
  end.

Definition pack_lut_lutffs (ctx : Context) : result Context :=
  st ← for_each pack_lut_lutffs_body (sorted (cells ctx))
         {| l_ctx := ctx; packed_cells := ∅; new_cells := [] |};
  let cells1 := erase_all (packed_cells st) (cells (l_ctx st)) in
  let cells2 := foldl (λ m ncell, <[cell_name ncell := ncell]> m) cells1 (new_cells st) in
  Ok (set_cells cells2 (l_ctx st)).

(** **** [Arch::pack] *)

(** [try { ... return true; } catch (log_execution_error_exception) { return
    false; }]: the recoverable failure becomes the result [false], any other
    exception leaves [pack] as it came. *)
Definition catch_execution_error (body : result Context) : result (bool * Context) :=
  match body with
  | Ok ctx' => Ok (true, ctx')
  | Throw log_execution_error_exception ctx' => Ok (false, ctx')
  | Throw e ctx' => Throw e ctx'
  end.

(** The body of [Arch::pack] over the passes it calls.  [assignArchInfo]
    ([arch.cc]) is not among the files at hand and is a parameter; logging
    and the checksum that is only logged leave the netlist alone. *)
Definition pack_pipeline
  (pass1 pass2 pass3 assignArchInfo : Context → result Context)
  (ctx : Context) : result (bool * Context) :=
  catch_execution_error
    (ctx1 ← pass1 ctx;
     ctx2 ← pass2 ctx1;
     ctx3 ← pass3 ctx2;
     assignArchInfo (set_settings (<["pack" := PropInt 1 32]> (settings ctx3)) ctx3)).

Definition Arch_pack (assignArchInfo : Context → result Context) (ctx : Context)
  : result (bool * Context) :=
  pack_pipeline pack_constants pack_io pack_lut_lutffs assignArchInfo ctx.

(** **** The walks of the passes and the layout of the maps *)

(** An [unordered_map] yields its entries in the order of its buckets, which
    is its own: two copies of a netlist hold the same entries and may yield
    them in different orders.  A [gmap] has no such order, so it is given
    from outside: [layout V m] stands for the keys of the map [m] in the
    order in which the [unordered_map] at hand yields them.

    Modelled from the spec: [sorted] is declared outside of the files at
    hand.  It puts what the map yields into an ordered map and so returns
    the keys in ascending order of the comparison of [IdString], here
    [le]. *)
Definition sorted_by (le : relation IdString) `{!RelDecision le}
  (layout : ∀ V : Type, gmap string V → list IdString) (V : Type) (m : gmap string V)
  : list IdString :=
  merge_sort le (layout V m).

(** The keys of a map in the order of the [gmap] itself. *)
Definition keys (V : Type) (m : gmap string V) : list IdString := (map_to_list m).*1.

(** The passes and [Arch::pack] with the walk left open: [order V m] is the
    list of keys the loop [for (auto x : sorted(m))] runs through.  The
    bodies of the loops and what follows the loops are those of
    [pack_constants], [pack_io] and [pack_lut_lutffs]. *)
Definition pack_constants_by (order : ∀ V : Type, gmap string V → list IdString)
  (ctx : Context) : result Context :=
  match new_const_cell with
  | None => Throw std_out_of_range ctx
  | Some const_cell =>
      st ← for_each pack_constants_body (order _ (nets ctx))
                 {| c_ctx := ctx; gnd_net := new_gnd_net const_cell;
                    vcc_net := new_vcc_net const_cell; dead_nets := [] |};
      let ctx1 := c_ctx st in
      let cells1 := <[cell_name const_cell := const_cell]> (cells ctx1) in
      let nets1 := <[net_name (gnd_net st) := gnd_net st]> (nets ctx1) in
      let nets2 := <[net_name (vcc_net st) := vcc_net st]> nets1 in
      Ok (set_nets (foldl (λ m dn, delete dn m) nets2 (dead_nets st))
            (set_cells cells1 ctx1))
  end.

Definition pack_io_by (order : ∀ V : Type, gmap string V → list IdString)
  (ctx : Context) : result Context :=
  '(ctx', packed_cells) ← for_each pack_io_body (order _ (cells ctx)) (ctx, ∅);
  Ok (set_cells (erase_all packed_cells (cells ctx')) ctx').

Definition pack_lut_lutffs_by (order : ∀ V : Type, gmap string V → list IdString)
  (ctx : Context) : result Context :=
  st ← for_each pack_lut_lutffs_body (order _ (cells ctx))
         {| l_ctx := ctx; packed_cells := ∅; new_cells := [] |};
  let cells1 := erase_all (packed_cells st) (cells (l_ctx st)) in
  let cells2 := foldl (λ m ncell, <[cell_name ncell := ncell]> m) cells1 (new_cells st) in
  Ok (set_cells cells2 (l_ctx st)).

Definition Arch_pack_by (order : ∀ V : Type, gmap string V → list IdString)
  (assignArchInfo : Context → result Context) (ctx : Context)
  : result (bool * Context) :=
  pack_pipeline (pack_constants_by order) (pack_io_by order) (pack_lut_lutffs_by order)
    assignArchInfo ctx.

End Pack.

(** ** Part II: the vocabulary of the statements and of the loop invariants *)

Import Netlist Pack.

Module Vocab.

Definition cell_is_iob (ctx : Context) (c : IdString) : bool :=
  match cells ctx !! c with
  | Some ce => is_nextpnr_iob ce
  | None => false
  end.

Definition ref_is_iob (ctx : Context) (r : PortRef) : bool :=
  match ref_cell r with
  | Some c => cell_is_iob ctx c
  | None => false
  end.

Definition sever_iob (ctx : Context) (ni : NetInfo) : NetInfo :=
  let ni1 := set_net_users (filter (λ u, ¬ ref_is_iob ctx u) (net_users ni)) ni in
  if ref_is_iob ctx (net_driver ni) then clear_driver_cell ni1 else ni1.


(** The kind of constant a net carries: the name of its driver cell and
    the value, when the driver is a ground ([false]) or a supply ([true])
    cell. *)
Definition net_kind (ctx : Context) (ni : NetInfo) : option (IdString * bool) :=
  d ← ref_cell (net_driver ni);
  dc ← cells ctx !! d;
  if decide (cell_type dc = "GND") then Some (d, false)
  else if decide (cell_type dc = "VCC") then Some (d, true)
  else None.

Definition kind_is (ctx : Context) (v : bool) (ni : NetInfo) : Prop :=
  snd <$> net_kind ctx ni = Some v.

#[global] Instance kind_is_dec ctx v ni : Decision (kind_is ctx v ni).
Proof. unfold kind_is. apply _. Defined.

(** The users of a net that are ports of a cell. *)
Definition live_users (ni : NetInfo) : list PortRef :=
  filter (λ u, ref_cell u ≠ None) (net_users ni).

(** The ports on the nets of the given constant, net after net in the
    order of the walk. *)
Definition constant_users (ctx : Context) (v : bool) (walk : list IdString)
  : list PortRef :=
  n ← walk;
  match nets ctx !! n with
  | Some ni => if decide (kind_is ctx v ni) then live_users ni else []
  | None => []
  end.

(** A cell keeps its identity when only its ports are rewired. *)
Definition same_but_ports (a b : CellInfo) : Prop :=
  cell_name a = cell_name b ∧ cell_type a = cell_type b ∧
  cell_attrs a = cell_attrs b ∧ cell_params a = cell_params b.

(** A constant driver has a single connected pin. *)
Definition single_pin (c : CellInfo) : Prop :=
  map_Forall (λ p1 pi1,
    map_Forall (λ p2 pi2,
      is_Some (port_net pi1) → is_Some (port_net pi2) → p1 = p2)
      (cell_ports c)) (cell_ports c).

Definition const_cells_single_pin (ctx : Context) : Prop :=
  map_Forall (λ _ c, cell_type c = "GND" ∨ cell_type c = "VCC" → single_pin c)
    (cells ctx).

#[global] Instance single_pin_dec c : Decision (single_pin c).
Proof. unfold single_pin. apply _. Defined.
#[global] Instance const_cells_single_pin_dec ctx : Decision (const_cells_single_pin ctx).
Proof. unfold const_cells_single_pin. apply _. Defined.

(** The names the pass gives to what it creates are not taken. *)
Definition reserved_free (ctx : Context) : Prop :=
  cells ctx !! "$PACKER_CONST" = None ∧
  nets ctx !! "$PACKER_GND_NET" = None ∧
  nets ctx !! "$PACKER_VCC_NET" = None.

#[global] Instance reserved_free_dec ctx : Decision (reserved_free ctx).
Proof. unfold reserved_free. apply _. Defined.

(** The constant-source cell as [pack_constants] builds it. *)
Definition the_const_cell : CellInfo :=
  default (create_machxo2_cell id_FACADE_SLICE "$PACKER_CONST") new_const_cell.

Definition in_refs (S : gset (string * string)) (r : PortRef) : Prop :=
  match ref_cell r with
  | Some c => (c, ref_port r) ∈ S
  | None => False
  end.

#[global] Instance in_refs_dec S r : Decision (in_refs S r).
Proof. unfold in_refs. destruct (ref_cell r); apply _. Defined.

Definition sever (S : gset (string * string)) (ni : NetInfo) : NetInfo :=
  let ni1 := set_net_users (filter (λ u, ¬ in_refs S u) (net_users ni)) ni in
  if decide (in_refs S (net_driver ni)) then clear_driver_cell ni1 else ni1.

Definition disc (S : gset (string * string)) (c : IdString) (ce : CellInfo) : CellInfo :=
  set_cell_ports
    (map_imap (λ p pi, Some (if decide ((c, p) ∈ S) then set_port_net None pi else pi))
       (cell_ports ce)) ce.

Definition io_inv (ctx0 : Context) (S : gset (string * string)) (cur : Context) : Prop :=
  nets cur = sever S <$> nets ctx0 ∧
  cells cur = map_imap (λ c ce, Some (disc S c ce)) (cells ctx0) ∧
  settings cur = settings ctx0.


(** The references to sever once the cells of [pre] have been visited. *)
Definition iob_port (ctx0 : Context) (pre : list IdString) (c p : IdString) : Prop :=
  c ∈ pre ∧ ∃ ce, cells ctx0 !! c = Some ce ∧ is_nextpnr_iob ce ∧
                  is_Some (cell_ports ce !! p).

Definition pack_io_inv (ctx0 : Context) (pre : list IdString)
  (st : Context * gset string) : Prop :=
  ∃ S, io_inv ctx0 S st.1 ∧
       (∀ c p, (c, p) ∈ S ↔ iob_port ctx0 pre c p) ∧
       (∀ c, c ∈ st.2 ↔ c ∈ pre ∧ cell_is_iob ctx0 c).

(** A net once its users have been handed over. *)
Definition emptied (ni : NetInfo) : NetInfo := set_net_users [] (clear_driver_cell ni).

(** A net whose driver is no constant cell. *)
Definition quiet_net (ctx : Context) (ni : NetInfo) : Prop :=
  match ref_cell (net_driver ni) with
  | None => True
  | Some d => ∃ dc, cells ctx !! d = Some dc ∧ cell_type dc ≠ "GND" ∧ cell_type dc ≠ "VCC"
  end.

(** The constant cells erased once the nets of [pre] have been visited. *)
Definition erased (ctx0 : Context) (pre : list IdString) (c : IdString) : Prop :=
  ∃ n ni v, n ∈ pre ∧ nets ctx0 !! n = Some ni ∧ net_kind ctx0 ni = Some (c, v).

Definition const_net (ctx0 : Context) (n : IdString) : Prop :=
  ∃ ni, nets ctx0 !! n = Some ni ∧ is_Some (net_kind ctx0 ni).

(** The invariant of the loop of [pack_constants]. *)
Definition const_inv (ctx0 : Context) (K : CellInfo) (pre : list IdString)
  (st : ConstLocals) : Prop :=
  (∀ n, nets (c_ctx st) !! n =
        (λ ni, if decide (n ∈ pre ∧ is_Some (net_kind ctx0 ni))
               then emptied ni else ni) <$> nets ctx0 !! n) ∧
  (∀ c, erased ctx0 pre c → cells (c_ctx st) !! c = None) ∧
  (∀ c, ¬ erased ctx0 pre c →
        option_Forall2 same_but_ports (cells ctx0 !! c) (cells (c_ctx st) !! c)) ∧
  settings (c_ctx st) = settings ctx0 ∧
  gnd_net st = set_net_users (constant_users ctx0 false pre) (new_gnd_net K) ∧
  vcc_net st = set_net_users (constant_users ctx0 true pre) (new_vcc_net K) ∧
  (∀ n, n ∈ dead_nets st ↔ n ∈ pre ∧ const_net ctx0 n).

(** *** Vocabulary of the enumeration proof *)

Module ChipdbSpec.
Import Chipdb.
Local Open Scope Z_scope.

(** The identifier of site [i] of tile number [t]. *)
Definition bel_at (chip : ChipInfoPOD) (t i : Z) : BelId :=
  {| location := {| x := t mod width chip; y := t / width chip |}; index := i |}.

(** The sites of tile [t] from local index [i] on. *)
Definition tile_rest (chip : ChipInfoPOD) (t i : Z) : list BelId :=
  bel_at chip t <$> seqZ i (tile_bel_count chip t - i).

(** The sites of the tiles from tile [t] on. *)
Definition tiles_from (chip : ChipInfoPOD) (t : Z) : list BelId :=
  tt ← seqZ t (num_tiles chip - t); tile_rest chip tt 0.

(** What an iterator has still to yield. *)
Definition remaining (chip : ChipInfoPOD) (it : BelIterator) : list BelId :=
  tile_rest chip (cursor_tile it) (cursor_index it) ++ tiles_from chip (cursor_tile it + 1).

(** A position the iterator can rest at: a site of a tile, or the end. *)
Definition settled (chip : ChipInfoPOD) (it : BelIterator) : Prop :=
  (0 ≤ cursor_tile it < num_tiles chip ∧
   0 ≤ cursor_index it < tile_bel_count chip (cursor_tile it)) ∨
  it = {| cursor_index := 0; cursor_tile := num_tiles chip |}.

End ChipdbSpec.
Export ChipdbSpec.

(** *** Vocabulary of the fusion pass *)

(** The first flip-flop fed through its data pin among the users of a net. *)
Definition ff_load (ctx : Context) (u : PortRef) : option IdString :=
  c ← ref_cell u;
  ce ← cells ctx !! c;
  if is_ff ce && bool_decide (ref_port u = "DI") then Some c else None.

Definition find_ff (ctx : Context) (users : list PortRef) : option IdString :=
  head (omap (ff_load ctx) users).

(** The net on the output of a cell. *)
Definition z_net (ctx : Context) (k : IdString) : option IdString :=
  ci ← cells ctx !! k;
  zp ← cell_ports ci !! "Z";
  port_net zp.

(** The candidate flip-flop of a lookup-table: the one found on its output
    net. *)
Definition candidate (ctx : Context) (k : IdString) : option IdString :=
  on ← z_net ctx k;
  ni ← nets ctx !! on;
  find_ff ctx (net_users ni).

(** The flip-flop a lookup-table is fused with, if any. *)
Definition fused_with (ctx : Context) (k : IdString) : option IdString :=
  ci ← cells ctx !! k;
  if is_lut ci then
    dffp ← candidate ctx k;
    dffc ← cells ctx !! dffp;
    if locations_differ (cell_attrs ci !! id_BEL) (cell_attrs dffc !! id_BEL)
    then None else Some dffp
  else None.

(** The slice cell with the connection of a port of [oc] moved to it. *)
Definition move_port (oc : CellInfo) (old_name rep_name : IdString) (rep : CellInfo)
  : CellInfo :=
  match cell_ports oc !! old_name, cell_ports rep !! rep_name with
  | Some old, Some rp =>
      set_cell_ports (<[rep_name := set_port_net (port_net old) rp]> (cell_ports rep)) rep
  | _, _ => rep
  end.

Definition move_ports (oc : CellInfo) (moves : list (IdString * IdString))
  (rep : CellInfo) : CellInfo :=
  foldl (λ r '(old_name, rep_name), move_port oc old_name rep_name r) rep moves.

Definition lut_moves : list (IdString * IdString) :=
  [("A", "A0"); ("B", "B0"); ("C", "C0"); ("D", "D0")].
Definition dff_moves : list (IdString * IdString) :=
  [("CLK", "CLK"); ("LSR", "LSR"); ("CE", "CE"); ("Q", "Q0")].

Definition lut_merged (lutc : CellInfo) (no_dff : bool) (lc : CellInfo) : CellInfo :=
  let lc1 :=
    set_cell_params
      (<[id_LUT0_INITVAL := default (PropInt 0 16) (cell_params lutc !! "INIT")]>
         (cell_params lc)) lc in
  let lc2 := move_ports lutc lut_moves lc1 in
  if no_dff then move_port lutc "Z" id_F0 lc2 else lc2.

Definition dff_merged (dffc : CellInfo) (lc : CellInfo) : CellInfo :=
  let lc1 :=
    set_cell_params
      (<["REG0_REGSET" := default (PropString "RESET") (cell_params dffc !! "REGSET")]>
         (cell_params lc)) lc in
  move_ports dffc dff_moves lc1.

(** The slice cell the pass builds for the lookup-table [ci] stored under
    [k]. *)
Definition fresh_slice (ci : CellInfo) : CellInfo :=
  let packed := create_machxo2_cell id_FACADE_SLICE (cell_name ci +:+ "_LC") in
  set_cell_attrs (cell_attrs packed ∪ cell_attrs ci) packed.

Definition slice_for (ctx : Context) (k : IdString) (ci : CellInfo) : CellInfo :=
  match fused_with ctx k ≫= (λ dffp, cells ctx !! dffp) with
  | Some dffc =>
      let packed2 := dff_merged dffc (lut_merged ci false (fresh_slice ci)) in
      match cell_attrs dffc !! id_BEL with
      | Some v => set_cell_attrs (<[id_BEL := v]> (cell_attrs packed2)) packed2
      | None => packed2
      end
  | None => lut_merged ci true (fresh_slice ci)
  end.

(** Every lookup-table has its output port. *)
Definition luts_have_output (ctx : Context) : Prop :=
  map_Forall (λ _ ci, is_lut ci → is_Some (cell_ports ci !! "Z")) (cells ctx).

(** The names the pass gives to the slice cells are not taken. *)
Definition slice_names_free (ctx : Context) : Prop :=
  map_Forall (λ _ ci, is_lut ci → cells ctx !! (cell_name ci +:+ "_LC") = None)
    (cells ctx).

(** The output of a lookup-table that is fused feeds its flip-flop only. *)
Definition fused_exclusive (ctx : Context) : Prop :=
  map_Forall (λ k _,
    match fused_with ctx k, z_net ctx k ≫= (λ on, nets ctx !! on) with
    | Some dffp, Some ni =>
        net_users ni = [ {| ref_cell := Some dffp; ref_port := "DI" |} ]
    | _, _ => True
    end) (cells ctx).

#[global] Instance luts_have_output_dec ctx : Decision (luts_have_output ctx).
Proof. unfold luts_have_output. apply _. Defined.
#[global] Instance slice_names_free_dec ctx : Decision (slice_names_free ctx).
Proof. unfold slice_names_free. apply _. Defined.
#[global] Instance fused_exclusive_dec ctx : Decision (fused_exclusive ctx).
Proof.
  unfold fused_exclusive. apply map_Forall_dec. intros k c.
  repeat case_match; apply _.
Defined.

(** The cells the loop of the fusion pass has rewired once the cells of
    [pre] have been visited, and the nets it has erased. *)
Definition touched (ctx0 : Context) (pre : list IdString) (c : IdString) : Prop :=
  (c ∈ pre ∧ ∃ ci, cells ctx0 !! c = Some ci ∧ is_lut ci) ∨
  ∃ k, k ∈ pre ∧ fused_with ctx0 k = Some c.

Definition fused_net (ctx0 : Context) (pre : list IdString) (n : IdString) : Prop :=
  ∃ k dffp, k ∈ pre ∧ fused_with ctx0 k = Some dffp ∧ z_net ctx0 k = Some n.

(** A user of a net is as it was, or it was no data pin of a flip-flop and
    has moved to one of the new slice cells. *)
Definition user_rel (ctx0 : Context) (names : list IdString) (u0 u : PortRef) : Prop :=
  u = u0 ∨ (ff_load ctx0 u0 = None ∧ ∃ nm, ref_cell u = Some nm ∧ nm ∈ names).

Definition net_rel (ctx0 : Context) (names : list IdString) (ni0 ni : NetInfo) : Prop :=
  net_name ni = net_name ni0 ∧
  Forall2 (user_rel ctx0 names) (net_users ni0) (net_users ni).

(** The slice cells built for the lookup-tables among [pre]. *)
Definition slices_of (ctx0 : Context) (pre : list IdString) : list CellInfo :=
  omap (λ k, ci ← cells ctx0 !! k;
             if is_lut ci then Some (slice_for ctx0 k ci) else None) pre.

(** The invariant of the loop of [pack_lut_lutffs]. *)
Definition lut_inv (ctx0 : Context) (pre : list IdString) (st : LutLocals) : Prop :=
  (∀ c, option_Forall2 same_but_ports (cells ctx0 !! c) (cells (l_ctx st) !! c)) ∧
  (∀ c, ¬ touched ctx0 pre c → cells (l_ctx st) !! c = cells ctx0 !! c) ∧
  new_cells st = slices_of ctx0 pre ∧
  (∀ c, c ∈ packed_cells st ↔ touched ctx0 pre c) ∧
  (∀ n, fused_net ctx0 pre n → nets (l_ctx st) !! n = None) ∧
  (∀ n, ¬ fused_net ctx0 pre n →
        option_Forall2 (net_rel ctx0 (cell_name <$> slices_of ctx0 pre))
          (nets ctx0 !! n) (nets (l_ctx st) !! n)) ∧
  settings (l_ctx st) = settings ctx0.

(** How a net changes when ports of [c] are moved to the cell named [nm]. *)
Definition ref_moved (c : IdString) (ps : list IdString) (nm : IdString)
  (u u' : PortRef) : Prop :=
  u' = u ∨ (ref_cell u = Some c ∧ ref_port u ∈ ps ∧ ref_cell u' = Some nm).

Definition net_moved (c : IdString) (ps : list IdString) (nm : IdString)
  (ni ni' : NetInfo) : Prop :=
  net_name ni' = net_name ni ∧
  Forall2 (ref_moved c ps nm) (net_users ni) (net_users ni').

(** The ports [lut_to_lc] and [dff_to_lc] move away from the old cell. *)
Definition lut_old_ports (no_dff : bool) : list IdString :=
  ["A"; "B"; "C"; "D"] ++ (if no_dff then ["Z"] else []).

Definition dff_old_ports : list IdString := ["CLK"; "LSR"; "CE"; "Q"].

(** The compatibility of two placement constraints in the words of the
    design document: no constraint on either side, a constraint on one side
    only, or twice the same constraint. *)
Definition compatible (lut_bel dff_bel : option Property) : Prop :=
  lut_bel = None ∨ dff_bel = None ∨ lut_bel = dff_bel.

(** The net of a port of a cell, if the cell has the port. *)
Definition net_of_port (c : CellInfo) (p : IdString) : option (option IdString) :=
  port_net <$> cell_ports c !! p.

(** The port [p] of the cell [c] is on the net named [n]. *)
Definition on_net_named (ctx : Context) (c p n : IdString) : Prop :=
  ∃ ce, cells ctx !! c = Some ce ∧ net_of_port ce p = Some (Some n).

(** [lay] is a layout: for every map it yields the keys of the map, each
    once, in an order of its own. *)
Definition lays_out (lay : ∀ V : Type, gmap string V → list IdString) : Prop :=
  ∀ (V : Type) (m : gmap string V), lay V m ≡ₚ keys V m.

(** The walk [l] runs through every key of the map [m], once. *)
Definition enumerates {V} (l : list IdString) (m : gmap string V) : Prop :=
  NoDup l ∧ ∀ k, k ∈ l ↔ is_Some (m !! k).

(** The name of the net of the constant [v]. *)
Definition const_net_name (v : bool) : IdString :=
  if v then "$PACKER_VCC_NET" else "$PACKER_GND_NET".

(** In [ctx0] the port [p] of the cell [c] is among the users of a net of
    [pre] that carries the constant [v]. *)
Definition moved_port (ctx0 : Context) (pre : list IdString) (c p : IdString) (v : bool)
  : Prop :=
  ∃ n ni, n ∈ pre ∧ nets ctx0 !! n = Some ni ∧ kind_is ctx0 v ni ∧
          {| ref_cell := Some c; ref_port := p |} ∈ net_users ni.

(** The ports of the cells while the loop of [pack_constants] runs: a port
    that was a user of a constant net visited so far is on the net of that
    constant and is otherwise as it was, every other port is as it was. *)
Definition ports_inv (ctx0 : Context) (pre : list IdString) (st : ConstLocals) : Prop :=
  ∀ c ce0 ce, cells ctx0 !! c = Some ce0 → cells (c_ctx st) !! c = Some ce →
    (∀ p v, moved_port ctx0 pre c p v →
       ∃ pi0, cell_ports ce0 !! p = Some pi0 ∧
              cell_ports ce !! p = Some (set_port_net (Some (const_net_name v)) pi0)) ∧
    (∀ p, (∀ v, ¬ moved_port ctx0 pre c p v) → cell_ports ce !! p = cell_ports ce0 !! p).

End Vocab.
Export Vocab.

(** *** Small inputs to run the code on *)

Module Examples.
Import Chipdb Binding.

(** A cell from its name, its type, its ports with their nets, and its
    attributes. *)
Definition mkcell (n t : string) (ps : list (string * PortType * option string))
  (ats : list (string * Property)) : CellInfo :=
  {| cell_name := n; cell_type := t;
     cell_ports :=
       list_to_map
         ((λ '(p, ty, nt), (p, {| port_name := p; port_net := nt; port_type := ty |}))
            <$> ps);
     cell_attrs := list_to_map ats; cell_params := ∅ |}.

(** A net from its name, its driver and its users. *)
Definition mknet (n : string) (d : option string * string) (us : list (string * string))
  : NetInfo :=
  {| net_name := n; net_driver := {| ref_cell := d.1; ref_port := d.2 |};
     net_users := (λ '(c, p), {| ref_cell := Some c; ref_port := p |}) <$> us |}.

Definition mkctx (cs : list CellInfo) (ns : list NetInfo) : Context :=
  {| cells := list_to_map ((λ c, (cell_name c, c)) <$> cs);
     nets := list_to_map ((λ n, (net_name n, n)) <$> ns); settings := ∅ |}.

(** Three nets, each driven by a ground cell of its own, one net driven by
    a supply cell, and one net that carries a signal. *)
Definition three_grounds : Context :=
  mkctx
    [ mkcell "g1" "GND" [("GND", PORT_OUT, Some "z1")] [];
      mkcell "g2" "GND" [("GND", PORT_OUT, Some "z2")] [];
      mkcell "g3" "GND" [("GND", PORT_OUT, Some "z3")] [];
      mkcell "v1" "VCC" [("VCC", PORT_OUT, Some "one")] [];
      mkcell "u" "FACADE_IO"
        [("A", PORT_IN, Some "z1"); ("B", PORT_IN, Some "z2"); ("C", PORT_IN, Some "z3");
         ("D", PORT_IN, Some "one"); ("E", PORT_IN, Some "z1"); ("O", PORT_OUT, Some "s")] [];
      mkcell "w" "FACADE_IO" [("I", PORT_IN, Some "s")] [] ]
    [ mknet "z1" (Some "g1", "GND") [("u", "A"); ("u", "E")];
      mknet "z2" (Some "g2", "GND") [("u", "B")];
      mknet "z3" (Some "g3", "GND") [("u", "C")];
      mknet "one" (Some "v1", "VCC") [("u", "D")];
      mknet "s" (Some "u", "O") [("w", "I")] ].

(** A placeholder input buffer with three fan-out connections, and a
    placeholder output buffer. *)
Definition buffered : Context :=
  mkctx
    [ mkcell "pad" "$nextpnr_ibuf" [("O", PORT_OUT, Some "i")] [];
      mkcell "led" "$nextpnr_obuf" [("I", PORT_IN, Some "o")] [];
      mkcell "a" "FACADE_IO" [("I", PORT_IN, Some "i"); ("O", PORT_OUT, Some "o")] [];
      mkcell "b" "FACADE_IO" [("I", PORT_IN, Some "i")] [];
      mkcell "c" "FACADE_IO" [("I", PORT_IN, Some "i")] [] ]
    [ mknet "i" (Some "pad", "O") [("a", "I"); ("b", "I"); ("c", "I")];
      mknet "o" (Some "a", "O") [("led", "I")] ].

(** Two lookup-tables, each feeding the data pin of one flip-flop: the
    first pair is not constrained, the second pair is constrained to two
    different sites. *)
Definition two_pairs : Context :=
  mkctx
    [ mkcell "l1" "LUT4" [("A", PORT_IN, Some "a"); ("Z", PORT_OUT, Some "n1")]
        [("KEEP", PropInt 1 1)];
      mkcell "f1" "FACADE_FF"
        [("DI", PORT_IN, Some "n1"); ("CLK", PORT_IN, Some "clk"); ("Q", PORT_OUT, Some "q1")]
        [];
      mkcell "l2" "LUT4" [("A", PORT_IN, Some "a"); ("Z", PORT_OUT, Some "n2")]
        [("BEL", PropString "X1/Y1/SLICEA")];
      mkcell "f2" "FACADE_FF"
        [("DI", PORT_IN, Some "n2"); ("CLK", PORT_IN, Some "clk"); ("Q", PORT_OUT, Some "q2")]
        [("BEL", PropString "X2/Y2/SLICEB")];
      mkcell "l3" "LUT4" [("A", PORT_IN, Some "a"); ("Z", PORT_OUT, Some "n3")] [];
      mkcell "f3" "FACADE_FF"
        [("DI", PORT_IN, Some "n3"); ("CLK", PORT_IN, Some "clk"); ("Q", PORT_OUT, Some "q3")]
        [("BEL", PropString "X3/Y3/SLICEC")] ]
    [ mknet "a" (None, EmptyString) [("l1", "A"); ("l2", "A"); ("l3", "A")];
      mknet "clk" (None, EmptyString) [("f1", "CLK"); ("f2", "CLK"); ("f3", "CLK")];
      mknet "n1" (Some "l1", "Z") [("f1", "DI")];
      mknet "n2" (Some "l2", "Z") [("f2", "DI")];
      mknet "n3" (Some "l3", "Z") [("f3", "DI")];
      mknet "q1" (Some "f1", "Q") [];
      mknet "q2" (Some "f2", "Q") [];
      mknet "q3" (Some "f3", "Q") [] ].

(** A lookup-table whose output feeds the data pin of a flip-flop and, in
    addition, an output pad. *)
Definition fan_out : Context :=
  mkctx
    [ mkcell "l" "LUT4" [("A", PORT_IN, Some "a"); ("Z", PORT_OUT, Some "n")] [];
      mkcell "f" "FACADE_FF"
        [("DI", PORT_IN, Some "n"); ("CLK", PORT_IN, Some "clk"); ("Q", PORT_OUT, Some "q")] [];
      mkcell "pad" "FACADE_IO" [("I", PORT_IN, Some "n")] [] ]
    [ mknet "a" (None, EmptyString) [("l", "A")];
      mknet "clk" (None, EmptyString) [("f", "CLK")];
      mknet "n" (Some "l", "Z") [("f", "DI"); ("pad", "I")];
      mknet "q" (Some "f", "Q") [] ].

(** The same, with a second lookup-table in the place of the pad. *)
Definition fan_out_lut : Context :=
  mkctx
    [ mkcell "l" "LUT4" [("A", PORT_IN, Some "a"); ("Z", PORT_OUT, Some "n")] [];
      mkcell "f" "FACADE_FF"
        [("DI", PORT_IN, Some "n"); ("CLK", PORT_IN, Some "clk"); ("Q", PORT_OUT, Some "q")] [];
      mkcell "m" "LUT4" [("A", PORT_IN, Some "n"); ("Z", PORT_OUT, Some "z")] [] ]
    [ mknet "a" (None, EmptyString) [("l", "A")];
      mknet "clk" (None, EmptyString) [("f", "CLK")];
      mknet "n" (Some "l", "Z") [("f", "DI"); ("m", "A")];
      mknet "q" (Some "f", "Q") [];
      mknet "z" (Some "m", "Z") [] ].

(** A grid of two columns and two rows whose tiles hold two, no, one and
    three sites. *)
Definition site (n : string) (z : Z) : BelInfoPOD :=
  {| bel_name := n; bel_type := 0; bel_z := z; num_bel_wires := 0 |}.

Definition small_chip : ChipInfoPOD :=
  {| width := 2; height := 2; num_tiles := 4;
     tiles :=
       [ {| num_bels := 2; bel_data := [site "SLICEA" 0; site "SLICEB" 1] |};
         {| num_bels := 0; bel_data := [] |};
         {| num_bels := 1; bel_data := [site "IO" 0] |};
         {| num_bels := 3; bel_data := [site "SLICEA" 0; site "SLICEB" 1; site "SLICEC" 2] |} ]
  |}.

Definition first_site : BelId := {| location := {| x := 0; y := 0 |}; index := 0 |}.

(** The binding state in which the first site is taken by the cell [c]. *)
Definition one_bound : BindingState :=
  {| bel_occupant := {[ first_site := ("c", STRENGTH_USER) ]};
     cell_location := {[ "c" := (first_site, STRENGTH_USER) ]} |}.

End Examples.

(** ** Part III: lemmas *)

(** *** Tactics and general facts *)

Ltac recsimpl :=
  cbn [net_users net_driver net_name set_net_users set_net_driver clear_driver_cell
       ref_cell ref_port cell_ports cell_name cell_type cell_attrs cell_params
       set_cell_ports set_cell_attrs set_cell_params set_port_net port_net port_name
       port_type cells nets settings set_cells set_nets set_settings] in *.
Ltac optsimpl :=
  cbn [mbind option_bind fmap option_fmap option_map from_option default] in *.

Lemma bind_Ok {A B} (r : result A) (k : A → result B) b :
  r ≫= k = Ok b ↔ ∃ a, r = Ok a ∧ k a = Ok b.
Proof.
  destruct r; simpl; split.
  - intros. eauto.
  - by intros (? & [= <-] & ?).
  - done.
  - by intros (? & ? & ?).
Qed.

Lemma for_each_app {K St} (body : K → St → result St) l1 l2 st :
  for_each body (l1 ++ l2) st = for_each body l1 st ≫= for_each body l2.
Proof.
  revert st. induction l1 as [|k l1 IH]; intros st; simpl; [done|].
  destruct (body k st); simpl; [apply IH|done].
Qed.

(** loop rule: an invariant indexed by the list of keys already visited *)
Lemma for_each_inv {K St} (body : K → St → result St) (I : list K → St → Prop) l st :
  I [] st →
  (∀ pre k post st1, l = pre ++ k :: post → I pre st1 →
     ∃ st2, body k st1 = Ok st2 ∧ I (pre ++ [k]) st2) →
  ∃ st', for_each body l st = Ok st' ∧ I l st'.
Proof.
  intros Hinit Hstep.
  cut (∀ suf pre st1, l = pre ++ suf → I pre st1 →
         ∃ st', for_each body suf st1 = Ok st' ∧ I l st').
  { intros Hgen. by apply (Hgen l []). }
  induction suf as [|k suf IH]; intros pre st1 Hl Hpre; simpl.
  - exists st1. split; [done|]. by rewrite Hl, app_nil_r.
  - destruct (Hstep pre k suf st1 Hl Hpre) as (st2 & -> & Hst2). simpl.
    apply (IH (pre ++ [k])); [|done]. by rewrite <-app_assoc.
Qed.

Lemma filter_ext_in {A} (P1 P2 : A → Prop)
    `{!∀ x, Decision (P1 x), !∀ x, Decision (P2 x)} (l : list A) :
  (∀ x, x ∈ l → P1 x ↔ P2 x) → filter P1 l = filter P2 l.
Proof.
  induction l as [|a l IH]; intros Hiff; [done|].
  rewrite !filter_cons.
  rewrite IH by (intros; apply Hiff; by right).
  apply decide_ext, Hiff. by left.
Qed.

Lemma lookup_erase_all {V} (s : gset string) (m : gmap string V) k :
  erase_all s m !! k = if decide (k ∈ s) then None else m !! k.
Proof.
  unfold erase_all.
  assert (∀ l, foldr delete m l !! k = if decide (k ∈ l) then None else m !! k) as Hl.
  { induction l as [|a l IH]; cbn [foldr].
    - by rewrite decide_False by (by intros ?%elem_of_nil).
    - destruct (decide (a = k)) as [->|Hne].
      + rewrite lookup_delete_eq. by rewrite decide_True by (by left).
      + rewrite lookup_delete_ne, IH by done.
        apply decide_ext. rewrite elem_of_cons. naive_solver. }
  rewrite Hl. apply decide_ext. apply elem_of_elements.
Qed.


Section wf.
Context (ctx0 : Context) (Hwf : wf_netlist ctx0).

Lemma wf_port_net k ce p pi n :
  cells ctx0 !! k = Some ce → cell_ports ce !! p = Some pi → port_net pi = Some n →
  ∃ ni, nets ctx0 !! n = Some ni ∧ port_on_net k p ni.
Proof.
  intros Hk Hp Hn. destruct Hwf as (_ & Hports & _).
  specialize (Hports k ce Hk p pi Hp). simpl in Hports. rewrite Hn in Hports.
  destruct (nets ctx0 !! n) as [ni|]; [eauto|done].
Qed.

Lemma wf_net_port m ni k p :
  nets ctx0 !! m = Some ni → port_on_net k p ni →
  ∃ ce pi, cells ctx0 !! k = Some ce ∧ cell_ports ce !! p = Some pi ∧
           port_net pi = Some m.
Proof.
  intros Hm Hon. destruct Hwf as (_ & _ & Hnets).
  destruct (Hnets m ni Hm) as [Hdrv Hus].
  assert (ref_on_port ctx0 m {| ref_cell := Some k; ref_port := p |}) as Href.
  { destruct Hon as [<-|Hin]; [done|]. rewrite Forall_forall in Hus. by apply Hus. }
  unfold ref_on_port in Href; simpl in Href.
  destruct (cells ctx0 !! k) as [ce|] eqn:Hce; [|done].
  destruct (cell_ports ce !! p) as [pi|] eqn:Hpi; [|done]. eauto.
Qed.


Lemma wf_cell_name k ce : cells ctx0 !! k = Some ce → cell_name ce = k.
Proof. destruct Hwf as ((Hnames & _) & _). apply Hnames. Qed.

Lemma wf_net_name n ni : nets ctx0 !! n = Some ni → net_name ni = n.
Proof. destruct Hwf as ((_ & Hnames) & _). apply Hnames. Qed.
End wf.

Lemma elem_of_sorted {V} (m : gmap string V) k : k ∈ sorted m ↔ is_Some (m !! k).
Proof.
  unfold sorted. rewrite merge_sort_Permutation, list_elem_of_fmap. split.
  - intros ([k' v] & -> & Hin%elem_of_map_to_list). by eexists.
  - intros [v Hv]. exists (k, v). split; [done|]. by apply elem_of_map_to_list.
Qed.

Lemma NoDup_sorted {V} (m : gmap string V) : NoDup (sorted m).
Proof. unfold sorted. rewrite merge_sort_Permutation. apply NoDup_fst_map_to_list. Qed.

Lemma lookup_foldl_delete {V} (l : list string) (m : gmap string V) k :
  foldl (λ m dn, delete dn m) m l !! k = if decide (k ∈ l) then None else m !! k.
Proof.
  revert m. induction l as [|a l IH]; intros m; cbn [foldl].
  - by rewrite decide_False by (by intros ?%elem_of_nil).
  - rewrite IH. destruct (decide (a = k)) as [->|Hne].
    + rewrite lookup_delete_eq. rewrite (decide_True (P := k ∈ k :: l)) by (by left).
      by destruct (decide (k ∈ l)).
    + rewrite lookup_delete_ne by done.
      apply decide_ext. rewrite elem_of_cons. naive_solver.
Qed.

Lemma same_but_ports_refl a : same_but_ports a a.
Proof. done. Qed.

Lemma same_but_ports_trans a b c :
  same_but_ports a b → same_but_ports b c → same_but_ports a c.
Proof. unfold same_but_ports. intros (?&?&?&?) (?&?&?&?). split_and!; congruence. Qed.

Lemma same_but_ports_set_port a p n : same_but_ports a (set_port_net_default p n a).
Proof. done. Qed.

(** *** [pack_io] *)

Lemma in_refs_add S k p r :
  in_refs ({[(k, p)]} ∪ S) r ↔ is_ref k p r ∨ in_refs S r.
Proof.
  unfold in_refs, is_ref. destruct r as [[c|] q]; simpl; [|naive_solver].
  rewrite elem_of_union, elem_of_singleton. naive_solver.
Qed.

Lemma is_ref_eq k p r : is_ref k p r ↔ r = {| ref_cell := Some k; ref_port := p |}.
Proof. unfold is_ref. destruct r; simpl. naive_solver. Qed.

Lemma sever_add S k p ni :
  sever ({[(k, p)]} ∪ S) ni =
  (let ni0 := sever S ni in
   let ni1 := set_net_users (filter (λ u, ¬ is_ref k p u) (net_users ni0)) ni0 in
   if decide (is_ref k p (net_driver ni1)) then clear_driver_cell ni1 else ni1).
Proof.
  destruct ni as [nm drv us]. unfold sever; recsimpl.
  assert (filter (λ u, ¬ in_refs ({[(k, p)]} ∪ S) u) us =
          filter (λ u, ¬ is_ref k p u) (filter (λ u, ¬ in_refs S u) us)) as Hus.
  { rewrite list_filter_filter. apply list_filter_iff. intros u.
    rewrite in_refs_add. naive_solver. }
  rewrite Hus.
  destruct (decide (in_refs S drv)) as [HS|HS]; recsimpl.
  - rewrite decide_True by (apply in_refs_add; by right).
    rewrite decide_False by (unfold is_ref; simpl; naive_solver). done.
  - destruct (decide (is_ref k p drv)) as [Hr|Hr].
    + rewrite decide_True by (apply in_refs_add; by left). done.
    + rewrite decide_False by (rewrite in_refs_add; naive_solver). done.
Qed.

Lemma sever_add_absent S k p ni :
  ¬ port_on_net k p ni → sever ({[(k, p)]} ∪ S) ni = sever S ni.
Proof.
  intros Hno. unfold port_on_net in Hno.
  destruct ni as [nm drv us]; recsimpl. unfold sever; recsimpl.
  assert (filter (λ u, ¬ in_refs ({[(k, p)]} ∪ S) u) us =
          filter (λ u, ¬ in_refs S u) us) as ->.
  { apply filter_ext_in. intros u Hu. rewrite in_refs_add, is_ref_eq.
    split; [naive_solver|]. intros ? [->|?]; naive_solver. }
  destruct (decide (in_refs S drv)) as [HS|HS].
  - by rewrite decide_True by (apply in_refs_add; by right).
  - rewrite decide_False; [done|]. rewrite in_refs_add, is_ref_eq. naive_solver.
Qed.

Lemma disc_add_other S k p c ce :
  c ≠ k → disc ({[(k, p)]} ∪ S) c ce = disc S c ce.
Proof.
  intros Hne. unfold disc. f_equal. apply map_eq. intros q.
  rewrite !map_lookup_imap. destruct (cell_ports ce !! q); simpl; [|done].
  f_equal. apply decide_ext. set_solver.
Qed.

Lemma disc_ports S c ce q :
  cell_ports (disc S c ce) !! q =
  (λ pi, if decide ((c, q) ∈ S) then set_port_net None pi else pi) <$> cell_ports ce !! q.
Proof.
  unfold disc; simpl. rewrite map_lookup_imap.
  by destruct (cell_ports ce !! q).
Qed.

Lemma set_port_net_id pi : set_port_net (port_net pi) pi = pi.
Proof. by destruct pi. Qed.

Section pack_io.
Context (ctx0 : Context) (Hwf : wf_netlist ctx0).
Local Abbreviation iob_port := (iob_port ctx0).
Local Abbreviation pack_io_inv := (pack_io_inv ctx0).

Lemma disconnect_port_spec S cur k p :
  io_inv ctx0 S cur → is_Some (cells ctx0 !! k) →
  ∃ cur', disconnect_port cur k p = Ok cur' ∧ io_inv ctx0 ({[(k, p)]} ∪ S) cur'.
Proof.
  intros (Hnets & Hcells & Hset) [ce Hce]. unfold disconnect_port.
  rewrite Hcells, map_lookup_imap, Hce. optsimpl. rewrite disc_ports.
  (* when no net of the original netlist mentions the port, nothing changes *)
  assert ((∀ m ni, nets ctx0 !! m = Some ni → ¬ port_on_net k p ni) →
          (∀ pi, cell_ports ce !! p = Some pi → (k, p) ∉ S → port_net pi = None) →
          io_inv ctx0 ({[(k, p)]} ∪ S) cur) as Hsame.
  { intros Hno Hnone. split_and!; [| |done].
    - rewrite Hnets. apply map_eq. intros m. rewrite !lookup_fmap.
      destruct (nets ctx0 !! m) as [ni|] eqn:Hm; optsimpl; [|done].
      f_equal. symmetry. apply sever_add_absent. eauto.
    - rewrite Hcells. apply map_eq. intros c. rewrite !map_lookup_imap.
      destruct (cells ctx0 !! c) as [ce'|] eqn:Hc; optsimpl; [|done]. f_equal.
      destruct (decide (c = k)) as [->|Hne]; [|by rewrite disc_add_other].
      assert (ce' = ce) as -> by congruence.
      unfold disc. f_equal. apply map_eq. intros q. rewrite !map_lookup_imap.
      destruct (cell_ports ce !! q) as [pi|] eqn:Hq; optsimpl; [|done]. f_equal.
      destruct (decide (q = p)) as [->|Hqp]; [|apply decide_ext; set_solver].
      destruct (decide ((k, p) ∈ S)) as [HS|HS].
      + by rewrite decide_True by set_solver.
      + rewrite decide_True by set_solver.
        rewrite <-(Hnone pi Hq HS). by rewrite set_port_net_id. }
  destruct (cell_ports ce !! p) as [pi|] eqn:Hp; optsimpl.
  2:{ eexists; split; [done|]. apply Hsame; [|done].
      intros m ni Hm Hon. destruct (wf_net_port ctx0 Hwf m ni k p Hm Hon) as (? & ? & ? & ? & ?).
      congruence. }
  destruct (decide ((k, p) ∈ S)) as [HS|HS]; recsimpl.
  { eexists; split; [done|].
    replace ({[(k, p)]} ∪ S) with S by set_solver. done. }
  destruct (port_net pi) as [n|] eqn:Hn.
  2:{ eexists; split; [done|]. apply Hsame; [|congruence].
      intros m ni Hm Hon. destruct (wf_net_port ctx0 Hwf m ni k p Hm Hon) as (? & ? & ? & ? & ?).
      congruence. }
  destruct (wf_port_net ctx0 Hwf k ce p pi n Hce Hp Hn) as (ni & Hni & Hon).
  rewrite Hnets, lookup_fmap, Hni. optsimpl.
  eexists; split; [done|]. split_and!; recsimpl; [| |done].
  - apply map_eq. intros m. rewrite lookup_fmap.
    destruct (decide (m = n)) as [->|Hmn].
    + rewrite lookup_insert_eq, Hni. optsimpl. f_equal. by rewrite sever_add.
    + rewrite lookup_insert_ne, lookup_fmap by done.
      destruct (nets ctx0 !! m) as [ni'|] eqn:Hm; optsimpl; [|done].
      f_equal. symmetry. apply sever_add_absent. intros Hon'.
      destruct (wf_net_port ctx0 Hwf m ni' k p Hm Hon') as (? & ? & ? & ? & ?). congruence.
  - apply map_eq. intros c. rewrite map_lookup_imap.
    destruct (decide (c = k)) as [->|Hne].
    + rewrite lookup_insert_eq, Hce. optsimpl. f_equal.
      unfold disc, set_cell_ports; recsimpl. f_equal.
      apply map_eq. intros q. rewrite map_lookup_imap.
      destruct (decide (q = p)) as [->|Hqp].
      * rewrite lookup_insert_eq, Hp. optsimpl. by rewrite decide_True by set_solver.
      * rewrite lookup_insert_ne, map_lookup_imap by done.
        destruct (cell_ports ce !! q); optsimpl; [|done]. f_equal.
        apply decide_ext. set_solver.
    + rewrite lookup_insert_ne, map_lookup_imap by done.
      destruct (cells ctx0 !! c) as [ce'|]; optsimpl; [|done].
      by rewrite disc_add_other.
Qed.

Lemma disconnect_ports_spec S cur k ps :
  io_inv ctx0 S cur → is_Some (cells ctx0 !! k) →
  ∃ cur', for_each (λ p ctx, disconnect_port ctx k p) ps cur = Ok cur' ∧
          io_inv ctx0 (list_to_set ((λ p, (k, p)) <$> ps) ∪ S) cur'.
Proof.
  intros Hinv Hk. revert S cur Hinv.
  induction ps as [|p ps IH]; intros S cur Hinv.
  - exists cur. split; [done|].
    replace (list_to_set ((λ p, (k, p)) <$> []) ∪ S) with S by set_solver. done.
  - destruct (disconnect_port_spec S cur k p Hinv Hk) as (cur1 & Hrun & Hinv1).
    destruct (IH _ _ Hinv1) as (cur2 & Hrun2 & Hinv2).
    exists cur2. cbn [for_each]. rewrite Hrun. split; [done|].
    replace (list_to_set ((λ p0, (k, p0)) <$> p :: ps) ∪ S)
      with (list_to_set ((λ p0, (k, p0)) <$> ps) ∪ ({[(k, p)]} ∪ S)) by set_solver.
    done.
Qed.

Lemma is_nextpnr_iob_disc S c ce : is_nextpnr_iob (disc S c ce) = is_nextpnr_iob ce.
Proof. done. Qed.

Lemma pack_io_body_spec pre k st :
  is_Some (cells ctx0 !! k) → pack_io_inv pre st →
  ∃ st', pack_io_body k st = Ok st' ∧ pack_io_inv (pre ++ [k]) st'.
Proof.
  intros [ce Hce] (S & Hinv & HS & Hpacked). destruct st as [cur packed].
  cbn [fst snd] in *. unfold pack_io_body.
  pose proof Hinv as (_ & Hcells & _).
  rewrite Hcells, map_lookup_imap, Hce. optsimpl.
  rewrite is_nextpnr_iob_disc.
  destruct (is_nextpnr_iob ce) eqn:Hiob.
  - destruct (disconnect_ports_spec S cur k
                (map_to_list (cell_ports (disc S k ce))).*1 Hinv)
      as (cur' & -> & Hinv'); [by eexists|].
    eexists; split; [done|]. eexists; split; [exact Hinv'|]. split.
    + intros c p. rewrite elem_of_union, elem_of_list_to_set, HS.
      rewrite list_elem_of_fmap. unfold iob_port.
      setoid_rewrite list_elem_of_fmap. setoid_rewrite elem_of_app.
      setoid_rewrite list_elem_of_singleton. split.
      * intros [(q & [= -> ->] & ([q' pi] & -> & Hin))|(? & ?)]; [|naive_solver].
        apply elem_of_map_to_list in Hin. rewrite disc_ports in Hin.
        split; [by right|]. exists ce. split_and!; [done|by rewrite Hiob|].
        cbn [fst]. destruct (cell_ports ce !! q'); [by eexists|done].
      * intros [[?| ->] (ce' & Hce' & Hiob' & [pi Hpi])]; [right; naive_solver|].
        left. exists p. split; [done|]. assert (ce' = ce) as -> by congruence.
        eexists (p, _). split; [done|]. apply elem_of_map_to_list.
        rewrite disc_ports, Hpi. done.
    + intros c. cbn [snd]. rewrite elem_of_union, elem_of_singleton, Hpacked, elem_of_app.
      rewrite list_elem_of_singleton.
      assert (cell_name (disc S k ce) = k) as ->.
      { destruct Hwf as ((Hnames & _) & _). apply (Hnames k ce Hce). }
      split; [|naive_solver]. intros [->|?]; [|naive_solver].
      split; [by right|]. unfold cell_is_iob. by rewrite Hce, Hiob.
  - eexists; split; [done|]. exists S. split; [done|]. split.
    + intros c p. rewrite HS. unfold iob_port. rewrite elem_of_app, list_elem_of_singleton.
      split; [naive_solver|]. intros [[?| ->] (ce' & Hce' & Hiob' & ?)]; [naive_solver|].
      assert (ce' = ce) as -> by congruence. by rewrite Hiob in Hiob'.
    + intros c. cbn [snd]. rewrite Hpacked, elem_of_app, list_elem_of_singleton.
      split; [naive_solver|]. intros [[?| ->] Hc]; [naive_solver|].
      unfold cell_is_iob in Hc. rewrite Hce, Hiob in Hc. done.
Qed.
End pack_io.

Lemma sever_empty ni : sever ∅ ni = ni.
Proof.
  destruct ni as [nm drv us]. unfold sever; recsimpl.
  rewrite decide_False.
  2:{ unfold in_refs. destruct (ref_cell drv); set_solver. }
  unfold set_net_users; recsimpl. f_equal.
  induction us as [|u us IH]; [done|]. rewrite filter_cons, decide_True.
  - by rewrite IH.
  - unfold in_refs. destruct (ref_cell u); set_solver.
Qed.

Lemma disc_empty c ce : disc ∅ c ce = ce.
Proof.
  destruct ce as [nm ty ps ats pms]. unfold disc, set_cell_ports; recsimpl. f_equal.
  apply map_eq. intros q. rewrite map_lookup_imap.
  destruct (ps !! q); optsimpl; [|done]. by rewrite decide_False by set_solver.
Qed.

Theorem pack_io_spec ctx :
  wf_netlist ctx →
  pack_io ctx =
  Ok {| cells := filter (λ kc, ¬ is_nextpnr_iob kc.2) (cells ctx);
        nets := sever_iob ctx <$> nets ctx;
        settings := settings ctx |}.
Proof.
  intros Hwf. unfold pack_io.
  destruct (for_each_inv pack_io_body (Vocab.pack_io_inv ctx) (sorted (cells ctx)) (ctx, ∅))
    as ([cur packed] & -> & S & (Hnets & Hcells & Hset) & HS & Hpacked).
  { exists ∅. split_and!.
    - split_and!; [| |done]; cbn [fst]; apply map_eq; intros i.
      + rewrite lookup_fmap. destruct (nets ctx !! i); optsimpl; [|done].
        by rewrite sever_empty.
      + rewrite map_lookup_imap. destruct (cells ctx !! i); optsimpl; [|done].
        by rewrite disc_empty.
    - intros c p. unfold iob_port. set_solver.
    - intros c. set_solver. }
  { intros pre k post st1 Hl Hinv. apply pack_io_body_spec; [done| |done].
    apply elem_of_sorted. rewrite Hl. set_solver. }
  cbn [fst snd] in *. cbn [mbind result_bind bind]. f_equal.
  unfold set_cells. f_equal; [| |done].
  - apply map_eq. intros k. rewrite lookup_erase_all, Hcells, map_lookup_imap.
    apply option_eq. intros ce'. rewrite map_lookup_filter_Some. cbn [snd].
    destruct (decide (k ∈ packed)) as [Hin|Hin].
    + apply Hpacked in Hin as [_ Hiob]. unfold cell_is_iob in Hiob.
      split; [done|]. intros [Hk Hno]. rewrite Hk in Hiob. by destruct (is_nextpnr_iob ce').
    + destruct (cells ctx !! k) as [ce|] eqn:Hk; optsimpl; [|naive_solver].
      assert (¬ is_nextpnr_iob ce) as Hno.
      { intros Hiob. apply Hin, Hpacked. split.
        - apply elem_of_sorted. by eexists.
        - unfold cell_is_iob. by rewrite Hk. }
      assert (disc S k ce = ce) as ->.
      { destruct ce as [nm ty ps ats pms]. unfold disc, set_cell_ports; recsimpl. f_equal.
        apply map_eq. intros q. rewrite map_lookup_imap.
        destruct (ps !! q); optsimpl; [|done]. rewrite decide_False; [done|].
        rewrite HS. intros (_ & ce'' & Hce'' & Hiob & _). congruence. }
      naive_solver.
  - rewrite Hnets. apply map_eq. intros m. rewrite !lookup_fmap.
    destruct (nets ctx !! m) as [ni|] eqn:Hm; optsimpl; [|done]. f_equal.
    assert (∀ r, ref_on_port ctx m r → in_refs S r ↔ ref_is_iob ctx r) as Hiff.
    { intros [[c|] p] Hon; unfold in_refs, ref_is_iob, cell_is_iob; recsimpl; [|done].
      rewrite HS. unfold iob_port. unfold ref_on_port in Hon; recsimpl.
      destruct (cells ctx !! c) as [ce|] eqn:Hc; [|done].
      destruct (cell_ports ce !! p) as [pi|] eqn:Hp; [|done]. split.
      - intros (_ & ce' & [= <-] & Hiob & _). done.
      - intros Hiob. split; [apply elem_of_sorted; by eexists|].
        exists ce. split_and!; [done|done|by eexists]. }
    destruct Hwf as (_ & _ & Hwfn). destruct (Hwfn m ni Hm) as [Hdrv Hus].
    unfold sever, sever_iob.
    rewrite (filter_ext_in (λ u, ¬ in_refs S u) (λ u, ¬ ref_is_iob ctx u)).
    2:{ intros u Hu. rewrite Forall_forall in Hus. by rewrite Hiff by auto. }
    destruct (decide (in_refs S (net_driver ni))) as [Hd|Hd];
      rewrite Hiff in Hd by done; destruct (ref_is_iob ctx (net_driver ni)); done.
Qed.

(** *** [pack_constants] *)

Lemma net_kind_Some ctx ni d v :
  net_kind ctx ni = Some (d, v) ↔
  ref_cell (net_driver ni) = Some d ∧
  ∃ dc, cells ctx !! d = Some dc ∧
        ((v = false ∧ cell_type dc = "GND") ∨
         (v = true ∧ cell_type dc = "VCC" ∧ cell_type dc ≠ "GND")).
Proof.
  unfold net_kind. destruct (ref_cell (net_driver ni)) as [d'|]; optsimpl; [|naive_solver].
  destruct (cells ctx !! d') as [dc|] eqn:Hdc; optsimpl; [|naive_solver].
  repeat case_decide; split; try naive_solver.
  all: intros ([= ->] & dc' & ? & ?); assert (dc' = dc) as -> by congruence; naive_solver.
Qed.

Lemma single_pin_unique ctx c ce p1 p2 pi1 pi2 n1 n2 :
  const_cells_single_pin ctx →
  cells ctx !! c = Some ce → cell_type ce = "GND" ∨ cell_type ce = "VCC" →
  cell_ports ce !! p1 = Some pi1 → port_net pi1 = Some n1 →
  cell_ports ce !! p2 = Some pi2 → port_net pi2 = Some n2 →
  n1 = n2.
Proof.
  intros Hpin Hc Hty Hp1 Hn1 Hp2 Hn2.
  assert (p1 = p2) as ->.
  { apply (Hpin c ce Hc Hty p1 pi1 Hp1 p2 pi2 Hp2); rewrite ?Hn1, ?Hn2; by eexists. }
  congruence.
Qed.


Lemma redirect_user_cell u uc ce cur cn :
  ref_cell u = Some uc → cells cur !! uc = Some ce →
  redirect_user u (cur, cn) =
  Ok (set_cells (<[uc := set_port_net_default (ref_port u) (Some (net_name cn)) ce]>
                   (cells cur)) cur,
      set_net_users (net_users cn ++ [u]) cn).
Proof. intros Hu Hc. unfold redirect_user. by rewrite Hu, Hc. Qed.

Lemma redirect_user_null u cur cn :
  ref_cell u = None → redirect_user u (cur, cn) = Ok (cur, cn).
Proof. intros Hu. unfold redirect_user. by rewrite Hu. Qed.

Lemma redirect_users_spec us cur cn :
  (∀ u uc, u ∈ us → ref_cell u = Some uc → is_Some (cells cur !! uc)) →
  ∃ cur',
    for_each redirect_user us (cur, cn) =
      Ok (cur', set_net_users (net_users cn ++ filter (λ u, ref_cell u ≠ None) us) cn) ∧
    nets cur' = nets cur ∧ settings cur' = settings cur ∧
    (∀ c, option_Forall2 same_but_ports (cells cur !! c) (cells cur' !! c)).
Proof.
  revert cur cn. induction us as [|u us IH]; intros cur cn Hpres.
  - exists cur. cbn [for_each]. rewrite filter_nil, app_nil_r.
    split_and!; try done.
    + by destruct cn.
    + intros c. destruct (cells cur !! c); by constructor.
  - cbn [for_each].
    destruct (ref_cell u) as [uc|] eqn:Hu.
    + destruct (Hpres u uc) as [ce Hce]; [by left|done|].
      rewrite (redirect_user_cell u uc ce) by done.
      cbn [mbind result_bind bind].
      edestruct (IH (set_cells (<[uc := set_port_net_default (ref_port u)
                                          (Some (net_name cn)) ce]> (cells cur)) cur)
                    (set_net_users (net_users cn ++ [u]) cn))
        as (cur' & Hrun & Hn & Hs & Hc).
      { intros u' uc' Hin Hu'. recsimpl.
        destruct (decide (uc' = uc)) as [->|Hne].
        - rewrite lookup_insert_eq. by eexists.
        - rewrite lookup_insert_ne by done. apply (Hpres u'); [by right|done]. }
      exists cur'. rewrite Hrun. recsimpl. split_and!; [|done|done|].
      * do 2 f_equal. rewrite filter_cons, decide_True by congruence.
        unfold set_net_users; recsimpl. by rewrite <-app_assoc.
      * intros c. specialize (Hc c). recsimpl.
        destruct (decide (c = uc)) as [->|Hne].
        -- rewrite lookup_insert_eq in Hc. rewrite Hce.
           inversion Hc as [? ce' Hsame|]; subst. constructor.
           eapply same_but_ports_trans; [|done]. done.
        -- by rewrite lookup_insert_ne in Hc.
    + rewrite redirect_user_null by done. cbn [mbind result_bind bind].
      destruct (IH cur cn) as (cur' & Hrun & Hn & Hs & Hc).
      { intros u' uc' Hin Hu'. apply (Hpres u'); [by right|done]. }
      exists cur'. rewrite Hrun. split_and!; try done.
      rewrite filter_cons, decide_False; [done|]. rewrite Hu. naive_solver.
Qed.

Lemma set_net_constant_spec cur n ni cn v :
  nets cur !! n = Some ni →
  (∀ u uc, u ∈ net_users ni → ref_cell u = Some uc → is_Some (cells cur !! uc)) →
  ∃ cur',
    set_net_constant cur n cn v =
      Ok (cur', set_net_users (net_users cn ++ live_users ni) cn) ∧
    nets cur' = <[n := emptied ni]> (nets cur) ∧ settings cur' = settings cur ∧
    (∀ c, option_Forall2 same_but_ports (cells cur !! c) (cells cur' !! c)).
Proof.
  intros Hn Hpres. unfold set_net_constant. rewrite Hn.
  destruct (redirect_users_spec (net_users ni)
              (set_nets (<[n := clear_driver_cell ni]> (nets cur)) cur) cn)
    as (cur2 & Hrun & Hnets & Hset & Hcells); [done|].
  rewrite Hrun. cbn [mbind result_bind bind].
  eexists. split; [done|]. recsimpl. split_and!; [|done|done].
  rewrite Hnets. by rewrite alter_insert_eq.
Qed.

Lemma set_port_net_twice a b pi : set_port_net a (set_port_net b pi) = set_port_net a pi.
Proof. by destruct pi. Qed.

(** the cells once the users of a net have been handed over: exactly the
    ports among the users have changed *)
Lemma redirect_users_cells us : ∀ cur cn cur' cn',
  for_each redirect_user us (cur, cn) = Ok (cur', cn') →
  ∀ c,
    match cells cur !! c with
    | None => cells cur' !! c = None
    | Some ce =>
        ∃ ce', cells cur' !! c = Some ce' ∧
          ∀ p, cell_ports ce' !! p =
               if decide ({| ref_cell := Some c; ref_port := p |} ∈ us)
               then Some (set_port_net (Some (net_name cn))
                            (default default_port (cell_ports ce !! p)))
               else cell_ports ce !! p
    end.
Proof.
  induction us as [|u us IH]; intros cur cn cur' cn'; cbn [for_each].
  - intros [= <- <-] c. destruct (cells cur !! c) as [ce|]; [|done].
    exists ce. split; [done|]. intros p. by rewrite decide_False by (by intros ?%elem_of_nil).
  - intros ([cur1 cn1] & Hstep & Hrest)%bind_Ok c.
    specialize (IH _ _ _ _ Hrest c).
    destruct u as [[uc|] q].
    + unfold redirect_user in Hstep. cbn [ref_cell ref_port] in Hstep.
      destruct (cells cur !! uc) as [c0|] eqn:Huc; [|done].
      injection Hstep as <- <-. recsimpl.
      destruct (decide (c = uc)) as [->|Hne].
      * rewrite lookup_insert_eq in IH. rewrite Huc.
        destruct IH as (ce' & Hce' & Hports). exists ce'. split; [done|].
        intros p. rewrite Hports. unfold set_port_net_default. recsimpl.
        destruct (decide (p = q)) as [->|Hp].
        -- rewrite lookup_insert_eq. cbn [default].
           rewrite (decide_True (P := _ ∈ _ :: us)) by (by left).
           destruct (decide (_ ∈ us)); [|done]. unfold id.
           by rewrite set_port_net_twice.
        -- rewrite lookup_insert_ne by done. apply decide_ext.
           rewrite elem_of_cons. split; [by right|].
           intros [[= ->]|?]; done.
      * rewrite lookup_insert_ne in IH by done.
        destruct (cells cur !! c) as [ce|]; [|done].
        destruct IH as (ce' & Hce' & Hports). exists ce'. split; [done|].
        intros p. rewrite Hports. apply decide_ext.
        rewrite elem_of_cons. split; [by right|].
        intros [[= -> _]|?]; done.
    + unfold redirect_user in Hstep. cbn [ref_cell ref_port] in Hstep.
      injection Hstep as <- <-.
      destruct (cells cur !! c) as [ce|]; [|done].
      destruct IH as (ce' & Hce' & Hports). exists ce'. split; [done|].
      intros p. rewrite Hports. apply decide_ext.
      rewrite elem_of_cons. split; [by right|].
      intros [[=]|?]; done.
Qed.

Lemma set_net_constant_cells cur n cn v cur' cn' :
  set_net_constant cur n cn v = Ok (cur', cn') →
  ∃ ni, nets cur !! n = Some ni ∧
  ∀ c,
    match cells cur !! c with
    | None => cells cur' !! c = None
    | Some ce =>
        ∃ ce', cells cur' !! c = Some ce' ∧
          ∀ p, cell_ports ce' !! p =
               if decide ({| ref_cell := Some c; ref_port := p |} ∈ net_users ni)
               then Some (set_port_net (Some (net_name cn))
                            (default default_port (cell_ports ce !! p)))
               else cell_ports ce !! p
    end.
Proof.
  unfold set_net_constant. destruct (nets cur !! n) as [ni|]; [|done].
  intros ([cur2 cn2] & Hloop & [= <- <-])%bind_Ok. exists ni. split; [done|].
  intros c. pose proof (redirect_users_cells _ _ _ _ _ Hloop c) as Hc. recsimpl.
  exact Hc.
Qed.

Section pack_constants.
Context (ctx0 : Context) (Hwf : wf_netlist ctx0) (Hpin : const_cells_single_pin ctx0).
Context (K : CellInfo).
Local Abbreviation erased := (erased ctx0).
Local Abbreviation const_net := (const_net ctx0).
Local Abbreviation const_inv := (const_inv ctx0 K).

Lemma not_erased pre n ni c q :
  n ∉ pre → nets ctx0 !! n = Some ni → port_on_net c q ni → ¬ erased pre c.
Proof.
  intros Hn Hni Hon (n' & ni' & v & Hin & Hni' & Hk).
  apply net_kind_Some in Hk as (Hdrv & dc & Hdc & Hty).
  destruct (wf_net_port ctx0 Hwf n ni c q Hni Hon) as (ce & pi & Hce & Hpi & Hnet).
  destruct (wf_net_port ctx0 Hwf n' ni' c (ref_port (net_driver ni')) Hni')
    as (ce' & pi' & Hce' & Hpi' & Hnet').
  { left. destruct (net_driver ni'); simpl in *. by subst. }
  assert (ce' = ce) as -> by congruence. assert (dc = ce) as -> by congruence.
  assert (n = n') as ->; [|done].
  apply (single_pin_unique ctx0 c ce q (ref_port (net_driver ni')) pi pi' n n');
    try done. naive_solver.
Qed.

Lemma constant_users_snoc v pre n :
  constant_users ctx0 v (pre ++ [n]) =
  constant_users ctx0 v pre ++
  match nets ctx0 !! n with
  | Some ni => if decide (kind_is ctx0 v ni) then live_users ni else []
  | None => []
  end.
Proof. unfold constant_users. by rewrite bind_app, bind_singleton. Qed.

Lemma erased_snoc pre n c :
  erased (pre ++ [n]) c ↔
  erased pre c ∨ ∃ ni v, nets ctx0 !! n = Some ni ∧ net_kind ctx0 ni = Some (c, v).
Proof.
  unfold erased. setoid_rewrite elem_of_app. setoid_rewrite list_elem_of_singleton.
  naive_solver.
Qed.

(** a net that is not the net of a constant is left alone *)
Lemma const_inv_skip pre n ni st :
  nets ctx0 !! n = Some ni → net_kind ctx0 ni = None →
  const_inv pre st → const_inv (pre ++ [n]) st.
Proof.
  intros Hni Hk (Hnets & Her & Hcells & Hset & Hg & Hv & Hdead).
  assert (∀ c, erased (pre ++ [n]) c ↔ erased pre c) as Her'.
  { intros c. rewrite erased_snoc. split; [|naive_solver].
    intros [?|(ni' & v & ? & ?)]; [done|]. congruence. }
  split_and!; [| | |done| | |].
  - intros m. rewrite Hnets. destruct (nets ctx0 !! m) as [ni'|] eqn:Hm; optsimpl; [|done].
    f_equal. apply decide_ext. rewrite elem_of_app, list_elem_of_singleton.
    split; [naive_solver|]. intros [[?| ->] Hs]; [done|].
    assert (ni' = ni) as -> by congruence. rewrite Hk in Hs. by destruct Hs.
  - intros c ?%Her'. auto.
  - intros c Hc. apply Hcells. by rewrite <-Her'.
  - rewrite Hg, constant_users_snoc, Hni.
    rewrite decide_False by (unfold kind_is; by rewrite Hk). by rewrite app_nil_r.
  - rewrite Hv, constant_users_snoc, Hni.
    rewrite decide_False by (unfold kind_is; by rewrite Hk). by rewrite app_nil_r.
  - intros m. rewrite Hdead, elem_of_app, list_elem_of_singleton. unfold const_net.
    split; [naive_solver|]. intros [[?| ->] (ni' & Hm & Hs)]; [naive_solver|].
    assert (ni' = ni) as -> by congruence. rewrite Hk in Hs. by destruct Hs.
Qed.

Lemma pack_constants_body_spec pre n st :
  is_Some (nets ctx0 !! n) → n ∉ pre → const_inv pre st →
  ∃ st', pack_constants_body n st = Ok st' ∧ const_inv (pre ++ [n]) st'.
Proof.
  intros [ni Hni] Hfresh Hinv.
  pose proof Hinv as (Hnets & Her & Hcells & Hset & Hg & Hv & Hdead).
  unfold pack_constants_body. rewrite Hnets, Hni. optsimpl.
  rewrite decide_False by naive_solver.
  destruct (ref_cell (net_driver ni)) as [d|] eqn:Hd.
  2:{ eexists; split; [done|]. eapply const_inv_skip; [done| |done].
      unfold net_kind. by rewrite Hd. }
  assert (port_on_net d (ref_port (net_driver ni)) ni) as Hon.
  { left. destruct (net_driver ni); simpl in *. by subst. }
  destruct (wf_net_port ctx0 Hwf n ni d _ Hni Hon) as (dc & pi & Hdc & Hpi & Hpn).
  pose proof (Hcells d (not_erased pre n ni d _ Hfresh Hni Hon)) as Hd2.
  rewrite Hdc in Hd2. inversion Hd2 as [? dc' Hsame Heq1 Heq2|]; subst.
  destruct Hsame as (Hname & Htype & _).
  rewrite <-Htype, <-Hname, (wf_cell_name ctx0 Hwf d dc Hdc).
  (* the users of the net are still there *)
  assert (∀ u uc, u ∈ net_users ni → ref_cell u = Some uc →
                  is_Some (cells (c_ctx st) !! uc)) as Hpres.
  { intros u uc Hu Huc.
    assert (port_on_net uc (ref_port u) ni) as Hon'.
    { right. destruct u; simpl in *. by subst. }
    destruct (wf_net_port ctx0 Hwf n ni uc _ Hni Hon') as (ce & ? & Hce & _).
    pose proof (Hcells uc (not_erased pre n ni uc _ Hfresh Hni Hon')) as Hc.
    rewrite Hce in Hc. inversion Hc. by eexists. }
  (* what the invariant looks like once the net has been merged *)
  assert (∀ v cur' (cn' : NetInfo),
    net_kind ctx0 ni = Some (d, v) →
    nets cur' = <[n := emptied ni]> (nets (c_ctx st)) →
    settings cur' = settings (c_ctx st) →
    (∀ c, option_Forall2 same_but_ports (cells (c_ctx st) !! c) (cells cur' !! c)) →
    const_inv (pre ++ [n])
      {| c_ctx := set_cells (delete d (cells cur')) cur';
         gnd_net := if v then gnd_net st
                    else set_net_users (net_users (gnd_net st) ++ live_users ni) (gnd_net st);
         vcc_net := if v then set_net_users (net_users (vcc_net st) ++ live_users ni) (vcc_net st)
                    else vcc_net st;
         dead_nets := dead_nets st ++ [n] |}) as Hmerged.
  { intros v cur' cn' Hk Hn' Hs' Hc'.
    split_and!; cbn [c_ctx gnd_net vcc_net dead_nets]; recsimpl.
    - intros m. rewrite Hn'. destruct (decide (m = n)) as [->|Hne].
      + rewrite lookup_insert_eq, Hni. optsimpl. rewrite decide_True; [done|].
        split; [set_solver|]. rewrite Hk. by eexists.
      + rewrite lookup_insert_ne, Hnets by done.
        destruct (nets ctx0 !! m); optsimpl; [|done]. f_equal.
        apply decide_ext. set_solver.
    - intros c [Hc|(ni' & v' & Hni' & Hk')]%erased_snoc.
      + destruct (decide (c = d)) as [->|Hne]; [apply lookup_delete_eq|].
        rewrite lookup_delete_ne by done. specialize (Hc' c).
        rewrite (Her c Hc) in Hc'. by inversion Hc'.
      + assert (c = d) as -> by congruence. apply lookup_delete_eq.
    - intros c Hc. rewrite erased_snoc in Hc.
      assert (c ≠ d) as Hne by (intros ->; naive_solver).
      rewrite lookup_delete_ne by done.
      assert (¬ erased pre c) as Hc0 by naive_solver.
      specialize (Hcells c Hc0). specialize (Hc' c).
      destruct Hcells; inversion Hc'; subst; constructor.
      eapply same_but_ports_trans; eauto.
    - congruence.
    - rewrite constant_users_snoc, Hni.
      destruct v.
      + rewrite decide_False by (unfold kind_is; by rewrite Hk). by rewrite app_nil_r.
      + rewrite decide_True by (unfold kind_is; by rewrite Hk). rewrite Hg. done.
    - rewrite constant_users_snoc, Hni.
      destruct v.
      + rewrite decide_True by (unfold kind_is; by rewrite Hk). rewrite Hv. done.
      + rewrite decide_False by (unfold kind_is; by rewrite Hk). by rewrite app_nil_r.
    - intros m. rewrite !elem_of_app, !list_elem_of_singleton, Hdead.
      split; [|naive_solver]. intros [?| ->]; [naive_solver|].
      split; [by right|]. exists ni. rewrite Hk. split; [done|by eexists]. }
  destruct (decide (cell_type dc = "GND")) as [Hgnd|Hgnd].
  - rewrite bool_decide_eq_true_2 by done.
    destruct (set_net_constant_spec (c_ctx st) n ni (gnd_net st) false)
      as (cur' & -> & Hn' & Hs' & Hc'); [by rewrite Hnets, Hni; optsimpl;
        rewrite decide_False by naive_solver|done|].
    cbn [mbind result_bind bind]. eexists; split; [done|].
    apply (Hmerged false cur' (gnd_net st)); try done.
    apply net_kind_Some. split; [done|]. exists dc. naive_solver.
  - rewrite bool_decide_eq_false_2 by done.
    destruct (decide (cell_type dc = "VCC")) as [Hvcc|Hvcc].
    + rewrite bool_decide_eq_true_2 by done.
      destruct (set_net_constant_spec (c_ctx st) n ni (vcc_net st) true)
        as (cur' & -> & Hn' & Hs' & Hc'); [by rewrite Hnets, Hni; optsimpl;
          rewrite decide_False by naive_solver|done|].
      cbn [mbind result_bind bind]. eexists; split; [done|].
      apply (Hmerged true cur' (vcc_net st)); try done.
      apply net_kind_Some. split; [done|]. exists dc. naive_solver.
    + rewrite bool_decide_eq_false_2 by done.
      eexists; split; [done|]. eapply const_inv_skip; [done| |done].
      unfold net_kind. rewrite Hd. optsimpl. rewrite Hdc. optsimpl.
      by rewrite !decide_False by done.
Qed.

(** **** The ports of the users *)

Lemma moved_port_snoc pre n c p v :
  moved_port ctx0 (pre ++ [n]) c p v ↔
  moved_port ctx0 pre c p v ∨
  ∃ ni, nets ctx0 !! n = Some ni ∧ kind_is ctx0 v ni ∧
        {| ref_cell := Some c; ref_port := p |} ∈ net_users ni.
Proof.
  unfold moved_port. setoid_rewrite elem_of_app. setoid_rewrite list_elem_of_singleton.
  split.
  - intros (m & mi & [Hin| ->] & Hm & Hk & Hu); [left|right]; eauto 6.
  - intros [(m & mi & Hin & Hm & Hk & Hu)|(ni & Hn & Hk & Hu)]; eauto 8.
Qed.

(** a port among the users of a net is connected to that net *)
Lemma user_port_net n ni c p :
  nets ctx0 !! n = Some ni → {| ref_cell := Some c; ref_port := p |} ∈ net_users ni →
  ∃ ce pi, cells ctx0 !! c = Some ce ∧ cell_ports ce !! p = Some pi ∧
           port_net pi = Some n.
Proof. intros Hn Hu. apply (wf_net_port ctx0 Hwf n ni c p Hn). by right. Qed.

Lemma moved_port_visited pre n ni c p v :
  nets ctx0 !! n = Some ni → {| ref_cell := Some c; ref_port := p |} ∈ net_users ni →
  moved_port ctx0 pre c p v → n ∈ pre.
Proof.
  intros Hn Hu (m & mi & Hin & Hm & _ & Hu').
  destruct (user_port_net n ni c p Hn Hu) as (ce & pi & Hce & Hpi & Hnet).
  destruct (user_port_net m mi c p Hm Hu') as (ce' & pi' & Hce' & Hpi' & Hnet').
  assert (n = m) as -> by congruence. done.
Qed.

Lemma ports_inv_skip pre n ni st :
  nets ctx0 !! n = Some ni → net_kind ctx0 ni = None →
  ports_inv ctx0 pre st → ports_inv ctx0 (pre ++ [n]) st.
Proof.
  intros Hni Hk Hports c ce0 ce Hc0 Hc.
  destruct (Hports c ce0 ce Hc0 Hc) as [Hmv Hsame].
  assert (∀ p v, moved_port ctx0 (pre ++ [n]) c p v ↔ moved_port ctx0 pre c p v) as Hiff.
  { intros p v. rewrite moved_port_snoc. split; [|by left].
    intros [?|(ni' & Hn' & Hkind & _)]; [done|].
    assert (ni' = ni) as -> by congruence. unfold kind_is in Hkind. by rewrite Hk in Hkind. }
  split.
  - intros p v ?%Hiff. by apply Hmv.
  - intros p Hno. apply Hsame. intros v ?%Hiff. by apply (Hno v).
Qed.

Lemma ports_inv_merged pre n ni d v st cn cur' cn' st' :
  nets ctx0 !! n = Some ni → n ∉ pre →
  nets (c_ctx st) !! n = Some ni →
  net_kind ctx0 ni = Some (d, v) → net_name cn = const_net_name v →
  ports_inv ctx0 pre st →
  set_net_constant (c_ctx st) n cn v = Ok (cur', cn') →
  c_ctx st' = set_cells (delete d (cells cur')) cur' →
  ports_inv ctx0 (pre ++ [n]) st'.
Proof.
  intros Hni Hfresh Hcur Hk Hname Hports Hrun Hst' c ce0 ce Hc0 Hc.
  rewrite Hst' in Hc. recsimpl.
  destruct (decide (c = d)) as [->|Hne]; [by rewrite lookup_delete_eq in Hc|].
  rewrite lookup_delete_ne in Hc by done.
  destruct (set_net_constant_cells _ _ _ _ _ _ Hrun) as (ni' & Hni' & Hcells).
  assert (ni' = ni) as -> by congruence.
  specialize (Hcells c). destruct (cells (c_ctx st) !! c) as [ce1|] eqn:Hc1;
    [|by rewrite Hcells in Hc].
  destruct Hcells as (ce' & Hce' & Hform). assert (ce' = ce) as -> by congruence.
  destruct (Hports c ce0 ce1 Hc0 Hc1) as [Hmv Hsame].
  assert (∀ p, {| ref_cell := Some c; ref_port := p |} ∈ net_users ni →
               ∀ v', ¬ moved_port ctx0 pre c p v') as Hnew.
  { intros p Hu v' Hm. apply Hfresh. by eapply moved_port_visited. }
  split.
  - intros p v' [Hm|(ni' & Hn' & Hkind & Hu)]%moved_port_snoc.
    + destruct (Hmv p v' Hm) as (pi0 & Hpi0 & Hp1). exists pi0. split; [done|].
      rewrite Hform, decide_False; [done|]. intros Hu. by apply (Hnew p Hu v').
    + assert (ni' = ni) as -> by congruence.
      assert (v' = v) as ->.
      { unfold kind_is in Hkind. rewrite Hk in Hkind. by injection Hkind. }
      destruct (user_port_net n ni c p Hni Hu) as (ce0' & pi0 & Hce0' & Hpi0 & _).
      assert (ce0' = ce0) as -> by congruence.
      exists pi0. split; [done|]. rewrite Hform, decide_True by done.
      rewrite (Hsame p (Hnew p Hu)), Hpi0, Hname. done.
  - intros p Hno. rewrite Hform, decide_False.
    + apply Hsame. intros v' Hm. apply (Hno v'), moved_port_snoc. by left.
    + intros Hu. apply (Hno v), moved_port_snoc. right. exists ni.
      split_and!; [done| |done]. unfold kind_is. by rewrite Hk.
Qed.

Lemma pack_constants_body_ports pre n st st' :
  is_Some (nets ctx0 !! n) → n ∉ pre → const_inv pre st → ports_inv ctx0 pre st →
  pack_constants_body n st = Ok st' → ports_inv ctx0 (pre ++ [n]) st'.
Proof.
  intros [ni Hni] Hfresh Hinv Hports.
  pose proof Hinv as (Hnets & Her & Hcells & Hset & Hg & Hv & Hdead).
  assert (nets (c_ctx st) !! n = Some ni) as Hcur.
  { rewrite Hnets, Hni. optsimpl. by rewrite decide_False by naive_solver. }
  unfold pack_constants_body. rewrite Hcur.
  destruct (ref_cell (net_driver ni)) as [d|] eqn:Hd.
  2:{ intros [= <-]. eapply ports_inv_skip; [done| |done].
      unfold net_kind. by rewrite Hd. }
  assert (port_on_net d (ref_port (net_driver ni)) ni) as Hon.
  { left. destruct (net_driver ni); simpl in *. by subst. }
  destruct (wf_net_port ctx0 Hwf n ni d _ Hni Hon) as (dc & pi & Hdc & Hpi & Hpn).
  pose proof (Hcells d (not_erased pre n ni d _ Hfresh Hni Hon)) as Hd2.
  rewrite Hdc in Hd2. inversion Hd2 as [? dc' Hsame Heq1 Heq2|]; subst.
  destruct Hsame as (Hname & Htype & _).
  rewrite <-Htype, <-Hname, (wf_cell_name ctx0 Hwf d dc Hdc).
  destruct (decide (cell_type dc = "GND")) as [Hgnd|Hgnd].
  - rewrite bool_decide_eq_true_2 by done.
    intros ([cur' cn'] & Hrun & [= <-])%bind_Ok.
    eapply (ports_inv_merged pre n ni d false); try done.
    + apply net_kind_Some. split; [done|]. exists dc. naive_solver.
    + by rewrite Hg.
  - rewrite bool_decide_eq_false_2 by done.
    destruct (decide (cell_type dc = "VCC")) as [Hvcc|Hvcc].
    + rewrite bool_decide_eq_true_2 by done.
      intros ([cur' cn'] & Hrun & [= <-])%bind_Ok.
      eapply (ports_inv_merged pre n ni d true); try done.
      * apply net_kind_Some. split; [done|]. exists dc. naive_solver.
      * by rewrite Hv.
    + rewrite bool_decide_eq_false_2 by done. intros [= <-].
      eapply ports_inv_skip; [done| |done].
      unfold net_kind. rewrite Hd. optsimpl. rewrite Hdc. optsimpl.
      by rewrite !decide_False by done.
Qed.

(** the loop over any walk that visits nets of the netlist, each once *)
Lemma pack_constants_loop_on l :
  NoDup l → (∀ n, n ∈ l → is_Some (nets ctx0 !! n)) →
  ∃ st, for_each pack_constants_body l
          {| c_ctx := ctx0; gnd_net := new_gnd_net K; vcc_net := new_vcc_net K;
             dead_nets := [] |} = Ok st ∧
        const_inv l st ∧ ports_inv ctx0 l st.
Proof.
  intros Hnd Hall.
  apply (for_each_inv pack_constants_body
           (λ pre st, const_inv pre st ∧ ports_inv ctx0 pre st)).
  - split.
    + split_and!; cbn [c_ctx gnd_net vcc_net dead_nets]; try done.
      * intros n. destruct (nets ctx0 !! n); optsimpl; [|done].
        by rewrite decide_False by set_solver.
      * intros c (? & ? & ? & ?%elem_of_nil & _). done.
      * intros c _. destruct (cells ctx0 !! c); by constructor.
      * intros n. set_solver.
    + intros c ce0 ce Hc0 Hc. cbn [c_ctx] in Hc. assert (ce = ce0) as -> by congruence.
      split; [|done]. intros p v (? & ? & ?%elem_of_nil & _). done.
  - intros pre n post st1 Hl [Hinv Hports].
    assert (is_Some (nets ctx0 !! n)) as Hn by (apply Hall; rewrite Hl; set_solver).
    assert (n ∉ pre) as Hfresh.
    { rewrite Hl in Hnd. apply NoDup_app in Hnd as (_ & Hnd & _).
      intros Hin. apply (Hnd n Hin). by left. }
    destruct (pack_constants_body_spec pre n st1 Hn Hfresh Hinv) as (st2 & Hrun & Hinv2).
    exists st2. split; [done|]. split; [done|].
    by eapply pack_constants_body_ports.
Qed.

Lemma pack_constants_loop :
  ∃ st, for_each pack_constants_body (sorted (nets ctx0))
          {| c_ctx := ctx0; gnd_net := new_gnd_net K; vcc_net := new_vcc_net K;
             dead_nets := [] |} = Ok st ∧
        const_inv (sorted (nets ctx0)) st.
Proof.
  apply for_each_inv.
  - split_and!; cbn [c_ctx gnd_net vcc_net dead_nets]; try done.
    + intros n. destruct (nets ctx0 !! n); optsimpl; [|done].
      by rewrite decide_False by set_solver.
    + intros c (? & ? & ? & ?%elem_of_nil & _). done.
    + intros c _. destruct (cells ctx0 !! c); by constructor.
    + intros n. set_solver.
  - intros pre n post st1 Hl Hinv. apply pack_constants_body_spec; [| |done].
    + apply elem_of_sorted. rewrite Hl. set_solver.
    + pose proof (NoDup_sorted (nets ctx0)) as Hnd. rewrite Hl in Hnd.
      apply NoDup_app in Hnd as (_ & Hnd & _). intros Hin. apply (Hnd n Hin). by left.
Qed.
End pack_constants.

Lemma new_const_cell_eq : new_const_cell = Some the_const_cell.
Proof. by vm_compute. Qed.

Lemma the_const_cell_name : cell_name the_const_cell = "$PACKER_CONST".
Proof. by vm_compute. Qed.

Lemma pack_constants_run ctx :
  wf_netlist ctx → const_cells_single_pin ctx →
  ∃ st, const_inv ctx the_const_cell (sorted (nets ctx)) st ∧
    pack_constants ctx =
    Ok (set_nets
          (foldl (λ m dn, delete dn m)
             (<["$PACKER_VCC_NET" := vcc_net st]>
                (<["$PACKER_GND_NET" := gnd_net st]> (nets (c_ctx st))))
             (dead_nets st))
          (set_cells (<["$PACKER_CONST" := the_const_cell]> (cells (c_ctx st)))
             (c_ctx st))).
Proof.
  intros Hwf Hpin.
  destruct (pack_constants_loop ctx Hwf Hpin the_const_cell) as (st & Hrun & Hinv).
  exists st. split; [done|]. unfold pack_constants.
  rewrite new_const_cell_eq, Hrun. cbn [mbind result_bind bind].
  destruct Hinv as (_ & _ & _ & _ & -> & -> & _).
  by rewrite the_const_cell_name.
Qed.

Lemma pack_constants_body_quiet n ni st :
  nets (c_ctx st) !! n = Some ni → quiet_net (c_ctx st) ni →
  pack_constants_body n st = Ok st.
Proof.
  intros Hn Hq. unfold pack_constants_body. rewrite Hn. unfold quiet_net in Hq.
  destruct (ref_cell (net_driver ni)) as [d|]; [|done].
  destruct Hq as (dc & -> & Hg & Hv).
  by rewrite !bool_decide_eq_false_2 by done.
Qed.

Lemma pack_constants_quiet ctx :
  (∀ n ni, nets ctx !! n = Some ni → quiet_net ctx ni) →
  pack_constants ctx =
  Ok (set_nets (<["$PACKER_VCC_NET" := new_vcc_net the_const_cell]>
                  (<["$PACKER_GND_NET" := new_gnd_net the_const_cell]> (nets ctx)))
        (set_cells (<["$PACKER_CONST" := the_const_cell]> (cells ctx)) ctx)).
Proof.
  intros Hq. unfold pack_constants. rewrite new_const_cell_eq.
  assert (∀ l st, c_ctx st = ctx → (∀ n, n ∈ l → is_Some (nets ctx !! n)) →
                  for_each pack_constants_body l st = Ok st) as Hloop.
  { induction l as [|n l IH]; intros st Hst Hl; [done|]. cbn [for_each].
    destruct (Hl n) as [ni Hni]; [by left|].
    rewrite (pack_constants_body_quiet n ni) by (rewrite Hst; eauto).
    cbn [mbind result_bind bind]. apply IH; [done|]. intros. apply Hl. by right. }
  rewrite Hloop; [|done|by intros n ?%elem_of_sorted].
  cbn [mbind result_bind bind c_ctx gnd_net vcc_net dead_nets foldl].
  by rewrite the_const_cell_name.
Qed.

(** Running the pass on its own output: the cells, the names of the nets
    and every other net stay, the two constant nets start again without
    users. *)
Lemma pack_constants_again ctx ctx1 :
  wf_netlist ctx → const_cells_single_pin ctx →
  pack_constants ctx = Ok ctx1 →
  pack_constants ctx1 =
  Ok (set_nets (<["$PACKER_VCC_NET" := new_vcc_net the_const_cell]>
                  (<["$PACKER_GND_NET" := new_gnd_net the_const_cell]> (nets ctx1)))
        ctx1).
Proof.
  intros Hwf Hpin Hrun.
  destruct (pack_constants_run ctx Hwf Hpin) as (st & Hinv & Hrun').
  rewrite Hrun in Hrun'. injection Hrun' as ->.
  destruct Hinv as (Hnets & Her & Hcells & Hset & Hg & Hv & Hdead).
  rewrite pack_constants_quiet.
  - recsimpl. by rewrite insert_insert_eq.
  - intros n ni. recsimpl. rewrite lookup_foldl_delete.
    destruct (decide (n ∈ dead_nets st)) as [|Hnd]; [done|].
    assert (∀ c, c ≠ "$PACKER_CONST" →
                 <["$PACKER_CONST" := the_const_cell]> (cells (c_ctx st)) !! c
                 = cells (c_ctx st) !! c) as Hother.
    { intros. by rewrite lookup_insert_ne. }
    destruct (decide (n = "$PACKER_VCC_NET")) as [->|Hnv].
    { rewrite lookup_insert_eq. intros [= <-]. rewrite Hv. unfold quiet_net. recsimpl.
      exists the_const_cell. by rewrite the_const_cell_name, lookup_insert_eq. }
    rewrite lookup_insert_ne by done.
    destruct (decide (n = "$PACKER_GND_NET")) as [->|Hng].
    { rewrite lookup_insert_eq. intros [= <-]. rewrite Hg. unfold quiet_net. recsimpl.
      exists the_const_cell. by rewrite the_const_cell_name, lookup_insert_eq. }
    rewrite lookup_insert_ne, Hnets by done.
    destruct (nets ctx !! n) as [ni0|] eqn:Hn0; optsimpl; [|done].
    assert (net_kind ctx ni0 = None) as Hk.
    { destruct (net_kind ctx ni0) eqn:Hk; [|done]. exfalso. apply Hnd, Hdead.
      split; [apply elem_of_sorted; by eexists|]. exists ni0. by rewrite Hk. }
    rewrite decide_False by (rewrite Hk; intros [_ []]; done).
    intros [= <-]. unfold quiet_net. recsimpl.
    destruct (ref_cell (net_driver ni0)) as [d|] eqn:Hd; [|done].
    assert (port_on_net d (ref_port (net_driver ni0)) ni0) as Hon.
    { left. destruct (net_driver ni0); simpl in *. by subst. }
    destruct (wf_net_port ctx Hwf n ni0 d _ Hn0 Hon) as (dc & pi & Hdc & _).
    assert (cell_type dc ≠ "GND" ∧ cell_type dc ≠ "VCC") as [Hng' Hnv'].
    { unfold net_kind in Hk. rewrite Hd in Hk. optsimpl. rewrite Hdc in Hk. optsimpl.
      by repeat case_decide. }
    destruct (decide (d = "$PACKER_CONST")) as [->|Hdc'].
    { exists the_const_cell. by rewrite lookup_insert_eq. }
    rewrite Hother by done.
    assert (¬ erased ctx (sorted (nets ctx)) d) as Hne.
    { intros (n' & ni' & v & _ & _ & (_ & dc' & Hdc'' & Hty)%net_kind_Some).
      assert (dc' = dc) as -> by congruence. naive_solver. }
    specialize (Hcells d Hne). rewrite Hdc in Hcells.
    inversion Hcells as [? dc2 (_ & Hty & _)|]; subst.
    exists dc2. split; [done|]. by rewrite <-Hty.
Qed.

Lemma elem_of_constant_users ctx v walk u :
  u ∈ constant_users ctx v walk ↔
  ∃ n ni, n ∈ walk ∧ nets ctx !! n = Some ni ∧ kind_is ctx v ni ∧
          u ∈ net_users ni ∧ ref_cell u ≠ None.
Proof.
  unfold constant_users. rewrite list_elem_of_bind. split.
  - intros (n & Hu & Hn). destruct (nets ctx !! n) as [ni|] eqn:Hni; [|by inv Hu].
    case_decide; [|by inv Hu].
    apply list_elem_of_filter in Hu as [? ?]. naive_solver.
  - intros (n & ni & Hn & Hni & Hk & Hu & Hc). exists n. split; [|done].
    rewrite Hni, decide_True by done. by apply list_elem_of_filter.
Qed.

(** the two constant nets are in the result of [pack_constants] *)
Lemma pack_constants_const_nets ctx :
  wf_netlist ctx → const_cells_single_pin ctx → reserved_free ctx →
  ∃ ctx' gnd vcc,
    pack_constants ctx = Ok ctx' ∧
    nets ctx' !! "$PACKER_GND_NET" = Some gnd ∧
    nets ctx' !! "$PACKER_VCC_NET" = Some vcc.
Proof.
  intros Hwf Hpin (HfC & HfG & HfV).
  destruct (pack_constants_run ctx Hwf Hpin) as (st & Hinv & Hrun).
  destruct Hinv as (_ & _ & _ & _ & _ & _ & Hdead).
  assert ("$PACKER_GND_NET" ∉ dead_nets st) as HGd.
  { rewrite Hdead. intros (_ & ni & ? & _). congruence. }
  assert ("$PACKER_VCC_NET" ∉ dead_nets st) as HVd.
  { rewrite Hdead. intros (_ & ni & ? & _). congruence. }
  eexists _, (gnd_net st), (vcc_net st). split; [exact Hrun|]. recsimpl. split.
  - rewrite lookup_foldl_delete, decide_False by done.
    by rewrite lookup_insert_ne, lookup_insert_eq.
  - rewrite lookup_foldl_delete, decide_False by done. by rewrite lookup_insert_eq.
Qed.

(** the loop of [pack_constants] over the walk [order] gives *)
Lemma pack_constants_by_run (order : ∀ V : Type, gmap string V → list IdString) ctx :
  wf_netlist ctx → const_cells_single_pin ctx →
  enumerates (order _ (nets ctx)) (nets ctx) →
  ∃ st, const_inv ctx the_const_cell (order _ (nets ctx)) st ∧
    ports_inv ctx (order _ (nets ctx)) st ∧
    pack_constants_by order ctx =
    Ok (set_nets
          (foldl (λ m dn, delete dn m)
             (<["$PACKER_VCC_NET" := vcc_net st]>
                (<["$PACKER_GND_NET" := gnd_net st]> (nets (c_ctx st))))
             (dead_nets st))
          (set_cells (<["$PACKER_CONST" := the_const_cell]> (cells (c_ctx st)))
             (c_ctx st))).
Proof.
  intros Hwf Hpin [Hnd Hall].
  destruct (pack_constants_loop_on ctx Hwf Hpin the_const_cell (order _ (nets ctx)))
    as (st & Hrun & Hinv & Hports); [done|by intros n ?%Hall|].
  exists st. split; [done|]. split; [done|]. unfold pack_constants_by.
  rewrite new_const_cell_eq, Hrun. cbn [mbind result_bind bind].
  destruct Hinv as (_ & _ & _ & _ & -> & -> & _).
  by rewrite the_const_cell_name.
Qed.


(** *** [BelIterator] and [getBels] *)

Section enumeration.
Import Chipdb.
Local Open Scope Z_scope.
Context (chip : ChipInfoPOD) (Hwf : wf_chip chip).

Local Abbreviation bel_at := (bel_at chip).
Local Abbreviation tile_rest := (tile_rest chip).
Local Abbreviation tiles_from := (tiles_from chip).
Local Abbreviation remaining := (remaining chip).
Local Abbreviation settled := (settled chip).

Lemma rel_index_tiles t :
  0 ≤ t < num_tiles chip → ∃ tl, rel_index (tiles chip) t = Some tl ∧ wf_tile tl.
Proof.
  intros Ht. destruct Hwf as (_ & _ & _ & Hlen & Hall).
  unfold rel_index. destruct (Z.ltb_spec t 0); [lia|].
  destruct (lookup_lt_is_Some_2 (tiles chip) (Z.to_nat t)) as [tl Htl].
  { apply Nat2Z.inj_lt. rewrite Z2Nat.id by lia. lia. }
  exists tl. split; [done|]. rewrite Forall_forall in Hall. apply Hall.
  by eapply list_elem_of_lookup_2.
Qed.

Lemma tiles_from_end t : num_tiles chip ≤ t → tiles_from t = [].
Proof. intros. unfold tiles_from. by rewrite seqZ_nil by lia. Qed.

Lemma tiles_from_step t :
  0 ≤ t < num_tiles chip → tiles_from t = tile_rest t 0 ++ tiles_from (t + 1).
Proof.
  intros. unfold tiles_from. rewrite seqZ_cons by lia. simpl.
  by replace (Z.succ t) with (t + 1) by lia;
     replace (Z.pred (num_tiles chip - t)) with (num_tiles chip - (t + 1)) by lia.
Qed.

Lemma tile_bel_count_out t : num_tiles chip ≤ t → tile_bel_count chip t = 0.
Proof.
  intros. unfold tile_bel_count, rel_index.
  destruct (Z.ltb_spec t 0); [done|].
  rewrite lookup_ge_None_2; [done|].
  destruct Hwf as (_ & _ & _ & Hlen & _). lia.
Qed.

Lemma tile_bel_count_nonneg t : 0 ≤ tile_bel_count chip t.
Proof.
  unfold tile_bel_count.
  destruct (rel_index (tiles chip) t) as [tl|] eqn:Htl; simpl; [|done].
  destruct Hwf as (_ & _ & _ & _ & Hall). rewrite Forall_forall in Hall.
  unfold rel_index in Htl. destruct (t <? 0); [done|].
  apply list_elem_of_lookup_2, Hall in Htl. apply Htl.
Qed.

Lemma remaining_start t :
  0 ≤ t ≤ num_tiles chip →
  remaining {| cursor_index := 0; cursor_tile := t |} = tiles_from t.
Proof.
  intros. unfold remaining; simpl.
  destruct (Z.ltb_spec t (num_tiles chip)).
  - by rewrite (tiles_from_step t) by lia.
  - rewrite !tiles_from_end by lia. unfold tile_rest.
    by rewrite tile_bel_count_out, seqZ_nil by lia.
Qed.

Lemma remaining_full i t :
  tile_bel_count chip t ≤ i →
  remaining {| cursor_index := i; cursor_tile := t |} = tiles_from (t + 1).
Proof.
  intros. unfold remaining, tile_rest; simpl. by rewrite seqZ_nil by lia.
Qed.

Lemma remaining_cons i t :
  0 ≤ i < tile_bel_count chip t →
  remaining {| cursor_index := i; cursor_tile := t |} =
  bel_at t i :: remaining {| cursor_index := i + 1; cursor_tile := t |}.
Proof.
  intros. unfold remaining, tile_rest; simpl. rewrite seqZ_cons by lia. simpl.
  by replace (Z.succ i) with (i + 1) by lia;
     replace (Z.pred (tile_bel_count chip t - i))
       with (tile_bel_count chip t - (i + 1)) by lia.
Qed.

Lemma skip_empty_tiles_spec fuel i t :
  0 ≤ t ≤ num_tiles chip →
  0 ≤ i →
  (t = num_tiles chip → i = 0) →
  (Z.to_nat (num_tiles chip - t) ≤ fuel)%nat →
  ∃ it', skip_empty_tiles fuel chip {| cursor_index := i; cursor_tile := t |} = Some it' ∧
    remaining it' = remaining {| cursor_index := i; cursor_tile := t |} ∧
    settled it'.
Proof.
  revert i t. induction fuel as [|fuel IH]; intros i t; simpl; intros Ht Hi Hend Hfuel.
  - assert (t = num_tiles chip) as -> by lia.
    rewrite Z.ltb_irrefl. eexists; split; [done|]. split; [done|].
    right. by rewrite Hend.
  - destruct (Z.ltb_spec t (num_tiles chip)) as [Hlt|Hge].
    + destruct (rel_index_tiles t) as (tl & Htl & Hwt); [lia|]. rewrite Htl.
      assert (tile_bel_count chip t = num_bels tl) as Hcnt.
      { unfold tile_bel_count. by rewrite Htl. }
      destruct (Z.geb_spec i (num_bels tl)) as [Hfull|Hin].
      * destruct (IH 0 (t + 1)) as (it' & Hrun & Hrem & Hset); [lia..|].
        exists it'. split; [done|]. split; [|done].
        rewrite Hrem, remaining_start, remaining_full by lia. done.
      * eexists; split; [done|]. split; [done|]. left. simpl. lia.
    + assert (t = num_tiles chip) as -> by lia.
      eexists; split; [done|]. split; [done|]. right. by rewrite Hend.
Qed.

Lemma operator_incr_spec i t :
  0 ≤ t < num_tiles chip →
  0 ≤ i + 1 →
  ∃ it', operator_incr chip {| cursor_index := i; cursor_tile := t |} = Some it' ∧
    remaining it' = remaining {| cursor_index := i + 1; cursor_tile := t |} ∧
    settled it'.
Proof.
  intros. unfold operator_incr; simpl.
  apply skip_empty_tiles_spec; lia.
Qed.

Lemma width_pos t : 0 ≤ t < num_tiles chip → 0 < width chip.
Proof. destruct Hwf as (? & ? & Hn & _). intros. nia. Qed.

Lemma operator_deref_spec i t :
  0 ≤ t < num_tiles chip →
  operator_deref chip {| cursor_index := i; cursor_tile := t |} = Some (bel_at t i).
Proof.
  intros Ht. pose proof (width_pos t Ht). unfold operator_deref, bel_at; simpl.
  destruct (Z.eqb_spec (width chip) 0); [lia|].
  by rewrite Z.rem_mod_nonneg, Z.quot_div_nonneg by lia.
Qed.

Lemma for_range_spec fuel it :
  settled it →
  (length (remaining it) < fuel)%nat →
  for_range fuel chip it {| cursor_index := 0; cursor_tile := num_tiles chip |}
  = Some (remaining it).
Proof.
  revert it. induction fuel as [|fuel IH]; intros it Hset Hfuel; [lia|].
  destruct Hset as [[Ht Hi]| ->].
  - destruct it as [i t]; simpl in *.
    unfold operator_ne; simpl.
    destruct (Z.eqb_spec t (num_tiles chip)); [lia|]. rewrite orb_true_r.
    rewrite operator_deref_spec by done. simpl.
    destruct (operator_incr_spec i t) as (it' & -> & Hrem & Hset); [lia..|]. simpl.
    rewrite remaining_cons in Hfuel |- * by done. simpl in Hfuel.
    rewrite IH; [|done|rewrite Hrem; lia]. simpl. by rewrite Hrem.
  - simpl. unfold operator_ne; simpl. rewrite !Z.eqb_refl. simpl.
    assert (0 ≤ num_tiles chip) by (destruct Hwf as (? & ? & -> & _); lia).
    by rewrite remaining_start, tiles_from_end by lia.
Qed.

Lemma getBels_spec :
  ∃ b0, getBels chip =
          Some {| b := b0; e := {| cursor_index := 0; cursor_tile := num_tiles chip |} |} ∧
        remaining b0 = tiles_from 0 ∧ settled b0.
Proof.
  unfold getBels, operator_incr. cbn [cursor_index cursor_tile].
  change (-1 + 1) with 0.
  assert (0 ≤ num_tiles chip) as Hn.
  { destruct Hwf as (? & ? & -> & _). lia. }
  destruct (skip_empty_tiles_spec (Z.to_nat (num_tiles chip - 0)) 0 0)
    as (b0 & -> & Hrem & Hset); [lia..| |done|].
  { intros Hz. done. }
  simpl. exists b0. split.
  - destruct Hwf as (_ & _ & -> & _). done.
  - by rewrite Hrem, remaining_start by lia.
Qed.

Lemma bind_row_major {B} (f : Z → list B) (w : Z) (h : nat) :
  0 ≤ w →
  seqZ 0 (w * Z.of_nat h) ≫= f =
  seqZ 0 (Z.of_nat h) ≫= (λ yy, seqZ 0 w ≫= (λ xx, f (yy * w + xx))).
Proof.
  intros Hw. induction h as [|h IH].
  - by rewrite Z.mul_0_r.
  - rewrite seqZ_S, bind_app, <-IH, bind_singleton.
    replace (w * Z.of_nat (S h)) with (w * Z.of_nat h + w) by lia.
    rewrite seqZ_app, bind_app by lia. f_equal.
    rewrite Z.add_0_l.
    replace (w * Z.of_nat h) with (w * Z.of_nat h + 0) at 1 by lia.
    rewrite <-fmap_add_seqZ. clear IH.
    induction (seqZ 0 w) as [|a l IHl]; csimpl; [done|].
    rewrite IHl. do 2 f_equal. lia.
Qed.

Lemma tiles_from_canonical : tiles_from 0 = canonical_bels chip.
Proof.
  destruct Hwf as (Hw & Hh & Hn & _).
  unfold tiles_from, canonical_bels. rewrite Z.sub_0_r, Hn.
  rewrite <-(Z2Nat.id (height chip)) by done.
  rewrite bind_row_major by done.
  apply Forall_bind_ext, Forall_forall. intros yy _.
  apply Forall_bind_ext, Forall_forall. intros xx [? ?]%elem_of_seqZ.
  unfold tile_rest. rewrite Z.sub_0_r.
  induction (seqZ 0 _) as [|i l IHl]; csimpl; [done|].
  rewrite <-IHl. f_equal. unfold bel_at. do 2 f_equal.
  - rewrite Z.add_comm, Z.mod_add by lia. apply Z.mod_small. lia.
  - rewrite Z.add_comm, Z.div_add by lia. rewrite Z.div_small by lia. lia.
Qed.

Lemma tiles_prefix_length (k : nat) :
  (k ≤ length (tiles chip))%nat →
  Z.of_nat (length (seqZ 0 (Z.of_nat k) ≫= (λ tt, tile_rest tt 0))) =
  foldr (λ t acc, num_bels t + acc) 0 (take k (tiles chip)) ∧
  0 ≤ foldr (λ t acc, num_bels t + acc) 0 (take k (tiles chip)).
Proof.
  induction k as [|k IH]; intros Hk; [done|].
  destruct IH as [IH Hpos]; [lia|].
  destruct (lookup_lt_is_Some_2 (tiles chip) k) as [tl Htl]; [lia|].
  rewrite seqZ_S, bind_app, bind_singleton, length_app, Nat2Z.inj_add, IH.
  erewrite take_S_r by done.
  assert (∀ l a, foldr (λ t acc, num_bels t + acc) a l
                 = foldr (λ t acc, num_bels t + acc) 0 l + a) as Hshift.
  { induction l as [|? ? IHl]; intros; simpl; [done|]. rewrite IHl. lia. }
  rewrite foldr_app. simpl. rewrite (Hshift _ (num_bels tl + 0)).
  unfold tile_rest. rewrite length_fmap, length_seqZ, Z.sub_0_r, Z.add_0_l.
  assert (tile_bel_count chip (Z.of_nat k) = num_bels tl) as ->.
  { unfold tile_bel_count, rel_index.
    destruct (Z.ltb_spec (Z.of_nat k) 0); [lia|]. by rewrite Nat2Z.id, Htl. }
  assert (0 ≤ num_bels tl).
  { destruct Hwf as (_ & _ & _ & _ & Hall). rewrite Forall_forall in Hall.
    apply (Hall tl). by eapply list_elem_of_lookup_2. }
  lia.
Qed.

Lemma tiles_from_length : Z.of_nat (length (tiles_from 0)) = total_bels chip.
Proof.
  destruct (tiles_prefix_length (length (tiles chip))) as [Hlen _]; [done|].
  rewrite firstn_all in Hlen. unfold tiles_from, total_bels.
  destruct Hwf as (_ & _ & _ & <- & _). by rewrite Z.sub_0_r.
Qed.

Lemma elem_of_tiles_from bel :
  bel ∈ tiles_from 0 ↔
  ∃ t i, bel = bel_at t i ∧ 0 ≤ t < num_tiles chip ∧ 0 ≤ i < tile_bel_count chip t.
Proof.
  unfold tiles_from, tile_rest. rewrite list_elem_of_bind. split.
  - intros (t & (i & -> & Hi%elem_of_seqZ)%list_elem_of_fmap & Ht%elem_of_seqZ).
    exists t, i. split; [done|]. lia.
  - intros (t & i & -> & Ht & Hi). exists t. split.
    + apply list_elem_of_fmap. exists i. split; [done|]. apply elem_of_seqZ. lia.
    + apply elem_of_seqZ. lia.
Qed.

Lemma bel_at_tile t i :
  0 ≤ t < num_tiles chip →
  y (location (bel_at t i)) * width chip + x (location (bel_at t i)) = t.
Proof.
  intros Ht. pose proof (width_pos t Ht). simpl.
  pose proof (Z.div_mod t (width chip)). lia.
Qed.

Lemma tiles_from_NoDup : NoDup (tiles_from 0).
Proof.
  unfold tiles_from. apply NoDup_bind; [| |apply NoDup_seqZ].
  - intros t1 t2 bel Ht1%elem_of_seqZ Ht2%elem_of_seqZ.
    unfold tile_rest.
    intros (i1 & -> & _)%list_elem_of_fmap (i2 & Heq & _)%list_elem_of_fmap.
    rewrite <-(bel_at_tile t1 i1), <-(bel_at_tile t2 i2) by lia. by rewrite Heq.
  - intros t _. unfold tile_rest. apply NoDup_fmap_2_strong; [|apply NoDup_seqZ].
    intros i1 i2 _ _ Heq. by injection Heq.
Qed.

Lemma tiles_from_round_trip bel :
  bel ∈ tiles_from 0 →
  ∃ t tile rec,
    rel_index (tiles chip) t = Some tile ∧
    x (location bel) = t mod width chip ∧ y (location bel) = t / width chip ∧
    tileInfo chip bel = Some tile ∧
    rel_index (bel_data tile) (index bel) = Some rec ∧
    bel_record chip bel = Some rec.
Proof.
  intros (t & i & -> & Ht & Hi)%elem_of_tiles_from.
  destruct (rel_index_tiles t Ht) as (tile & Htile & _ & Hlen).
  assert (tile_bel_count chip t = num_bels tile) as Hcnt.
  { unfold tile_bel_count. by rewrite Htile. }
  assert (tileInfo chip (bel_at t i) = Some tile) as Hinfo.
  { unfold tileInfo. by rewrite bel_at_tile. }
  assert (is_Some (rel_index (bel_data tile) i)) as [rec Hrec].
  { unfold rel_index. destruct (Z.ltb_spec i 0); [lia|].
    apply lookup_lt_is_Some_2. lia. }
  exists t, tile, rec. split_and!; try done.
  unfold bel_record. by rewrite Hinfo.
Qed.
End enumeration.

(** *** [pack_lut_lutffs] *)

Lemma Forall2_compose {A B C} (R1 : A → B → Prop) (R2 : B → C → Prop)
    (R3 : A → C → Prop) l1 l2 l3 :
  (∀ x y z, R1 x y → R2 y z → R3 x z) →
  Forall2 R1 l1 l2 → Forall2 R2 l2 l3 → Forall2 R3 l1 l3.
Proof.
  intros Hc H12. revert l3. induction H12; intros l3 H23; inv H23; constructor; eauto.
Qed.

Lemma Forall2_refl_rel {A} (R : A → A → Prop) l : (∀ x, R x x) → Forall2 R l l.
Proof. intros. induction l; constructor; auto. Qed.

Lemma net_moved_refl c ps nm ni : net_moved c ps nm ni ni.
Proof. split; [done|]. apply Forall2_refl_rel. intros. by left. Qed.

Lemma net_moved_mono c ps ps' nm ni ni' :
  ps ⊆ ps' → net_moved c ps nm ni ni' → net_moved c ps' nm ni ni'.
Proof.
  intros Hsub [Hn Hu]. split; [done|]. eapply Forall2_impl; [done|].
  intros u u' [->|(? & ? & ?)]; [by left|right; auto].
Qed.

Lemma net_moved_trans c ps nm ni1 ni2 ni3 :
  c ≠ nm →
  net_moved c ps nm ni1 ni2 → net_moved c ps nm ni2 ni3 → net_moved c ps nm ni1 ni3.
Proof.
  intros Hne [Hn1 Hu1] [Hn2 Hu2]. split; [congruence|].
  eapply Forall2_compose; [|done..].
  intros u1 u2 u3 [->|(H1 & H2 & H3)] [->|(H4 & H5 & H6)].
  - by left.
  - right; auto.
  - right; auto.
  - congruence.
Qed.

Lemma move_port_name oc o r rep : cell_name (move_port oc o r rep) = cell_name rep.
Proof. unfold move_port. by repeat case_match. Qed.

Lemma move_port_ports_Some oc o r rep q :
  is_Some (cell_ports (move_port oc o r rep) !! q) ↔ is_Some (cell_ports rep !! q).
Proof.
  unfold move_port. destruct (cell_ports oc !! o); [|done].
  destruct (cell_ports rep !! r) eqn:Hr; [|done]. recsimpl.
  destruct (decide (q = r)) as [->|Hne].
  - rewrite lookup_insert_eq, Hr. split; by eexists.
  - by rewrite lookup_insert_ne.
Qed.

Lemma replace_port_spec cur c_old oc p_old rep p_rep :
  cells cur !! c_old = Some oc →
  is_Some (cell_ports rep !! p_rep) →
  (∀ old n, cell_ports oc !! p_old = Some old → port_net old = Some n →
            is_Some (nets cur !! n)) →
  ∃ cur',
    replace_port cur c_old p_old rep p_rep = Ok (cur', move_port oc p_old p_rep rep) ∧
    settings cur' = settings cur ∧
    (∀ c, c ≠ c_old → cells cur' !! c = cells cur !! c) ∧
    (∃ oc', cells cur' !! c_old = Some oc' ∧ same_but_ports oc oc' ∧
            ∀ q, q ≠ p_old → cell_ports oc' !! q = cell_ports oc !! q) ∧
    (∀ n, option_Forall2 (net_moved c_old [p_old] (cell_name rep))
            (nets cur !! n) (nets cur' !! n)).
Proof.
  intros Hoc [rp Hrp] Hnets. unfold replace_port, move_port. rewrite Hoc.
  assert (∀ n, option_Forall2 (net_moved c_old [p_old] (cell_name rep))
                 (nets cur !! n) (nets cur !! n)) as Hrefl.
  { intros n. destruct (nets cur !! n); constructor. apply net_moved_refl. }
  destruct (cell_ports oc !! p_old) as [old|] eqn:Hold.
  2:{ exists cur. split_and!; try done. exists oc. done. }
  rewrite Hrp.
  assert (∃ oc', <[c_old := set_cell_ports
                    (<[p_old := set_port_net None old]> (cell_ports oc)) oc]> (cells cur)
                 !! c_old = Some oc' ∧
                 same_but_ports oc oc' ∧
                 ∀ q, q ≠ p_old → cell_ports oc' !! q = cell_ports oc !! q) as Hoc'.
  { eexists. rewrite lookup_insert_eq. split; [done|]. split; [done|].
    intros q Hq. recsimpl. by rewrite lookup_insert_ne. }
  destruct (port_net old) as [n|] eqn:Hn.
  2:{ eexists. split; [done|]. recsimpl. split_and!; try done.
      intros c Hc. by rewrite lookup_insert_ne. }
  recsimpl. destruct (Hnets old n) as [ni Hni]; [done..|]. rewrite Hni.
  eexists. split; [done|]. recsimpl. split_and!; try done.
  { intros c Hc. by rewrite lookup_insert_ne. }
  intros m. destruct (decide (m = n)) as [->|Hne].
  - rewrite lookup_insert_eq, Hni. constructor. split.
    + by destruct (port_type rp).
    + destruct (port_type rp); recsimpl;
        try (apply Forall2_refl_rel; intros; by left).
      all: apply Forall2_fmap_r, Forall2_refl_rel; intros u; simpl;
        unfold replace_ref; case_decide as Hu; [|by left];
        right; destruct Hu as [? ->]; split_and!; [done|by left|done].
  - rewrite lookup_insert_ne by done. apply Hrefl.
Qed.

Lemma move_ports_name oc moves rep : cell_name (move_ports oc moves rep) = cell_name rep.
Proof.
  revert rep. induction moves as [|[o r] moves IH]; intros rep; [done|].
  cbn [move_ports foldl]. unfold move_ports in IH. by rewrite IH, move_port_name.
Qed.

Lemma move_ports_ports_Some oc moves rep q :
  is_Some (cell_ports (move_ports oc moves rep) !! q) ↔ is_Some (cell_ports rep !! q).
Proof.
  revert rep. induction moves as [|[o r] moves IH]; intros rep; [done|].
  cbn [move_ports foldl]. unfold move_ports in IH. by rewrite IH, move_port_ports_Some.
Qed.

Lemma move_ports_ext oc oc' moves rep :
  (∀ o, o ∈ moves.*1 → cell_ports oc' !! o = cell_ports oc !! o) →
  move_ports oc' moves rep = move_ports oc moves rep.
Proof.
  revert rep. induction moves as [|[o r] moves IH]; intros rep Hext; [done|].
  cbn [move_ports foldl]. unfold move_ports in IH.
  assert (move_port oc' o r rep = move_port oc o r rep) as ->.
  { unfold move_port. rewrite Hext; [done|]. by left. }
  apply IH. intros o' Ho'. apply Hext. by right.
Qed.

Lemma option_Forall2_dom {A B} (R : A → B → Prop) x y :
  option_Forall2 R x y → (is_Some x ↔ is_Some y).
Proof. destruct 1; split; intros [? ?]; by eauto. Qed.

Lemma replace_ports_spec moves : ∀ cur c_old oc rep,
  cells cur !! c_old = Some oc →
  NoDup moves.*1 →
  (∀ o r, (o, r) ∈ moves → is_Some (cell_ports rep !! r)) →
  (∀ o r old n, (o, r) ∈ moves → cell_ports oc !! o = Some old → port_net old = Some n →
                is_Some (nets cur !! n)) →
  c_old ≠ cell_name rep →
  ∃ cur',
    replace_ports c_old moves (cur, rep) = Ok (cur', move_ports oc moves rep) ∧
    settings cur' = settings cur ∧
    (∀ c, c ≠ c_old → cells cur' !! c = cells cur !! c) ∧
    (∃ oc', cells cur' !! c_old = Some oc' ∧ same_but_ports oc oc' ∧
            ∀ q, q ∉ moves.*1 → cell_ports oc' !! q = cell_ports oc !! q) ∧
    (∀ n, option_Forall2 (net_moved c_old moves.*1 (cell_name rep))
            (nets cur !! n) (nets cur' !! n)).
Proof.
  induction moves as [|[o r] moves IH]; intros cur c_old oc rep Hoc Hnd Hrep Hnets Hne.
  - exists cur. split_and!; try done.
    + exists oc. done.
    + intros n. destruct (nets cur !! n); constructor. apply net_moved_refl.
  - cbn [fmap list_fmap fst] in Hnd. apply NoDup_cons in Hnd as [Ho Hnd].
    destruct (replace_port_spec cur c_old oc o rep r Hoc) as
      (cur1 & Hrun1 & Hs1 & Hc1 & (oc1 & Hoc1 & Hsame1 & Hp1) & Hn1).
    { apply (Hrep o). by left. }
    { intros old n. apply (Hnets o r). by left. }
    destruct (IH cur1 c_old oc1 (move_port oc o r rep) Hoc1 Hnd) as
      (cur2 & Hrun2 & Hs2 & Hc2 & (oc2 & Hoc2 & Hsame2 & Hp2) & Hn2).
    { intros o' r' Hin. apply move_port_ports_Some. apply (Hrep o'). by right. }
    { intros o' r' old n Hin Hold Hn.
      assert (o' ≠ o) as Hne'.
      { intros ->. apply Ho. apply list_elem_of_fmap. by exists (o, r'). }
      rewrite Hp1 in Hold by done.
      apply (option_Forall2_dom _ _ _ (Hn1 n)). apply (Hnets o' r' old n); [by right|done..]. }
    { by rewrite move_port_name. }
    exists cur2. split_and!.
    + unfold replace_ports in *. cbn [for_each]. rewrite Hrun1.
      cbn [mbind result_bind bind]. rewrite Hrun2. f_equal.
      cbn [move_ports foldl]. f_equal. apply move_ports_ext.
      intros o' Ho'. apply Hp1. intros ->. done.
    + congruence.
    + intros c Hc. rewrite Hc2, Hc1 by done. done.
    + exists oc2. split; [done|]. split; [by eapply same_but_ports_trans|].
      intros q Hq. cbn [fmap list_fmap fst] in Hq. rewrite not_elem_of_cons in Hq.
      destruct Hq as [Hq1 Hq2]. by rewrite Hp2, Hp1.
    + intros n. specialize (Hn1 n). specialize (Hn2 n).
      rewrite move_port_name in Hn2. cbn [fmap list_fmap fst].
      destruct Hn1 as [ni1 ni2 H12|]; inversion Hn2 as [? ni3 H23|]; subst; constructor.
      eapply (net_moved_trans _ _ _ ni1 ni2 ni3); [done| |].
      * eapply net_moved_mono; [|done]. set_solver.
      * eapply net_moved_mono; [|done]. set_solver.
Qed.

Lemma lut_to_lc_spec cur lut lutc lc no_dff :
  cells cur !! lut = Some lutc →
  (∀ r, r ∈ ["A0"; "B0"; "C0"; "D0"; "F0"] → is_Some (cell_ports lc !! r)) →
  (∀ o old n, o ∈ lut_old_ports no_dff → cell_ports lutc !! o = Some old →
              port_net old = Some n → is_Some (nets cur !! n)) →
  lut ≠ cell_name lc →
  ∃ cur',
    lut_to_lc cur lut lc no_dff = Ok (cur', lut_merged lutc no_dff lc) ∧
    settings cur' = settings cur ∧
    (∀ c, c ≠ lut → cells cur' !! c = cells cur !! c) ∧
    (∃ oc', cells cur' !! lut = Some oc' ∧ same_but_ports lutc oc') ∧
    (∀ n, option_Forall2 (net_moved lut (lut_old_ports no_dff) (cell_name lc))
            (nets cur !! n) (nets cur' !! n)).
Proof.
  intros Hlut Hrep Hnets Hne. unfold lut_to_lc, lut_merged. rewrite Hlut.
  set (lc1 := set_cell_params _ lc).
  destruct (replace_ports_spec lut_moves cur lut lutc lc1 Hlut) as
    (cur1 & Hrun1 & Hs1 & Hc1 & (oc1 & Hoc1 & Hsame1 & Hp1) & Hn1).
  { unfold lut_moves. cbn [fmap list_fmap fst]. apply NoDup_ListNoDup.
    repeat constructor; set_solver. }
  { intros o r Hin. apply Hrep. unfold lut_moves in Hin. set_solver. }
  { intros o r old n Hin. apply Hnets. unfold lut_moves, lut_old_ports in *. set_solver. }
  { done. }
  unfold lut_moves in *. cbn [fmap list_fmap fst] in *.
  fold lut_moves in Hrun1 |- *. rewrite Hrun1. cbn [mbind result_bind bind].
  assert (cell_name (move_ports lutc lut_moves lc1) = cell_name lc) as Hname.
  { by rewrite move_ports_name. }
  destruct no_dff.
  - destruct (replace_port_spec cur1 lut oc1 "Z" (move_ports lutc lut_moves lc1) id_F0 Hoc1)
      as (cur2 & Hrun2 & Hs2 & Hc2 & (oc2 & Hoc2 & Hsame2 & Hp2) & Hn2).
    { apply move_ports_ports_Some. apply Hrep. set_solver. }
    { intros old n Hold Hn. rewrite Hp1 in Hold by set_solver.
      apply (option_Forall2_dom _ _ _ (Hn1 n)).
      apply (Hnets "Z" old n); [|done..]. unfold lut_old_ports. set_solver. }
    exists cur2. split_and!.
    + rewrite Hrun2. do 2 f_equal. unfold move_port. rewrite Hp1 by set_solver. done.
    + congruence.
    + intros c Hc. by rewrite Hc2, Hc1.
    + exists oc2. split; [done|]. by eapply same_but_ports_trans.
    + intros n. specialize (Hn1 n). specialize (Hn2 n). rewrite Hname in Hn2.
      destruct Hn1 as [ni1 ni2 H12|]; inversion Hn2 as [? ni3 H23|]; subst; constructor.
      eapply (net_moved_trans _ _ _ ni1 ni2 ni3); [done| |].
      * eapply net_moved_mono; [|done]. unfold lut_old_ports. set_solver.
      * eapply net_moved_mono; [|done]. unfold lut_old_ports. set_solver.
  - exists cur1. split_and!; try done. exists oc1. done.
Qed.

Lemma dff_to_lc_spec cur dff dffc lc :
  cells cur !! dff = Some dffc →
  (∀ r, r ∈ ["CLK"; "LSR"; "CE"; "Q0"] → is_Some (cell_ports lc !! r)) →
  (∀ o old n, o ∈ dff_old_ports → cell_ports dffc !! o = Some old →
              port_net old = Some n → is_Some (nets cur !! n)) →
  dff ≠ cell_name lc →
  ∃ cur',
    dff_to_lc cur dff lc false = Ok (cur', dff_merged dffc lc) ∧
    settings cur' = settings cur ∧
    (∀ c, c ≠ dff → cells cur' !! c = cells cur !! c) ∧
    (∃ oc', cells cur' !! dff = Some oc' ∧ same_but_ports dffc oc') ∧
    (∀ n, option_Forall2 (net_moved dff dff_old_ports (cell_name lc))
            (nets cur !! n) (nets cur' !! n)).
Proof.
  intros Hdff Hrep Hnets Hne. unfold dff_to_lc, dff_merged. rewrite Hdff.
  set (lc1 := set_cell_params _ lc).
  destruct (replace_ports_spec dff_moves cur dff dffc lc1 Hdff) as
    (cur1 & Hrun1 & Hs1 & Hc1 & (oc1 & Hoc1 & Hsame1 & Hp1) & Hn1).
  { unfold dff_moves. cbn [fmap list_fmap fst]. apply NoDup_ListNoDup.
    repeat constructor; set_solver. }
  { intros o r Hin. apply Hrep. unfold dff_moves in Hin. set_solver. }
  { intros o r old n Hin. apply Hnets. unfold dff_moves, dff_old_ports in *. set_solver. }
  { done. }
  unfold dff_moves in *. cbn [fmap list_fmap fst] in *.
  fold dff_moves in Hrun1 |- *. rewrite Hrun1. cbn [mbind result_bind bind].
  exists cur1. split_and!; try done. exists oc1. done.
Qed.

Lemma is_lut_not_ff ce : is_lut ce → ¬ is_ff ce.
Proof.
  unfold is_lut, is_ff. intros H1%bool_decide_unpack H2%bool_decide_unpack.
  rewrite H1 in H2. done.
Qed.

Lemma ff_load_Some ctx u d :
  ff_load ctx u = Some d ↔
  u = {| ref_cell := Some d; ref_port := "DI" |} ∧
  ∃ dc, cells ctx !! d = Some dc ∧ is_ff dc.
Proof.
  unfold ff_load. destruct u as [[c|] p]; recsimpl; optsimpl; [|naive_solver].
  destruct (cells ctx !! c) as [ce|] eqn:Hc; optsimpl; [|naive_solver].
  destruct (is_ff ce) eqn:Hff; cbn [andb].
  - case_bool_decide as Hp; [|naive_solver]. subst. split.
    + intros [= ->]. split; [done|]. exists ce. by rewrite Hff.
    + intros [[= ->] _]. done.
  - split; [done|]. intros [[= -> ->] (dc & ? & Hdc)].
    assert (dc = ce) as -> by congruence. by rewrite Hff in Hdc.
Qed.

Lemma find_ff_Some ctx us d :
  find_ff ctx us = Some d →
  {| ref_cell := Some d; ref_port := "DI" |} ∈ us ∧
  ∃ dc, cells ctx !! d = Some dc ∧ is_ff dc.
Proof.
  unfold find_ff. intros Hh.
  assert (d ∈ omap (ff_load ctx) us) as Hin.
  { destruct (omap (ff_load ctx) us); [done|]. injection Hh as ->. by left. }
  apply list_elem_of_omap in Hin as (u & Hu & (-> & Hd)%ff_load_Some). done.
Qed.

Lemma z_net_Some ctx k on :
  z_net ctx k = Some on ↔
  ∃ ci zp, cells ctx !! k = Some ci ∧ cell_ports ci !! "Z" = Some zp ∧
           port_net zp = Some on.
Proof.
  unfold z_net. destruct (cells ctx !! k) as [ci|]; optsimpl.
  2:{ split; [done|]. by intros (? & ? & ? & _). }
  destruct (cell_ports ci !! "Z") as [zp|] eqn:Hz; optsimpl.
  - split; [by eauto|]. intros (ci' & zp' & [= <-] & Hz' & ?). congruence.
  - split; [done|]. intros (ci' & zp' & [= <-] & Hz' & ?). congruence.
Qed.

Lemma candidate_Some ctx k d :
  candidate ctx k = Some d →
  ∃ on ni dc, z_net ctx k = Some on ∧ nets ctx !! on = Some ni ∧
    {| ref_cell := Some d; ref_port := "DI" |} ∈ net_users ni ∧
    cells ctx !! d = Some dc ∧ is_ff dc.
Proof.
  unfold candidate. destruct (z_net ctx k) as [on|]; optsimpl; [|done].
  destruct (nets ctx !! on) as [ni|] eqn:Hni; optsimpl; [|done].
  intros (? & dc & ? & ?)%find_ff_Some. by exists on, ni, dc.
Qed.

Lemma fused_with_Some ctx k d :
  fused_with ctx k = Some d ↔
  ∃ ci dc, cells ctx !! k = Some ci ∧ is_lut ci ∧ candidate ctx k = Some d ∧
           cells ctx !! d = Some dc ∧
           locations_differ (cell_attrs ci !! id_BEL) (cell_attrs dc !! id_BEL) = false.
Proof.
  unfold fused_with. destruct (cells ctx !! k) as [ci|]; optsimpl.
  2:{ split; [done|]. by intros (? & ? & ? & _). }
  destruct (is_lut ci) eqn:Hlut.
  2:{ split; [done|]. intros (ci' & ? & [= <-] & Hl & _). by rewrite Hlut in Hl. }
  destruct (candidate ctx k) as [d'|]; optsimpl.
  2:{ split; [done|]. by intros (? & ? & _ & _ & ? & _). }
  destruct (cells ctx !! d') as [dc|] eqn:Hd'; optsimpl.
  2:{ split; [done|]. intros (? & ? & _ & _ & [= <-] & ? & _). congruence. }
  destruct (locations_differ _ _) eqn:Hloc; split.
  - done.
  - intros (ci' & dc' & [= <-] & _ & [= <-] & ? & ?). congruence.
  - intros [= <-]. exists ci, dc. by rewrite Hlut.
  - by intros (ci' & dc' & [= <-] & _ & [= <-] & ? & ?).
Qed.

Section fusion.
Context (ctx0 : Context).
Context (Hwf : wf_netlist ctx0) (HZ : luts_have_output ctx0).
Context (Hfree : slice_names_free ctx0) (Hexcl : fused_exclusive ctx0).
Local Abbreviation touched := (touched ctx0).
Local Abbreviation fused_net := (fused_net ctx0).
Local Abbreviation lut_inv := (lut_inv ctx0).
Local Abbreviation slices_of := (slices_of ctx0).

(** the net between a fused pair has the lookup-table as its driver and
    the flip-flop as its only user *)
Lemma fused_net_shape k d n ni :
  fused_with ctx0 k = Some d → z_net ctx0 k = Some n → nets ctx0 !! n = Some ni →
  net_users ni = [ {| ref_cell := Some d; ref_port := "DI" |} ] ∧
  net_driver ni = {| ref_cell := Some k; ref_port := "Z" |}.
Proof.
  intros Hf Hz Hn.
  assert (is_Some (cells ctx0 !! k)) as [ci Hci].
  { apply fused_with_Some in Hf as (ci & _ & ? & _). by eexists. }
  pose proof (Hexcl k ci Hci) as He. cbn beta in He.
  rewrite Hf, Hz in He. optsimpl. rewrite Hn in He. split; [done|].
  apply z_net_Some in Hz as (ci' & zp & Hci' & Hzp & Hzn).
  destruct (wf_port_net ctx0 Hwf k ci' "Z" zp n Hci' Hzp Hzn) as (ni' & Hni' & Hon).
  assert (ni' = ni) as -> by congruence.
  destruct Hon as [?|Hin]; [done|]. rewrite He in Hin.
  apply list_elem_of_singleton in Hin. done.
Qed.

Lemma port_on_fused_net k d n ni c p :
  fused_with ctx0 k = Some d → z_net ctx0 k = Some n → nets ctx0 !! n = Some ni →
  port_on_net c p ni → (c = k ∧ p = "Z") ∨ (c = d ∧ p = "DI").
Proof.
  intros Hf Hz Hn Hon. destruct (fused_net_shape k d n ni Hf Hz Hn) as [Hus Hdrv].
  destruct Hon as [Hd|Hu].
  - left. rewrite Hdrv in Hd. by injection Hd.
  - right. rewrite Hus in Hu. apply list_elem_of_singleton in Hu. by injection Hu.
Qed.

Lemma fused_with_ff k d :
  fused_with ctx0 k = Some d → ∃ dc, cells ctx0 !! d = Some dc ∧ is_ff dc.
Proof.
  intros (ci & dc & _ & _ & Hc & _)%fused_with_Some.
  apply candidate_Some in Hc as (? & ? & dc' & _ & _ & _ & ? & ?). eauto.
Qed.

Lemma fused_with_lut k d :
  fused_with ctx0 k = Some d → ∃ ci, cells ctx0 !! k = Some ci ∧ is_lut ci.
Proof. intros (ci & dc & ? & ? & _)%fused_with_Some. eauto. Qed.

(** two lookup-tables are never fused with the same flip-flop *)
Lemma fused_with_inj k1 k2 d :
  fused_with ctx0 k1 = Some d → fused_with ctx0 k2 = Some d → k1 = k2.
Proof.
  intros H1 H2.
  pose proof H1 as (ci1 & dc1 & _ & _ & Hc1 & _)%fused_with_Some.
  pose proof H2 as (ci2 & dc2 & _ & _ & Hc2 & _)%fused_with_Some.
  apply candidate_Some in Hc1 as (n1 & ni1 & _ & Hz1 & Hn1 & Hu1 & _).
  apply candidate_Some in Hc2 as (n2 & ni2 & _ & Hz2 & Hn2 & Hu2 & _).
  destruct (wf_net_port ctx0 Hwf n1 ni1 d "DI" Hn1) as (ce & pi & Hce & Hpi & Hpn);
    [by right|].
  destruct (wf_net_port ctx0 Hwf n2 ni2 d "DI" Hn2) as (ce' & pi' & Hce' & Hpi' & Hpn');
    [by right|].
  assert (n1 = n2) as -> by congruence. assert (ni2 = ni1) as -> by congruence.
  destruct (fused_net_shape k1 d n2 ni1 H1 Hz1 Hn1) as [_ Hd1].
  destruct (fused_net_shape k2 d n2 ni1 H2 Hz2 Hn1) as [_ Hd2].
  congruence.
Qed.

(** the net of a port is still there, unless the port sits on either end
    of a fused pair *)
Lemma port_net_live pre st c ce p pi n :
  lut_inv pre st →
  cells ctx0 !! c = Some ce → cell_ports ce !! p = Some pi → port_net pi = Some n →
  (∀ k d, k ∈ pre → fused_with ctx0 k = Some d →
          ¬ ((c = k ∧ p = "Z") ∨ (c = d ∧ p = "DI"))) →
  ∃ ni0 ni, nets ctx0 !! n = Some ni0 ∧ nets (l_ctx st) !! n = Some ni ∧
            net_rel ctx0 (cell_name <$> slices_of pre) ni0 ni ∧
            ¬ fused_net pre n.
Proof.
  intros (_ & _ & _ & _ & _ & Hnets & _) Hc Hp Hn Hno.
  destruct (wf_port_net ctx0 Hwf c ce p pi n Hc Hp Hn) as (ni0 & Hni0 & Hon).
  assert (¬ fused_net pre n) as Hnf.
  { intros (k & d & Hk & Hf & Hz). apply (Hno k d Hk Hf).
    by eapply port_on_fused_net. }
  specialize (Hnets n Hnf). rewrite Hni0 in Hnets.
  inversion Hnets as [? ni Hrel|]; subst. exists ni0, ni. done.
Qed.

Lemma lut_merged_name lutc b lc : cell_name (lut_merged lutc b lc) = cell_name lc.
Proof.
  unfold lut_merged. destruct b; rewrite ?move_port_name, move_ports_name; done.
Qed.

Lemma dff_merged_name dffc lc : cell_name (dff_merged dffc lc) = cell_name lc.
Proof. unfold dff_merged. by rewrite move_ports_name. Qed.

Lemma move_port_same oc o r rep : same_but_ports rep (move_port oc o r rep).
Proof. unfold move_port. by repeat case_match. Qed.

Lemma move_ports_same oc moves rep : same_but_ports rep (move_ports oc moves rep).
Proof.
  revert rep. induction moves as [|[o r] moves IH]; intros rep; [done|].
  cbn [move_ports foldl]. eapply same_but_ports_trans; [apply (move_port_same oc o r)|].
  apply IH.
Qed.

Lemma slice_for_name k ci : cell_name (slice_for ctx0 k ci) = cell_name ci +:+ "_LC".
Proof.
  unfold slice_for. destruct (fused_with ctx0 k ≫= _) as [dffc|].
  - destruct (cell_attrs dffc !! id_BEL); recsimpl;
      by rewrite dff_merged_name, lut_merged_name.
  - by rewrite lut_merged_name.
Qed.

Lemma slice_for_type k ci : cell_type (slice_for ctx0 k ci) = id_FACADE_SLICE.
Proof.
  unfold slice_for, dff_merged, lut_merged.
  destruct (fused_with ctx0 k ≫= _) as [dffc|].
  - destruct (cell_attrs dffc !! id_BEL); recsimpl.
    all: match goal with |- cell_type (move_ports ?a ?b ?c) = _ =>
           destruct (move_ports_same a b c) as (_ & <- & _) end; recsimpl.
    all: match goal with |- cell_type (move_ports ?a ?b ?c) = _ =>
           destruct (move_ports_same a b c) as (_ & <- & _) end; done.
  - match goal with |- cell_type (move_port ?a ?o ?r ?c) = _ =>
      destruct (move_port_same a o r c) as (_ & <- & _) end.
    match goal with |- cell_type (move_ports ?a ?b ?c) = _ =>
      destruct (move_ports_same a b c) as (_ & <- & _) end. done.
Qed.

Lemma elem_of_slices_of pre c :
  c ∈ slices_of pre ↔
  ∃ k ci, k ∈ pre ∧ cells ctx0 !! k = Some ci ∧ is_lut ci ∧ c = slice_for ctx0 k ci.
Proof.
  unfold Vocab.slices_of. rewrite list_elem_of_omap. split.
  - intros (k & Hk & Hc). destruct (cells ctx0 !! k) as [ci|] eqn:Hci; optsimpl; [|done].
    destruct (is_lut ci) eqn:Hl; [|done]. injection Hc as <-.
    exists k, ci. by rewrite Hl.
  - intros (k & ci & Hk & Hci & Hl & ->). exists k. split; [done|].
    rewrite Hci. optsimpl. by destruct (is_lut ci).
Qed.

Lemma slices_of_snoc_lut pre k ci :
  cells ctx0 !! k = Some ci → is_lut ci →
  slices_of (pre ++ [k]) = slices_of pre ++ [slice_for ctx0 k ci].
Proof.
  intros Hci Hl. unfold Vocab.slices_of. rewrite omap_app. f_equal.
  cbn [omap list_omap]. rewrite Hci. optsimpl. by destruct (is_lut ci).
Qed.

Lemma slices_of_snoc_other pre k :
  (∀ ci, cells ctx0 !! k = Some ci → ¬ is_lut ci) →
  slices_of (pre ++ [k]) = slices_of pre.
Proof.
  intros Hno. unfold Vocab.slices_of. rewrite omap_app.
  cbn [omap list_omap]. destruct (cells ctx0 !! k) as [ci|] eqn:Hci; optsimpl.
  - specialize (Hno ci eq_refl). destruct (is_lut ci); [by destruct Hno|].
    by rewrite app_nil_r.
  - by rewrite app_nil_r.
Qed.

(** the names of the slice cells are the names of no cell of the netlist *)
Lemma slice_name_fresh pre c :
  is_Some (cells ctx0 !! c) → c ∉ cell_name <$> slices_of pre.
Proof.
  intros [ce Hce] (sl & -> & Hin)%list_elem_of_fmap.
  apply elem_of_slices_of in Hin as (k & ci & _ & Hci & Hl & ->).
  rewrite slice_for_name in Hce. by rewrite (Hfree k ci Hci Hl) in Hce.
Qed.

Lemma deref_cell_old cur new c :
  c ∉ cell_name <$> new → deref_cell cur new c = cells cur !! c.
Proof.
  intros Hc. unfold deref_cell.
  destruct (list_find _ new) as [[i x]|] eqn:Hf; [|done].
  apply list_find_Some in Hf as (Hi & Hx & _). destruct Hc.
  apply list_elem_of_fmap. exists x. split; [done|]. by eapply list_elem_of_lookup_2.
Qed.

Lemma deref_cell_new cur new nm :
  nm ∈ cell_name <$> new → ∃ c, deref_cell cur new nm = Some c ∧ c ∈ new.
Proof.
  intros (x & -> & Hin)%list_elem_of_fmap. unfold deref_cell.
  destruct (list_find_elem_of (λ c, cell_name c = cell_name x) new x Hin eq_refl)
    as [[i y] Hf].
  rewrite Hf. exists y. split; [done|].
  apply list_find_Some in Hf as (Hi & _). by eapply list_elem_of_lookup_2.
Qed.

Lemma find_ff_cons ctx u us :
  find_ff ctx (u :: us) =
  match ff_load ctx u with Some d => Some d | None => find_ff ctx us end.
Proof. unfold find_ff. cbn [omap list_omap]. by destruct (ff_load ctx u). Qed.

Lemma find_load_equiv pre st n us0 us :
  lut_inv pre st →
  Forall (ref_on_port ctx0 n) us0 →
  Forall2 (user_rel ctx0 (cell_name <$> slices_of pre)) us0 us →
  find_load (l_ctx st) (new_cells st) is_ff "DI" us = Ok (find_ff ctx0 us0).
Proof.
  intros (Hcells & _ & Hnew & _) Hon Hrel. rewrite Hnew.
  induction Hrel as [|u0 u us0 us Hu Hrel IH]; [done|].
  apply Forall_cons in Hon as [Hon0 Hon]. specialize (IH Hon).
  rewrite find_ff_cons. cbn [find_load].
  destruct Hu as [->|(Hff & nm & Hnm & Hin)].
  - unfold ff_load. unfold ref_on_port in Hon0.
    destruct (ref_cell u0) as [c|] eqn:Hc; optsimpl; [|done].
    destruct (cells ctx0 !! c) as [ce0|] eqn:Hce0; [|done]. optsimpl.
    rewrite deref_cell_old by (apply slice_name_fresh; by eexists).
    specialize (Hcells c). rewrite Hce0 in Hcells.
    inversion Hcells as [? ce' (_ & Hty & _)|]; subst.
    assert (is_ff ce' = is_ff ce0) as -> by (unfold is_ff; by rewrite Hty).
    by destruct (is_ff ce0 && bool_decide (ref_port u0 = "DI")).
  - rewrite Hff, Hnm.
    destruct (deref_cell_new (l_ctx st) (slices_of pre) nm Hin) as (c & -> & Hc).
    apply elem_of_slices_of in Hc as (k & ci & _ & _ & _ & ->).
    assert (is_ff (slice_for ctx0 k ci) = false) as ->; [|done].
    unfold is_ff. rewrite slice_for_type. done.
Qed.

Lemma net_rel_moved names names' c ps nm ni0 ni ni' :
  net_rel ctx0 names ni0 ni → net_moved c ps nm ni ni' →
  (∀ p, p ∈ ps → ff_load ctx0 {| ref_cell := Some c; ref_port := p |} = None) →
  names ⊆ names' → nm ∈ names' →
  net_rel ctx0 names' ni0 ni'.
Proof.
  intros [Hn1 Hu1] [Hn2 Hu2] Hps Hsub Hnm. split; [congruence|].
  eapply Forall2_compose; [|done..].
  intros u0 u u' [->|(Hff & nm' & Hnm' & Hin)] [->|(Hc & Hp & Hc')].
  - by left.
  - right. split; [|eauto]. destruct u0 as [c0 p0]; simpl in *. subst. by apply Hps.
  - right. split; [done|]. eauto.
  - right. split; [done|]. eauto.
Qed.

Lemma net_rel_mono names names' ni0 ni :
  names ⊆ names' → net_rel ctx0 names ni0 ni → net_rel ctx0 names' ni0 ni.
Proof.
  intros Hsub [Hn Hu]. split; [done|]. eapply Forall2_impl; [done|].
  intros u0 u [->|(? & nm & ? & ?)]; [by left|right; eauto].
Qed.

Lemma touched_snoc pre k c :
  touched (pre ++ [k]) c ↔
  touched pre c ∨ (c = k ∧ ∃ ci, cells ctx0 !! k = Some ci ∧ is_lut ci) ∨
  fused_with ctx0 k = Some c.
Proof.
  unfold Vocab.touched. setoid_rewrite elem_of_app.
  setoid_rewrite list_elem_of_singleton. split.
  - intros [[[?| ->] ?]|(k' & [?| ->] & ?)]; eauto 10.
  - intros [[[? ?]|(k' & ? & ?)]|[[-> ?]|?]]; eauto 10.
Qed.

Lemma fused_net_snoc pre k n :
  fused_net (pre ++ [k]) n ↔
  fused_net pre n ∨ ∃ d, fused_with ctx0 k = Some d ∧ z_net ctx0 k = Some n.
Proof.
  unfold Vocab.fused_net. setoid_rewrite elem_of_app.
  setoid_rewrite list_elem_of_singleton. split.
  - intros (k' & d & [?| ->] & ? & ?); eauto 10.
  - intros [(k' & d & ? & ? & ?)|(d & ? & ?)]; eauto 10.
Qed.

Lemma fresh_slice_ports ci r :
  r ∈ slice_ports.*1 → is_Some (cell_ports (fresh_slice ci) !! r).
Proof.
  intros Hin. unfold slice_ports in Hin. cbn [fmap list_fmap fst] in Hin.
  rewrite !elem_of_cons in Hin. rewrite elem_of_nil in Hin.
  destruct_or!; subst; try done; eexists; vm_compute; reflexivity.
Qed.

Lemma fresh_slice_name ci : cell_name (fresh_slice ci) = cell_name ci +:+ "_LC".
Proof. done. Qed.

Lemma lut_merged_ports lutc b lc r :
  is_Some (cell_ports (lut_merged lutc b lc) !! r) ↔ is_Some (cell_ports lc !! r).
Proof.
  unfold lut_merged. destruct b;
    rewrite ?move_port_ports_Some, move_ports_ports_Some; done.
Qed.

Lemma ff_load_lut k ci p :
  cells ctx0 !! k = Some ci → is_lut ci →
  ff_load ctx0 {| ref_cell := Some k; ref_port := p |} = None.
Proof.
  intros Hci Hl. unfold ff_load; recsimpl; optsimpl. rewrite Hci. optsimpl.
  destruct (is_ff ci) eqn:Hff; [|done]. destruct (is_lut_not_ff ci Hl). by rewrite Hff.
Qed.

Lemma ff_load_other_port c p :
  p ≠ "DI" → ff_load ctx0 {| ref_cell := Some c; ref_port := p |} = None.
Proof.
  intros Hp. unfold ff_load; recsimpl; optsimpl.
  destruct (cells ctx0 !! c); optsimpl; [|done].
  rewrite bool_decide_eq_false_2 by done. by rewrite andb_false_r.
Qed.

(** the step of a cell that is no lookup-table *)
Lemma lut_inv_skip pre k st :
  (∀ ci, cells ctx0 !! k = Some ci → ¬ is_lut ci) →
  lut_inv pre st → lut_inv (pre ++ [k]) st.
Proof.
  intros Hno (Hcells & Hsame & Hnew & Hpacked & Hgone & Hnets & Hset).
  assert (∀ c, fused_with ctx0 k ≠ Some c) as Hnf.
  { intros c (ci & Hci & Hl)%fused_with_lut. by apply (Hno ci). }
  assert (∀ c, touched (pre ++ [k]) c ↔ touched pre c) as Ht.
  { intros c. rewrite touched_snoc. split; [|by left].
    intros [?|[[-> (ci & Hci & Hl)]|?]]; [done|by destruct (Hno ci)|by destruct (Hnf c)]. }
  assert (∀ n, fused_net (pre ++ [k]) n ↔ fused_net pre n) as Hfn.
  { intros n. rewrite fused_net_snoc. split; [|by left].
    intros [?|(d & ? & _)]; [done|by destruct (Hnf d)]. }
  split_and!; try done.
  - intros c Hc. apply Hsame. by rewrite <-Ht.
  - by rewrite slices_of_snoc_other.
  - intros c. by rewrite Hpacked, Ht.
  - intros n Hn. apply Hgone. by rewrite <-Hfn.
  - intros n Hn. rewrite slices_of_snoc_other by done. apply Hnets. by rewrite <-Hfn.
Qed.

Lemma lut_untouched pre k ci :
  k ∉ pre → cells ctx0 !! k = Some ci → is_lut ci → ¬ touched pre k.
Proof.
  intros Hk Hci Hl [[? _]|(k' & _ & (dc & Hdc & Hff)%fused_with_ff)]; [done|].
  assert (dc = ci) as -> by congruence. by apply (is_lut_not_ff ci).
Qed.

(** the nets on the pins of a lookup-table that has not been visited are
    all there *)
Lemma lut_port_live pre st k ci p pi n :
  lut_inv pre st → k ∉ pre → cells ctx0 !! k = Some ci → is_lut ci →
  cell_ports ci !! p = Some pi → port_net pi = Some n →
  ∃ ni0 ni, nets ctx0 !! n = Some ni0 ∧ nets (l_ctx st) !! n = Some ni ∧
            net_rel ctx0 (cell_name <$> slices_of pre) ni0 ni ∧ ¬ fused_net pre n.
Proof.
  intros Hinv Hk Hci Hl Hp Hn. eapply port_net_live; try done.
  intros k' d Hk' Hf [[-> _]|[-> _]]; [done|].
  apply fused_with_ff in Hf as (dc & Hdc & Hff).
  assert (dc = ci) as -> by congruence. by apply (is_lut_not_ff ci).
Qed.

Lemma lut_name_not_slice k ci c :
  cells ctx0 !! k = Some ci → is_lut ci → is_Some (cells ctx0 !! c) →
  c ≠ cell_name ci +:+ "_LC".
Proof. intros Hci Hl [ce Hce] ->. by rewrite (Hfree k ci Hci Hl) in Hce. Qed.

(** a lookup-table that is packed on its own *)
Lemma step_alone pre k ci st :
  lut_inv pre st → k ∉ pre → cells ctx0 !! k = Some ci → is_lut ci →
  fused_with ctx0 k = None →
  ∃ cur',
    lut_to_lc (l_ctx st) k (fresh_slice ci) true =
      Ok (cur', lut_merged ci true (fresh_slice ci)) ∧
    lut_inv (pre ++ [k])
      {| l_ctx := cur'; packed_cells := {[cell_name ci]} ∪ packed_cells st;
         new_cells := new_cells st ++ [lut_merged ci true (fresh_slice ci)] |}.
Proof.
  intros Hinv Hk Hci Hl Hf.
  pose proof Hinv as (Hcells & Hsame & Hnew & Hpacked & Hgone & Hnets & Hset).
  assert (cells (l_ctx st) !! k = Some ci) as Hcur.
  { rewrite Hsame; [done|]. by eapply lut_untouched. }
  destruct (lut_to_lc_spec (l_ctx st) k ci (fresh_slice ci) true Hcur)
    as (cur' & Hrun & Hs & Hc & (oc' & Hoc' & Hsame') & Hn).
  { intros r Hr. apply fresh_slice_ports. unfold slice_ports. cbn [fmap list_fmap fst].
    set_solver. }
  { intros o old n _ Hold Hpn.
    destruct (lut_port_live pre st k ci o old n) as (? & ? & _ & ? & _); done. }
  { rewrite fresh_slice_name. apply (lut_name_not_slice k ci); [done..|by eexists]. }
  exists cur'. split; [done|].
  assert (slice_for ctx0 k ci = lut_merged ci true (fresh_slice ci)) as Hslice.
  { unfold slice_for. by rewrite Hf. }
  assert (∀ n, fused_net (pre ++ [k]) n ↔ fused_net pre n) as Hfn.
  { intros n. rewrite fused_net_snoc. split; [|by left].
    intros [?|(d & ? & _)]; [done|congruence]. }
  split_and!; cbn [l_ctx packed_cells new_cells].
  - intros c. destruct (decide (c = k)) as [->|Hne].
    + rewrite Hci, Hoc'. by constructor.
    + rewrite Hc by done. apply Hcells.
  - intros c Hc'. rewrite touched_snoc in Hc'.
    assert (c ≠ k) by (intros ->; apply Hc'; right; left; eauto).
    rewrite Hc by done. apply Hsame. tauto.
  - by rewrite (slices_of_snoc_lut pre k ci), Hslice, Hnew.
  - intros c. rewrite elem_of_union, elem_of_singleton, Hpacked, touched_snoc.
    rewrite (wf_cell_name ctx0 Hwf k ci Hci), Hf. split.
    + intros [->|?]; [right; left; eauto|by left].
    + intros [?|[[-> _]|?]]; [by right|by left|done].
  - intros n Hn'%Hfn. specialize (Hn n). rewrite (Hgone n Hn') in Hn. by inversion Hn.
  - intros n Hn'. rewrite Hfn in Hn'. specialize (Hnets n Hn'). specialize (Hn n).
    destruct Hnets as [ni0 ni Hrel|]; inversion Hn as [? ni' Hmv|]; subst; constructor.
    eapply net_rel_moved; [done..| | |].
    + intros p _. by eapply ff_load_lut.
    + rewrite (slices_of_snoc_lut pre k ci) by done. rewrite fmap_app. set_solver.
    + rewrite (slices_of_snoc_lut pre k ci) by done. rewrite fmap_app, Hslice.
      apply elem_of_app. right. apply list_elem_of_singleton.
      by rewrite lut_merged_name.
  - congruence.
Qed.

Lemma option_Forall2_None_r {A B} (R : A → B → Prop) x :
  option_Forall2 R x None → x = None.
Proof. by inversion 1. Qed.

Lemma option_Forall2_None_l {A B} (R : A → B → Prop) y :
  option_Forall2 R None y → y = None.
Proof. by inversion 1. Qed.

(** a lookup-table that is fused with its flip-flop *)
Lemma step_fused pre k ci dffp dffc on st :
  lut_inv pre st → k ∉ pre → cells ctx0 !! k = Some ci → is_lut ci →
  fused_with ctx0 k = Some dffp → cells ctx0 !! dffp = Some dffc →
  z_net ctx0 k = Some on →
  ∃ cur1 cur2 oni,
    lut_to_lc (l_ctx st) k (fresh_slice ci) false =
      Ok (cur1, lut_merged ci false (fresh_slice ci)) ∧
    dff_to_lc cur1 dffp (lut_merged ci false (fresh_slice ci)) false =
      Ok (cur2, dff_merged dffc (lut_merged ci false (fresh_slice ci))) ∧
    nets cur2 !! on = Some oni ∧ net_name oni = on ∧
    lut_inv (pre ++ [k])
      {| l_ctx := set_nets (delete on (nets cur2)) cur2;
         packed_cells := {[dffp]} ∪ ({[cell_name ci]} ∪ packed_cells st);
         new_cells := new_cells st ++ [slice_for ctx0 k ci] |}.
Proof.
  intros Hinv Hk Hci Hl Hf Hdffc Hz.
  pose proof Hinv as (Hcells & Hsame & Hnew & Hpacked & Hgone & Hnets & Hset).
  pose proof (fused_with_ff k dffp Hf) as (dc & Hdc & Hff).
  assert (dc = dffc) as -> by congruence.
  assert (dffp ≠ k) as Hdk.
  { intros ->. assert (dffc = ci) as -> by congruence. by apply (is_lut_not_ff ci). }
  assert (cells (l_ctx st) !! k = Some ci) as Hcur.
  { rewrite Hsame; [done|]. by eapply lut_untouched. }
  assert (cells (l_ctx st) !! dffp = Some dffc) as Hcurd.
  { rewrite Hsame; [done|]. intros [[_ (ci' & Hci' & Hl')]|(k' & Hk' & Hf')].
    - assert (ci' = dffc) as -> by congruence. by apply (is_lut_not_ff dffc).
    - assert (k' = k) as -> by (by eapply fused_with_inj). done. }
  set (nm := cell_name ci +:+ "_LC").
  (* the lookup-table half *)
  destruct (lut_to_lc_spec (l_ctx st) k ci (fresh_slice ci) false Hcur)
    as (cur1 & Hrun1 & Hs1 & Hc1 & (oc1 & Hoc1 & Hsame1) & Hn1).
  { intros r Hr. apply fresh_slice_ports. unfold slice_ports. cbn [fmap list_fmap fst].
    set_solver. }
  { intros o old n _ Hold Hpn.
    destruct (lut_port_live pre st k ci o old n) as (? & ? & _ & ? & _); done. }
  { rewrite fresh_slice_name. apply (lut_name_not_slice k ci); [done..|by eexists]. }
  (* the flip-flop half *)
  assert (cells cur1 !! dffp = Some dffc) as Hcur1d by (by rewrite Hc1).
  destruct (dff_to_lc_spec cur1 dffp dffc (lut_merged ci false (fresh_slice ci)) Hcur1d)
    as (cur2 & Hrun2 & Hs2 & Hc2 & (oc2 & Hoc2 & Hsame2) & Hn2).
  { intros r Hr. apply lut_merged_ports, fresh_slice_ports.
    unfold slice_ports. cbn [fmap list_fmap fst]. set_solver. }
  { intros o old n Ho Hold Hpn.
    apply (option_Forall2_dom _ _ _ (Hn1 n)).
    destruct (port_net_live pre st dffp dffc o old n) as (? & ? & _ & ? & _); try done.
    intros k' d _ _ [[_ ->]|[_ ->]]; unfold dff_old_ports in Ho; set_solver. }
  { rewrite lut_merged_name, fresh_slice_name.
    apply (lut_name_not_slice k ci); [done..|by eexists]. }
  rewrite lut_merged_name in Hn2. change (cell_name (fresh_slice ci)) with nm in Hn1, Hn2.
  (* the net in between *)
  pose proof Hz as (ci' & zp & Hci' & Hzp & Hzn)%z_net_Some.
  assert (ci' = ci) as -> by congruence.
  destruct (lut_port_live pre st k ci "Z" zp on) as (ni0 & ni & Hni0 & Hni & Hrel & Hnf);
    try done.
  pose proof (Hn1 on) as Hon1. rewrite Hni in Hon1.
  inversion Hon1 as [? ni1 [Hnm1 _] Heq1 Hni1|]; subst. symmetry in Hni1.
  pose proof (Hn2 on) as Hon2. rewrite Hni1 in Hon2.
  inversion Hon2 as [? ni2 [Hnm2 _] Heq2 Hni2|]; subst. symmetry in Hni2.
  assert (net_name ni2 = on) as Hname.
  { rewrite Hnm2, Hnm1. destruct Hrel as [-> _]. by apply (wf_net_name ctx0 Hwf). }
  exists cur1, cur2, ni2. split_and!; try done.
  assert (∀ n, fused_net (pre ++ [k]) n ↔ fused_net pre n ∨ n = on) as Hfn.
  { intros n. rewrite fused_net_snoc. split.
    - intros [?|(d & _ & ?)]; [by left|right; congruence].
    - intros [?| ->]; [by left|right; eauto]. }
  assert (∀ p, p ∈ dff_old_ports →
               ff_load ctx0 {| ref_cell := Some dffp; ref_port := p |} = None) as Hffd.
  { intros p Hp. apply ff_load_other_port. intros ->. unfold dff_old_ports in Hp.
    set_solver. }
  assert (cell_name <$> slices_of (pre ++ [k]) = (cell_name <$> slices_of pre) ++ [nm])
    as Hnames.
  { rewrite (slices_of_snoc_lut pre k ci) by done. rewrite fmap_app.
    cbn [fmap list_fmap]. by rewrite slice_for_name. }
  split_and!; cbn [l_ctx packed_cells new_cells]; recsimpl.
  - intros c. destruct (decide (c = dffp)) as [->|Hnd].
    + rewrite Hdffc, Hoc2. by constructor.
    + rewrite Hc2 by done. destruct (decide (c = k)) as [->|Hne].
      * rewrite Hci, Hoc1. by constructor.
      * rewrite Hc1 by done. apply Hcells.
  - intros c Hc'. rewrite touched_snoc in Hc'.
    assert (c ≠ k) by (intros ->; apply Hc'; right; left; eauto).
    assert (c ≠ dffp) by (intros ->; apply Hc'; right; by right).
    rewrite Hc2, Hc1 by done. apply Hsame. tauto.
  - by rewrite (slices_of_snoc_lut pre k ci), Hnew.
  - intros c. rewrite !elem_of_union, !elem_of_singleton, Hpacked, touched_snoc.
    rewrite (wf_cell_name ctx0 Hwf k ci Hci), Hf. split.
    + intros [->|[->|?]]; [by right; right|right; left; eauto|by left].
    + intros [?|[[-> _]|[= ->]]]; [by right; right|right; by left|by left].
  - intros n [Hn'| ->]%Hfn; [|apply lookup_delete_eq].
    destruct (decide (n = on)) as [->|Hne]; [apply lookup_delete_eq|].
    rewrite lookup_delete_ne by done.
    pose proof (Hn1 n) as H1. rewrite (Hgone n Hn') in H1.
    apply option_Forall2_None_l in H1.
    pose proof (Hn2 n) as H2. rewrite H1 in H2. by apply option_Forall2_None_l in H2.
  - intros n Hn'. rewrite Hfn in Hn'.
    assert (n ≠ on) as Hne by tauto. assert (¬ fused_net pre n) as Hnf' by tauto.
    rewrite lookup_delete_ne by done. rewrite Hnames.
    specialize (Hnets n Hnf'). pose proof (Hn1 n) as H1. pose proof (Hn2 n) as H2.
    destruct Hnets as [n0 n1 Hr01|].
    + inversion H1 as [? n2 Hm12 Heq Hn2'|]; subst. rewrite <-Hn2' in H2.
      inversion H2 as [? n3 Hm23|]; subst. constructor.
      eapply (net_rel_moved _ _ dffp dff_old_ports nm n0 n2 n3); [|done|done| |].
      * eapply (net_rel_moved _ _ k (lut_old_ports false) nm n0 n1 n2); [done|done| | |].
        -- intros p _. by eapply ff_load_lut.
        -- intros x Hx. apply elem_of_app. by left.
        -- apply elem_of_app. right. by apply list_elem_of_singleton.
      * done.
      * apply elem_of_app. right. by apply list_elem_of_singleton.
    + apply option_Forall2_None_l in H1. rewrite H1 in H2.
      apply option_Forall2_None_l in H2. rewrite H2. constructor.
  - congruence.
Qed.

Lemma wf_net_users n ni :
  nets ctx0 !! n = Some ni → Forall (ref_on_port ctx0 n) (net_users ni).
Proof. intros Hn. destruct Hwf as (_ & _ & Hnets). by destruct (Hnets n ni Hn). Qed.

(** what [net_only_drives] finds while the loop runs is the candidate of
    the netlist the pass started from *)
Lemma net_only_drives_spec pre st k ci zp :
  lut_inv pre st → k ∉ pre → cells ctx0 !! k = Some ci → is_lut ci →
  cell_ports ci !! "Z" = Some zp →
  net_only_drives (l_ctx st) (new_cells st) (port_net zp) is_ff "DI" false
  = Ok (candidate ctx0 k).
Proof.
  intros Hinv Hk Hci Hl Hzp. unfold candidate, z_net. rewrite Hci. optsimpl.
  rewrite Hzp. optsimpl. unfold net_only_drives.
  destruct (port_net zp) as [on|] eqn:Hon; optsimpl; [|done].
  destruct (lut_port_live pre st k ci "Z" zp on) as (ni0 & ni & Hni0 & Hni & Hrel & _);
    try done.
  rewrite Hni, Hni0. optsimpl. cbn [andb].
  eapply find_load_equiv; [done| |apply Hrel]. by apply wf_net_users.
Qed.

Lemma slice_for_alone k ci :
  fused_with ctx0 k = None → slice_for ctx0 k ci = lut_merged ci true (fresh_slice ci).
Proof. intros Hf. unfold slice_for. by rewrite Hf. Qed.

Lemma slice_for_fused k ci dffp dffc :
  fused_with ctx0 k = Some dffp → cells ctx0 !! dffp = Some dffc →
  slice_for ctx0 k ci =
  let packed2 := dff_merged dffc (lut_merged ci false (fresh_slice ci)) in
  match cell_attrs dffc !! id_BEL with
  | Some v => set_cell_attrs (<[id_BEL := v]> (cell_attrs packed2)) packed2
  | None => packed2
  end.
Proof. intros Hf Hd. unfold slice_for. rewrite Hf. optsimpl. by rewrite Hd. Qed.

Lemma pack_lut_lutffs_body_spec pre k st :
  is_Some (cells ctx0 !! k) → k ∉ pre → lut_inv pre st →
  ∃ st', pack_lut_lutffs_body k st = Ok st' ∧ lut_inv (pre ++ [k]) st'.
Proof.
  intros [ci Hci] Hk Hinv.
  pose proof Hinv as (Hcells & Hsame & Hnew & Hpacked & Hgone & Hnets & Hset).
  unfold pack_lut_lutffs_body. cbv zeta.
  destruct (is_lut ci) eqn:Hl.
  2:{ pose proof (Hcells k) as Hc. rewrite Hci in Hc.
      inversion Hc as [? ci' (_ & Hty & _)|]; subst.
      assert (is_lut ci' = false) as ->.
      { unfold is_lut in Hl |- *. by rewrite <-Hty. }
      eexists; split; [done|]. apply lut_inv_skip; [|done].
      intros ci'' Hci''. assert (ci'' = ci) as -> by congruence.
      rewrite Hl. by intros []. }
  assert (is_lut ci) as Hl' by (by rewrite Hl).
  assert (cells (l_ctx st) !! k = Some ci) as ->.
  { rewrite Hsame; [done|]. by eapply lut_untouched. }
  rewrite Hl. destruct (HZ k ci Hci Hl') as [zp Hzp]. rewrite Hzp.
  rewrite (net_only_drives_spec pre st k ci zp) by done.
  cbn [mbind result_bind bind].
  change (set_cell_attrs _ (create_machxo2_cell _ _)) with (fresh_slice ci).
  (* the lookup-table on its own *)
  assert (fused_with ctx0 k = None →
    ∃ st', (lut_to_lc (l_ctx st) k (fresh_slice ci) true
            ≫= λ '(ctx2, packed2),
                 Ok {| l_ctx := ctx2;
                       packed_cells := {[cell_name ci]} ∪ packed_cells st;
                       new_cells := new_cells st ++ [packed2] |}) = Ok st' ∧
           lut_inv (pre ++ [k]) st') as Halone.
  { intros Hf. destruct (step_alone pre k ci st) as (cur' & -> & Hinv'); try done.
    cbn [mbind result_bind bind]. eauto. }
  destruct (candidate ctx0 k) as [dffp|] eqn:Hcand.
  2:{ cbn [mbind result_bind bind]. apply Halone.
      unfold fused_with. rewrite Hci. optsimpl. rewrite Hl, Hcand. done. }
  pose proof (candidate_Some ctx0 k dffp Hcand)
    as (on & ni0 & dffc & Hz & Hni0 & Hin & Hdffc & Hff).
  unfold try_pack_dff.
  rewrite deref_cell_old
    by (rewrite Hnew; apply slice_name_fresh; by eexists).
  pose proof (Hcells dffp) as Hc. rewrite Hdffc in Hc.
  inversion Hc as [? dffc' (Hnm & _ & Hat & _) Heq1 Heq2|]; subst. clear Hc.
  rewrite <-Hat, <-Hnm.
  destruct (locations_differ _ _) eqn:Hloc.
  { cbn [mbind result_bind bind]. apply Halone.
    unfold fused_with. rewrite Hci. optsimpl. rewrite Hl, Hcand. optsimpl.
    rewrite Hdffc. optsimpl. by rewrite Hloc. }
  assert (fused_with ctx0 k = Some dffp) as Hf.
  { unfold fused_with. rewrite Hci. optsimpl. rewrite Hl, Hcand. optsimpl.
    rewrite Hdffc. optsimpl. by rewrite Hloc. }
  destruct (step_fused pre k ci dffp dffc on st)
    as (cur1 & cur2 & oni & Hrun1 & Hrun2 & Honi & Hname & Hinv'); try done.
  rewrite Hrun1. cbn [mbind result_bind bind]. rewrite Hrun2.
  cbn [mbind result_bind bind].
  assert (port_net zp = Some on) as ->.
  { apply z_net_Some in Hz as (ci' & zp' & ? & ? & ?). congruence. }
  cbn [mbind option_bind]. rewrite Honi, Hname. cbn [mbind result_bind bind].
  eexists; split; [done|].
  rewrite (wf_cell_name ctx0 Hwf dffp dffc Hdffc).
  by rewrite (slice_for_fused k ci dffp dffc) in Hinv'.
Qed.

Lemma pack_lut_lutffs_loop :
  ∃ st, for_each pack_lut_lutffs_body (sorted (cells ctx0))
          {| l_ctx := ctx0; packed_cells := ∅; new_cells := [] |} = Ok st ∧
        lut_inv (sorted (cells ctx0)) st.
Proof.
  apply for_each_inv.
  - split_and!; cbn [l_ctx packed_cells new_cells]; try done.
    + intros c. destruct (cells ctx0 !! c); by constructor.
    + intros c. split; [set_solver|].
      intros [[?%elem_of_nil _]|(? & ?%elem_of_nil & _)]; done.
    + intros n (? & ? & ?%elem_of_nil & _). done.
    + intros n _. destruct (nets ctx0 !! n); constructor.
      split; [done|]. apply Forall2_refl_rel. intros. by left.
  - intros pre k post st1 Hl Hinv. apply pack_lut_lutffs_body_spec; [| |done].
    + apply elem_of_sorted. rewrite Hl. set_solver.
    + pose proof (NoDup_sorted (cells ctx0)) as Hnd. rewrite Hl in Hnd.
      apply NoDup_app in Hnd as (_ & Hnd & _). intros Hin. apply (Hnd k Hin). by left.
Qed.

Lemma string_length_app (s t : string) :
  String.length (s +:+ t) = String.length s + String.length t.
Proof.
  induction s as [|a s IH]; [done|].
  change (String a s +:+ t) with (String a (s +:+ t)).
  cbn [String.length]. by rewrite IH.
Qed.

Lemma string_app_inj_r (s1 s2 t : string) : s1 +:+ t = s2 +:+ t → s1 = s2.
Proof.
  revert s2. induction s1 as [|a s1 IH]; intros [|b s2] Heq; [done| | |].
  - apply (f_equal String.length) in Heq.
    rewrite !string_length_app in Heq. cbn in Heq. lia.
  - apply (f_equal String.length) in Heq.
    rewrite !string_length_app in Heq. cbn in Heq. lia.
  - change (String a (s1 +:+ t) = String b (s2 +:+ t)) in Heq.
    injection Heq as -> Heq. f_equal. by apply IH.
Qed.

Lemma lookup_foldl_insert_other (l : list CellInfo) (m : gmap string CellInfo) k :
  k ∉ cell_name <$> l →
  foldl (λ m c, <[cell_name c := c]> m) m l !! k = m !! k.
Proof.
  revert m. induction l as [|c l IH]; intros m Hk; [done|].
  cbn [foldl]. cbn [fmap list_fmap] in Hk. apply not_elem_of_cons in Hk as [Hne Hk].
  rewrite IH by done. by rewrite lookup_insert_ne.
Qed.

Lemma lookup_foldl_insert_elem (l : list CellInfo) (m : gmap string CellInfo) c :
  NoDup (cell_name <$> l) → c ∈ l →
  foldl (λ m c, <[cell_name c := c]> m) m l !! cell_name c = Some c.
Proof.
  revert m. induction l as [|c' l IH]; intros m Hnd Hin; [by apply elem_of_nil in Hin|].
  cbn [foldl]. cbn [fmap list_fmap] in Hnd. apply NoDup_cons in Hnd as [Hc' Hnd].
  apply elem_of_cons in Hin as [->|Hin].
  - rewrite lookup_foldl_insert_other by done. apply lookup_insert_eq.
  - by apply IH.
Qed.

Lemma slices_of_names_NoDup pre : NoDup pre → NoDup (cell_name <$> slices_of pre).
Proof.
  induction 1 as [|k pre Hk Hnd IH]; [constructor|].
  unfold Vocab.slices_of. cbn [omap list_omap].
  destruct (cells ctx0 !! k) as [ci|] eqn:Hci; optsimpl; [|done].
  destruct (is_lut ci) eqn:Hl; [|done]. cbn [fmap list_fmap].
  apply NoDup_cons. split; [|done].
  intros (sl & Heq & Hin)%list_elem_of_fmap.
  apply elem_of_slices_of in Hin as (k' & ci' & Hk' & Hci' & _ & ->).
  rewrite !slice_for_name in Heq. apply string_app_inj_r in Heq.
  rewrite (wf_cell_name ctx0 Hwf k ci Hci), (wf_cell_name ctx0 Hwf k' ci' Hci') in Heq.
  by subst.
Qed.

(** the netlist the pass returns *)
Lemma pack_lut_lutffs_run :
  ∃ st, lut_inv (sorted (cells ctx0)) st ∧
    pack_lut_lutffs ctx0 =
    Ok (set_cells
          (foldl (λ m ncell, <[cell_name ncell := ncell]> m)
             (erase_all (packed_cells st) (cells (l_ctx st))) (new_cells st))
          (l_ctx st)).
Proof.
  destruct pack_lut_lutffs_loop as (st & Hrun & Hinv). exists st. split; [done|].
  unfold pack_lut_lutffs. by rewrite Hrun.
Qed.

Lemma touched_all c :
  touched (sorted (cells ctx0)) c ↔
  (∃ ci, cells ctx0 !! c = Some ci ∧ is_lut ci) ∨ ∃ k, fused_with ctx0 k = Some c.
Proof.
  unfold Vocab.touched. split.
  - intros [[_ ?]|(k & _ & ?)]; eauto.
  - intros [(ci & Hci & ?)|(k & Hf)].
    + left. split; [apply elem_of_sorted|]; eauto.
    + right. exists k. split; [|done]. apply elem_of_sorted.
      apply fused_with_lut in Hf as (ci & -> & _). by eexists.
Qed.

(** the cells of the netlist the pass returns *)
Lemma pack_lut_lutffs_cells ctx' :
  pack_lut_lutffs ctx0 = Ok ctx' →
  (∀ k ci, cells ctx0 !! k = Some ci → is_lut ci →
     cells ctx' !! (k +:+ "_LC") = Some (slice_for ctx0 k ci)) ∧
  (∀ c, touched (sorted (cells ctx0)) c → cells ctx' !! c = None) ∧
  (∀ c ce, cells ctx0 !! c = Some ce → ¬ touched (sorted (cells ctx0)) c →
     cells ctx' !! c = Some ce) ∧
  (∀ c ce, cells ctx' !! c = Some ce → is_lut ce = false) ∧
  (∀ n, fused_net (sorted (cells ctx0)) n → nets ctx' !! n = None) ∧
  (∀ n, ¬ fused_net (sorted (cells ctx0)) n → is_Some (nets ctx0 !! n) →
     is_Some (nets ctx' !! n)) ∧
  settings ctx' = settings ctx0.
Proof.
  intros Hrun. destruct pack_lut_lutffs_run as (st & Hinv & Hrun').
  rewrite Hrun in Hrun'. injection Hrun' as ->.
  destruct Hinv as (Hcells & Hsame & Hnew & Hpacked & Hgone & Hnets & Hset).
  pose proof (slices_of_names_NoDup _ (NoDup_sorted (cells ctx0))) as Hnd.
  assert (∀ c, c ∉ cell_name <$> slices_of (sorted (cells ctx0)) →
     cells (set_cells
       (foldl (λ m ncell, <[cell_name ncell := ncell]> m)
          (erase_all (packed_cells st) (cells (l_ctx st))) (new_cells st))
       (l_ctx st)) !! c =
     if decide (c ∈ packed_cells st) then None else cells (l_ctx st) !! c) as Hold.
  { intros c Hc. recsimpl. rewrite Hnew, lookup_foldl_insert_other by done.
    apply lookup_erase_all. }
  split_and!; recsimpl.
  - intros k ci Hci Hl. rewrite Hnew.
    rewrite <-(wf_cell_name ctx0 Hwf k ci Hci) at 1. rewrite <-(slice_for_name k ci).
    apply lookup_foldl_insert_elem; [done|]. apply elem_of_slices_of.
    exists k, ci. split_and!; try done. apply elem_of_sorted. by eexists.
  - intros c Hc. recsimpl.
    assert (is_Some (cells ctx0 !! c)) as Hsome.
    { apply touched_all in Hc as [(ci & -> & _)|(k & (dc & -> & _)%fused_with_ff)];
        by eexists. }
    specialize (Hold c (slice_name_fresh _ c Hsome)). recsimpl. rewrite Hold.
    by rewrite decide_True by (by apply Hpacked).
  - intros c ce Hce Hc.
    specialize (Hold c (slice_name_fresh _ c ltac:(by eexists))). recsimpl.
    rewrite Hold, decide_False by (by rewrite Hpacked). by rewrite Hsame.
  - intros c ce Hce'.
    destruct (decide (c ∈ cell_name <$> slices_of (sorted (cells ctx0)))) as [Hin|Hout].
    + apply list_elem_of_fmap in Hin as (sl & -> & Hin).
      rewrite Hnew, lookup_foldl_insert_elem in Hce' by done.
      injection Hce' as <-.
      apply elem_of_slices_of in Hin as (k & ci & _ & _ & _ & ->).
      unfold is_lut. by rewrite slice_for_type.
    + specialize (Hold c Hout). recsimpl. rewrite Hold in Hce'.
      destruct (decide (c ∈ packed_cells st)) as [|Hnp]; [done|].
      pose proof (Hcells c) as Hc. rewrite Hce' in Hc.
      inversion Hc as [ce0 ? (_ & Hty & _) Hce0|]; subst. symmetry in Hce0.
      destruct (is_lut ce) eqn:Hl; [|done]. destruct Hnp. apply Hpacked.
      left. split; [apply elem_of_sorted; by eexists|]. exists ce0. split; [done|].
      unfold is_lut in *. by rewrite Hty, Hl.
  - done.
  - intros n Hn Hsome. apply (option_Forall2_dom _ _ _ (Hnets n Hn)). done.
  - done.
Qed.
(** where the cells and nets of the result come from *)
Lemma pack_lut_lutffs_origin ctx' :
  pack_lut_lutffs ctx0 = Ok ctx' →
  (∀ c ce, cells ctx' !! c = Some ce →
     cells ctx0 !! c = Some ce ∨
     ∃ k ci, cells ctx0 !! k = Some ci ∧ is_lut ci ∧ c = k +:+ "_LC" ∧
             ce = slice_for ctx0 k ci) ∧
  (∀ n ni', nets ctx' !! n = Some ni' →
     ∃ ni, nets ctx0 !! n = Some ni ∧
           net_rel ctx0 (cell_name <$> slices_of (sorted (cells ctx0))) ni ni').
Proof.
  intros Hrun. destruct pack_lut_lutffs_run as (st & Hinv & Hrun').
  rewrite Hrun in Hrun'. injection Hrun' as ->.
  destruct Hinv as (Hcells & Hsame & Hnew & Hpacked & Hgone & Hnets & Hset).
  pose proof (slices_of_names_NoDup _ (NoDup_sorted (cells ctx0))) as Hnd.
  split; recsimpl.
  - intros c ce Hce'.
    destruct (decide (c ∈ cell_name <$> slices_of (sorted (cells ctx0)))) as [Hin|Hout].
    + right. apply list_elem_of_fmap in Hin as (sl & -> & Hin).
      rewrite Hnew, lookup_foldl_insert_elem in Hce' by done.
      injection Hce' as <-.
      apply elem_of_slices_of in Hin as (k & ci & _ & Hci & Hl & ->).
      exists k, ci. split_and!; try done.
      by rewrite slice_for_name, (wf_cell_name ctx0 Hwf k ci Hci).
    + left. rewrite Hnew, lookup_foldl_insert_other in Hce' by done.
      rewrite lookup_erase_all in Hce'.
      destruct (decide (c ∈ packed_cells st)) as [|Hnp]; [done|].
      rewrite <-Hce'. symmetry. apply Hsame. by rewrite <-Hpacked.
  - intros n ni' Hn'.
    assert (¬ fused_net (sorted (cells ctx0)) n) as Hnf.
    { intros Hf. by rewrite (Hgone n Hf) in Hn'. }
    pose proof (Hnets n Hnf) as Hrel. rewrite Hn' in Hrel.
    inversion Hrel as [ni ? Hr Hni|]; subst. by exists ni.
Qed.

End fusion.

Lemma locations_differ_compatible lb db :
  locations_differ lb db = false ↔ compatible lb db.
Proof.
  unfold locations_differ, compatible.
  destruct lb as [l|], db as [d|]; [|split; auto..].
  rewrite bool_decide_eq_false. split.
  - intros Hnn. right. right. f_equal. by destruct (decide (l = d)).
  - intros [?|[?|[= ->]]] Hne; done.
Qed.

Lemma move_port_lookup_other oc o r rep r' :
  r' ≠ r → cell_ports (move_port oc o r rep) !! r' = cell_ports rep !! r'.
Proof.
  intros Hne. unfold move_port. destruct (cell_ports oc !! o); [|done].
  destruct (cell_ports rep !! r); [|done]. recsimpl. by rewrite lookup_insert_ne.
Qed.

Lemma move_ports_lookup_other oc moves rep r' :
  r' ∉ moves.*2 → cell_ports (move_ports oc moves rep) !! r' = cell_ports rep !! r'.
Proof.
  revert rep. induction moves as [|[o r] moves IH]; intros rep Hr; [done|].
  cbn [move_ports foldl]. cbn [fmap list_fmap snd] in Hr.
  apply not_elem_of_cons in Hr as [Hne Hr]. unfold move_ports in IH.
  rewrite IH by done. by apply move_port_lookup_other.
Qed.

Lemma move_port_lookup_moved oc o r rep old :
  cell_ports oc !! o = Some old → is_Some (cell_ports rep !! r) →
  net_of_port (move_port oc o r rep) r = Some (port_net old).
Proof.
  intros Ho [rp Hr]. unfold net_of_port, move_port. rewrite Ho, Hr. recsimpl.
  by rewrite lookup_insert_eq.
Qed.

Lemma move_ports_params oc moves rep :
  cell_params (move_ports oc moves rep) = cell_params rep.
Proof. by destruct (move_ports_same oc moves rep) as (_ & _ & _ & <-). Qed.

Lemma move_ports_attrs oc moves rep :
  cell_attrs (move_ports oc moves rep) = cell_attrs rep.
Proof. by destruct (move_ports_same oc moves rep) as (_ & _ & <- & _). Qed.

(** the slice of a lookup-table packed on its own: the truth table is taken
    over, the flip-flop half is left alone *)
Lemma lut_alone_content ci :
  let packed := lut_merged ci true (fresh_slice ci) in
  cell_params packed !! id_LUT0_INITVAL
    = Some (default (PropInt 0 16) (cell_params ci !! "INIT")) ∧
  cell_params packed !! "REG0_REGSET" = None ∧
  Forall (λ p, net_of_port packed p = Some None) ["CLK"; "LSR"; "CE"; "DI0"; "Q0"].
Proof.
  cbv zeta. unfold lut_merged. split_and!.
  - destruct (move_port_same ci "Z" id_F0
                (move_ports ci lut_moves
                   (set_cell_params
                      (<[id_LUT0_INITVAL := default (PropInt 0 16) (cell_params ci !! "INIT")]>
                         (cell_params (fresh_slice ci))) (fresh_slice ci))))
      as (_ & _ & _ & <-).
    rewrite move_ports_params. recsimpl. apply lookup_insert_eq.
  - destruct (move_port_same ci "Z" id_F0
                (move_ports ci lut_moves
                   (set_cell_params
                      (<[id_LUT0_INITVAL := default (PropInt 0 16) (cell_params ci !! "INIT")]>
                         (cell_params (fresh_slice ci))) (fresh_slice ci))))
      as (_ & _ & _ & <-).
    rewrite move_ports_params. recsimpl. by rewrite lookup_insert_ne.
  - repeat constructor; unfold net_of_port;
      rewrite move_port_lookup_other by done;
      (rewrite move_ports_lookup_other
         by (unfold lut_moves; cbn [fmap list_fmap snd]; set_solver));
      by vm_compute.
Qed.

(** the slice of a fused pair: the truth table of the lookup-table and the
    output of the flip-flop are both on it *)
Lemma fused_content ctx k ci dffp dffc :
  fused_with ctx k = Some dffp → cells ctx !! dffp = Some dffc →
  let packed := slice_for ctx k ci in
  cell_params packed !! id_LUT0_INITVAL
    = Some (default (PropInt 0 16) (cell_params ci !! "INIT")) ∧
  is_Some (cell_params packed !! "REG0_REGSET") ∧
  (∀ qp, cell_ports dffc !! "Q" = Some qp →
         net_of_port packed "Q0" = Some (port_net qp)).
Proof.
  intros Hf Hd. cbv zeta. unfold slice_for. rewrite Hf. optsimpl. rewrite Hd.
  set (lc := lut_merged ci false (fresh_slice ci)).
  assert (cell_params (dff_merged dffc lc) !! id_LUT0_INITVAL
            = Some (default (PropInt 0 16) (cell_params ci !! "INIT")) ∧
          is_Some (cell_params (dff_merged dffc lc) !! "REG0_REGSET") ∧
          (∀ qp, cell_ports dffc !! "Q" = Some qp →
                 net_of_port (dff_merged dffc lc) "Q0" = Some (port_net qp))) as Hmain.
  { unfold dff_merged. rewrite move_ports_params. recsimpl. split_and!.
    - rewrite lookup_insert_ne by done. unfold lc, lut_merged.
      rewrite move_ports_params. recsimpl. apply lookup_insert_eq.
    - rewrite lookup_insert_eq. by eexists.
    - intros qp Hqp. unfold dff_moves. cbn [move_ports foldl].
      apply move_port_lookup_moved; [done|].
      rewrite !move_port_ports_Some. recsimpl.
      apply lut_merged_ports, fresh_slice_ports. unfold slice_ports.
      cbn [fmap list_fmap fst]. set_solver. }
  destruct (cell_attrs dffc !! id_BEL); [|done]. done.
Qed.

(** the attributes of the slice built for a lookup-table *)
Lemma slice_for_attrs ctx k ci a v :
  cells ctx !! k = Some ci →
  cell_attrs ci !! a = Some v → cell_attrs (slice_for ctx k ci) !! a = Some v.
Proof.
  intros Hk Ha.
  assert (cell_attrs (fresh_slice ci) !! a = Some v) as Hfresh.
  { unfold fresh_slice. recsimpl. apply lookup_union_Some_raw. by right. }
  assert (∀ b, cell_attrs (lut_merged ci b (fresh_slice ci)) !! a = Some v) as Hlut.
  { intros b. unfold lut_merged.
    destruct b.
    - destruct (move_port_same ci "Z" id_F0
                  (move_ports ci lut_moves
                     (set_cell_params
                        (<[id_LUT0_INITVAL := default (PropInt 0 16) (cell_params ci !! "INIT")]>
                           (cell_params (fresh_slice ci))) (fresh_slice ci))))
        as (_ & _ & <- & _).
      by rewrite move_ports_attrs.
    - by rewrite move_ports_attrs. }
  unfold slice_for.
  destruct (fused_with ctx k) as [dffp|] eqn:Hf; optsimpl; [|apply Hlut].
  destruct (cells ctx !! dffp) as [dffc|] eqn:Hd; [|apply Hlut].
  assert (cell_attrs (dff_merged dffc (lut_merged ci false (fresh_slice ci))) !! a
          = Some v) as Hdff.
  { unfold dff_merged. rewrite move_ports_attrs. recsimpl. apply Hlut. }
  destruct (cell_attrs dffc !! id_BEL) as [w|] eqn:Hw; [|done]. recsimpl.
  destruct (decide (a = id_BEL)) as [->|Hne]; [|by rewrite lookup_insert_ne].
  rewrite lookup_insert_eq. f_equal.
  (* both cells carry a constraint and the pair was fused: the two agree *)
  unfold fused_with in Hf. rewrite Hk in Hf. optsimpl.
  destruct (is_lut ci); [|done].
  destruct (candidate ctx k) as [dffp'|]; optsimpl; [|done].
  destruct (cells ctx !! dffp') as [dc|] eqn:Hdc; optsimpl; [|done].
  destruct (locations_differ _ _) eqn:Hloc; [done|].
  injection Hf as ->. assert (dc = dffc) as -> by congruence.
  rewrite Ha, Hw in Hloc. cbn in Hloc. apply bool_decide_eq_false in Hloc.
  by destruct (decide (v = w)).
Qed.

(** the placement of a fused slice is that of its flip-flop *)
Lemma slice_for_bel ctx k ci dffp dffc v :
  fused_with ctx k = Some dffp → cells ctx !! dffp = Some dffc →
  cell_attrs dffc !! id_BEL = Some v →
  cell_attrs (slice_for ctx k ci) !! id_BEL = Some v.
Proof.
  intros Hf Hd Hv. unfold slice_for. rewrite Hf. optsimpl. rewrite Hd, Hv.
  recsimpl. apply lookup_insert_eq.
Qed.

(** *** Passes that find nothing to do *)

Lemma set_cells_same ctx : set_cells (cells ctx) ctx = ctx.
Proof. by destruct ctx. Qed.

Lemma erase_all_empty {V} (m : gmap string V) : erase_all ∅ m = m.
Proof. unfold erase_all. by rewrite elements_empty. Qed.

Lemma for_each_skip {K St} (body : K → St → result St) l st :
  (∀ k, k ∈ l → body k st = Ok st) → for_each body l st = Ok st.
Proof.
  induction l as [|k l IH]; intros Hl; [done|]. cbn [for_each].
  rewrite Hl by (by left). cbn [mbind result_bind bind]. apply IH.
  intros k' Hk'. apply Hl. by right.
Qed.

(** without placeholder cells [pack_io] leaves the netlist as it is *)
Lemma pack_io_nothing ctx :
  (∀ k ci, cells ctx !! k = Some ci → is_nextpnr_iob ci = false) →
  pack_io ctx = Ok ctx.
Proof.
  intros Hno. unfold pack_io. rewrite for_each_skip.
  - cbn [mbind result_bind bind]. by rewrite erase_all_empty, set_cells_same.
  - intros k [ci Hci]%elem_of_sorted. unfold pack_io_body. rewrite Hci.
    by rewrite (Hno k ci Hci).
Qed.

(** without lookup-tables [pack_lut_lutffs] leaves the netlist as it is *)
Lemma pack_lut_lutffs_nothing ctx :
  (∀ k ci, cells ctx !! k = Some ci → is_lut ci = false) →
  pack_lut_lutffs ctx = Ok ctx.
Proof.
  intros Hno. unfold pack_lut_lutffs. rewrite for_each_skip.
  - cbn [mbind result_bind bind l_ctx packed_cells new_cells foldl].
    by rewrite erase_all_empty, set_cells_same.
  - intros k [ci Hci]%elem_of_sorted. unfold pack_lut_lutffs_body.
    cbn [l_ctx]. rewrite Hci. by rewrite (Hno k ci Hci).
Qed.

Lemma pack_io_again ctx ctx1 :
  wf_netlist ctx → pack_io ctx = Ok ctx1 → pack_io ctx1 = Ok ctx1.
Proof.
  intros Hwf Hrun. rewrite (pack_io_spec ctx Hwf) in Hrun. injection Hrun as <-.
  apply pack_io_nothing. intros k ci. recsimpl.
  intros [_ Hno]%map_lookup_filter_Some. cbn [snd] in Hno.
  by destruct (is_nextpnr_iob ci).
Qed.

Lemma pack_lut_lutffs_again ctx ctx1 :
  wf_netlist ctx → luts_have_output ctx → slice_names_free ctx → fused_exclusive ctx →
  pack_lut_lutffs ctx = Ok ctx1 → pack_lut_lutffs ctx1 = Ok ctx1.
Proof.
  intros Hwf HZ Hfree Hexcl Hrun.
  destruct (pack_lut_lutffs_cells ctx Hwf HZ Hfree Hexcl ctx1 Hrun)
    as (_ & _ & _ & Hnolut & _).
  apply pack_lut_lutffs_nothing. intros k ci Hci. by apply (Hnolut k).
Qed.

(** ** Part IV: the statements of the design document *)

(** *** Binding *)

Section binding.
Import Chipdb Binding Examples.

(** C1: binding a valid site that already has an occupant ends in a
    programmer error and leaves the binding state as it was: the occupant of
    the site is still the cell that held it, and the recorded location of
    that cell is unchanged. *)
Theorem bindBel_bound_unchanged chip st bel c s0 x s :
  valid_bel chip bel = true →
  bel_occupant st !! bel = Some (c, s0) →
  ∃ st', bindBel chip st bel x s = ProgrammerError st' ∧
         getBoundBelCell st' bel = Some c ∧
         bel_occupant st' = bel_occupant st ∧
         cell_location st' = cell_location st.
Proof.
  intros Hvalid Hocc. exists st. unfold bindBel, getBoundBelCell.
  rewrite Hvalid, Hocc. done.
Qed.

Lemma bindBel_bound_unchanged_witness :
  ∃ st', bindBel small_chip one_bound first_site "d" STRENGTH_PLACER = ProgrammerError st' ∧
         getBoundBelCell st' first_site = Some "c" ∧
         bel_occupant st' = bel_occupant one_bound ∧
         cell_location st' = cell_location one_bound.
Proof.
  apply (bindBel_bound_unchanged small_chip one_bound first_site "c" STRENGTH_USER).
  - vm_compute. reflexivity.
  - vm_compute. reflexivity.
Defined.

End binding.

(** *** The driver *)

Lemma mbind_Ok {A B} (a : A) (k : A → result B) : Ok a ≫= k = k a.
Proof. done. Qed.

(** C7: when a pass raises the recoverable execution failure, [pack]
    returns [false] with the netlist as the pass left it; when no pass raises
    it, [pack] returns [true]; any other exception of a pass, a failed
    assertion among them, leaves [pack] uncaught. *)
Theorem pack_catches_execution_error p1 p2 p3 a ctx :
  let done_ ctx3 := set_settings (<["pack" := PropInt 1 32]> (settings ctx3)) ctx3 in
  Arch_pack a ctx = pack_pipeline pack_constants pack_io pack_lut_lutffs a ctx ∧
  (∀ c, p1 ctx = Throw log_execution_error_exception c →
        pack_pipeline p1 p2 p3 a ctx = Ok (false, c)) ∧
  (∀ c1 c, p1 ctx = Ok c1 → p2 c1 = Throw log_execution_error_exception c →
        pack_pipeline p1 p2 p3 a ctx = Ok (false, c)) ∧
  (∀ c1 c2 c, p1 ctx = Ok c1 → p2 c1 = Ok c2 →
        p3 c2 = Throw log_execution_error_exception c →
        pack_pipeline p1 p2 p3 a ctx = Ok (false, c)) ∧
  (∀ c1 c2 c3 c, p1 ctx = Ok c1 → p2 c1 = Ok c2 → p3 c2 = Ok c3 →
        a (done_ c3) = Throw log_execution_error_exception c →
        pack_pipeline p1 p2 p3 a ctx = Ok (false, c)) ∧
  (∀ c1 c2 c3 c, p1 ctx = Ok c1 → p2 c1 = Ok c2 → p3 c2 = Ok c3 →
        a (done_ c3) = Ok c →
        pack_pipeline p1 p2 p3 a ctx = Ok (true, c)) ∧
  (∀ e c, e ≠ log_execution_error_exception →
        (p1 ctx = Throw e c ∨
         (∃ c1, p1 ctx = Ok c1 ∧ p2 c1 = Throw e c) ∨
         (∃ c1 c2, p1 ctx = Ok c1 ∧ p2 c1 = Ok c2 ∧ p3 c2 = Throw e c) ∨
         (∃ c1 c2 c3, p1 ctx = Ok c1 ∧ p2 c1 = Ok c2 ∧ p3 c2 = Ok c3 ∧
                      a (done_ c3) = Throw e c)) →
        pack_pipeline p1 p2 p3 a ctx = Throw e c).
Proof.
  cbv zeta. unfold pack_pipeline. split_and!.
  - done.
  - by intros c ->.
  - intros c1 c H1 H2. by rewrite H1, mbind_Ok, H2.
  - intros c1 c2 c H1 H2 H3. by rewrite H1, mbind_Ok, H2, mbind_Ok, H3.
  - intros c1 c2 c3 c H1 H2 H3 Ha.
    by rewrite H1, mbind_Ok, H2, mbind_Ok, H3, mbind_Ok, Ha.
  - intros c1 c2 c3 c H1 H2 H3 Ha.
    by rewrite H1, mbind_Ok, H2, mbind_Ok, H3, mbind_Ok, Ha.
  - intros e c He [H1|[(c1 & H1 & H2)|[(c1 & c2 & H1 & H2 & H3)|
                                        (c1 & c2 & c3 & H1 & H2 & H3 & Ha)]]];
      rewrite H1, ?mbind_Ok, ?H2, ?mbind_Ok, ?H3, ?mbind_Ok, ?Ha; by destruct e.
Qed.

(** *** Reproducibility *)

(** the walk of a pass is all a pass takes from the order of a map *)
Lemma pack_constants_by_ext o1 o2 ctx :
  (∀ (V : Type) (m : gmap string V), o1 V m = o2 V m) →
  pack_constants_by o1 ctx = pack_constants_by o2 ctx.
Proof. intros H. unfold pack_constants_by. by rewrite H. Qed.

Lemma pack_io_by_ext o1 o2 ctx :
  (∀ (V : Type) (m : gmap string V), o1 V m = o2 V m) →
  pack_io_by o1 ctx = pack_io_by o2 ctx.
Proof. intros H. unfold pack_io_by. by rewrite H. Qed.

Lemma pack_lut_lutffs_by_ext o1 o2 ctx :
  (∀ (V : Type) (m : gmap string V), o1 V m = o2 V m) →
  pack_lut_lutffs_by o1 ctx = pack_lut_lutffs_by o2 ctx.
Proof. intros H. unfold pack_lut_lutffs_by. by rewrite H. Qed.

Lemma Arch_pack_by_ext o1 o2 a ctx :
  (∀ (V : Type) (m : gmap string V), o1 V m = o2 V m) →
  Arch_pack_by o1 a ctx = Arch_pack_by o2 a ctx.
Proof.
  intros H. unfold Arch_pack_by, pack_pipeline. f_equal.
  rewrite (pack_constants_by_ext o1 o2 ctx H).
  destruct (pack_constants_by o2 ctx) as [ctx1|]; [|reflexivity].
  rewrite !mbind_Ok. rewrite (pack_io_by_ext o1 o2 ctx1 H).
  destruct (pack_io_by o2 ctx1) as [ctx2|]; [|reflexivity].
  rewrite !mbind_Ok. by rewrite (pack_lut_lutffs_by_ext o1 o2 ctx2 H).
Qed.

Section walks.
Context (le : relation IdString) `{!RelDecision le, !PartialOrder le, !Total le}.

Lemma sorted_by_StronglySorted lay (V : Type) (m : gmap string V) :
  StronglySorted le (sorted_by le lay V m).
Proof. apply StronglySorted_merge_sort; apply _. Qed.

Lemma sorted_by_Permutation lay (V : Type) (m : gmap string V) :
  lays_out lay → sorted_by le lay V m ≡ₚ keys V m.
Proof. intros Hlay. unfold sorted_by. by rewrite merge_sort_Permutation. Qed.

Lemma elem_of_keys (V : Type) (m : gmap string V) k : k ∈ keys V m ↔ is_Some (m !! k).
Proof.
  unfold keys. rewrite list_elem_of_fmap. split.
  - intros ([k' v] & -> & Hkv). apply elem_of_map_to_list in Hkv. by exists v.
  - intros [v Hv]. exists (k, v). split; [done|]. by apply elem_of_map_to_list.
Qed.

Lemma NoDup_keys (V : Type) (m : gmap string V) : NoDup (keys V m).
Proof. apply NoDup_fst_map_to_list. Qed.

(** two layouts of one map are sorted into one walk: a list that ascends
    along an order is settled by its elements *)
Lemma sorted_by_layout lay1 lay2 (V : Type) (m : gmap string V) :
  lays_out lay1 → lays_out lay2 → sorted_by le lay1 V m = sorted_by le lay2 V m.
Proof.
  intros H1 H2. apply (Sorted_unique_strong le).
  - intros x y _ _. apply (anti_symm le).
  - apply StronglySorted_Sorted, sorted_by_StronglySorted.
  - apply StronglySorted_Sorted, sorted_by_StronglySorted.
  - by rewrite !sorted_by_Permutation.
Qed.

End walks.

Section reproducible.
Import Examples.

(** without [sorted] the walk would be that of the map, and the outcome of
    a pass would follow it: the net of the ground collects the users of
    [three_grounds] in the order in which the nets come *)
Lemma unsorted_walk_follows_layout :
  lays_out keys ∧ lays_out (λ V m, reverse (keys V m)) ∧
  pack_constants_by keys three_grounds ≠
  pack_constants_by (λ V m, reverse (keys V m)) three_grounds.
Proof.
  split; [intros V m; reflexivity|]. split; [intros V m; apply reverse_Permutation|].
  intros Heq.
  apply (f_equal (λ r, match r with
                       | Ok c => net_users <$> nets c !! "$PACKER_GND_NET"
                       | Throw _ _ => None
                       end)) in Heq.
  vm_compute in Heq. discriminate Heq.
Qed.



End reproducible.

(** *** Enumeration of the sites *)

Section sites.
Import Chipdb Examples.
Local Open Scope Z_scope.

(** C9: with the iterator given room to run, [getBels] yields the sites in
    the canonical order, rows by ascending y, within a row by ascending x,
    within the tile at index [y * width + x] by ascending local index; they
    are as many as the site counts of all tiles together, no identifier comes
    twice, and every identifier leads back through [tileInfo] to the tile and
    the record it was read from. *)
Theorem getBels_canonical_order chip fuel :
  wf_chip chip → (Z.to_nat (total_bels chip) < fuel)%nat →
  enumerate_bels fuel chip = Some (canonical_bels chip) ∧
  Z.of_nat (length (canonical_bels chip)) = total_bels chip ∧
  NoDup (canonical_bels chip) ∧
  ∀ bel, bel ∈ canonical_bels chip →
    ∃ tile rec,
      rel_index (tiles chip) (y (location bel) * width chip + x (location bel))
        = Some tile ∧
      0 ≤ x (location bel) < width chip ∧ 0 ≤ y (location bel) < height chip ∧
      tileInfo chip bel = Some tile ∧
      0 ≤ index bel < num_bels tile ∧
      rel_index (bel_data tile) (index bel) = Some rec ∧
      bel_record chip bel = Some rec.
Proof.
  intros Hwf Hfuel.
  pose proof (tiles_from_canonical chip Hwf) as Hcan.
  pose proof (tiles_from_length chip Hwf) as Hlen.
  split_and!.
  - unfold enumerate_bels.
    destruct (getBels_spec chip Hwf) as (b0 & -> & Hrem & Hset). cbn.
    rewrite (for_range_spec chip Hwf fuel b0 Hset).
    + by rewrite Hrem, Hcan.
    + rewrite Hrem. lia.
  - by rewrite <-Hcan.
  - rewrite <-Hcan. by apply tiles_from_NoDup.
  - intros bel Hbel. rewrite <-Hcan in Hbel.
    pose proof Hbel as Hti. apply (elem_of_tiles_from chip) in Hti.
    destruct Hti as (t & i & -> & Ht & Hi).
    destruct (tiles_from_round_trip chip Hwf _ Hbel)
      as (t' & tile & rec & Htile & Hx & Hy & Hinfo & Hrec & Hbr).
    pose proof (width_pos chip Hwf t Ht) as Hw.
    destruct Hwf as (_ & _ & Hn & _).
    exists tile, rec. cbn [location x y index bel_at] in *.
    assert (t' = t) as ->.
    { pose proof (Z.div_mod t (width chip)). pose proof (Z.div_mod t' (width chip)).
      lia. }
    split_and!; try done.
    all: pose proof (Z.mod_pos_bound t (width chip) Hw);
      unfold tile_bel_count in Hi; rewrite Htile in Hi; cbn in Hi; try lia.
    + apply Z.div_pos; lia.
    + apply Z.div_lt_upper_bound; lia.
Qed.

Lemma getBels_canonical_order_witness :
  enumerate_bels 7 small_chip = Some (canonical_bels small_chip) ∧
  Z.of_nat (length (canonical_bels small_chip)) = total_bels small_chip ∧
  NoDup (canonical_bels small_chip) ∧
  ∀ bel, bel ∈ canonical_bels small_chip →
    ∃ tile rec,
      rel_index (tiles small_chip)
        (y (location bel) * width small_chip + x (location bel)) = Some tile ∧
      0 ≤ x (location bel) < width small_chip ∧
      0 ≤ y (location bel) < height small_chip ∧
      tileInfo small_chip bel = Some tile ∧
      0 ≤ index bel < num_bels tile ∧
      rel_index (bel_data tile) (index bel) = Some rec ∧
      bel_record small_chip bel = Some rec.
Proof.
  apply (getBels_canonical_order small_chip 7).
  - unfold wf_chip, wf_tile. vm_compute.
    repeat split; try discriminate; repeat constructor; discriminate.
  - vm_compute. lia.
Defined.

End sites.

(** *** The elision of the IO buffers *)

Section io.
Import Examples.

(** C8: [pack_io] returns; it deletes every placeholder buffer and no other
    cell, leaves every other cell as it was and adds no cell; every net stays,
    with the references to the ports of the placeholders taken out of its
    driver and its users, so that no net refers to a deleted cell, and a net
    may stay behind without a driver or without users. *)
Theorem pack_io_elides_placeholders ctx :
  wf_netlist ctx →
  ∃ ctx', pack_io ctx = Ok ctx' ∧
    (∀ k ci, cells ctx !! k = Some ci → is_nextpnr_iob ci → cells ctx' !! k = None) ∧
    (∀ k ci, cells ctx !! k = Some ci → ¬ is_nextpnr_iob ci →
             cells ctx' !! k = Some ci) ∧
    (∀ k, cells ctx !! k = None → cells ctx' !! k = None) ∧
    (∀ n, nets ctx' !! n = sever_iob ctx <$> nets ctx !! n) ∧
    (∀ n ni u, nets ctx' !! n = Some ni → u ∈ net_driver ni :: net_users ni →
               ∀ c, ref_cell u = Some c →
                    ∃ ci, cells ctx' !! c = Some ci ∧ ¬ is_nextpnr_iob ci) ∧
    settings ctx' = settings ctx.
Proof.
  intros Hwf. eexists. split; [by apply pack_io_spec|]. recsimpl.
  assert (∀ n ni u c, nets ctx !! n = Some ni → u ∈ net_driver ni :: net_users ni →
                      ref_cell u = Some c → is_Some (cells ctx !! c)) as Hrefs.
  { intros n ni u c Hn Hu Hc. destruct Hwf as (_ & _ & Hwfn).
    destruct (Hwfn n ni Hn) as [Hdrv Hus]. rewrite Forall_forall in Hus.
    assert (ref_on_port ctx n u) as Hon.
    { apply elem_of_cons in Hu as [->|Hu]; auto. }
    unfold ref_on_port in Hon. rewrite Hc in Hon.
    destruct (cells ctx !! c); [by eexists|done]. }
  split_and!; try done.
  - intros k ci Hk Hiob. apply map_lookup_filter_None. right.
    intros ci' Hk'. cbn [snd]. assert (ci' = ci) as -> by congruence. by intros [].
  - intros k ci Hk Hno. apply map_lookup_filter_Some. done.
  - intros k Hk. apply map_lookup_filter_None. by left.
  - intros n. by rewrite lookup_fmap.
  - intros n ni' u. rewrite lookup_fmap.
    destruct (nets ctx !! n) as [ni|] eqn:Hn; optsimpl; [|done].
    intros [= <-] Hu c Hc.
    assert (ref_is_iob ctx u = false ∧ u ∈ net_driver ni :: net_users ni) as [Hno Hin].
    { unfold sever_iob in Hu.
      destruct (ref_is_iob ctx (net_driver ni)) eqn:Hd; recsimpl;
        apply elem_of_cons in Hu as [->|Hu].
      - done.
      - apply list_elem_of_filter in Hu as [Hno Hu].
        split; [by destruct (ref_is_iob ctx u)|by right].
      - split; [done|by left].
      - apply list_elem_of_filter in Hu as [Hno Hu].
        split; [by destruct (ref_is_iob ctx u)|by right]. }
    destruct (Hrefs n ni u c Hn Hin Hc) as [ci Hci]. exists ci.
    unfold ref_is_iob, cell_is_iob in Hno. rewrite Hc, Hci in Hno.
    split; [|by rewrite Hno; intros []].
    apply map_lookup_filter_Some. split; [done|]. cbn [snd]. rewrite Hno. by intros [].
Qed.

Lemma pack_io_elides_placeholders_witness :
  ∃ ctx', pack_io buffered = Ok ctx' ∧
    (∀ k ci, cells buffered !! k = Some ci → is_nextpnr_iob ci →
             cells ctx' !! k = None) ∧
    (∀ k ci, cells buffered !! k = Some ci → ¬ is_nextpnr_iob ci →
             cells ctx' !! k = Some ci) ∧
    (∀ k, cells buffered !! k = None → cells ctx' !! k = None) ∧
    (∀ n, nets ctx' !! n = sever_iob buffered <$> nets buffered !! n) ∧
    (∀ n ni u, nets ctx' !! n = Some ni → u ∈ net_driver ni :: net_users ni →
               ∀ c, ref_cell u = Some c →
                    ∃ ci, cells ctx' !! c = Some ci ∧ ¬ is_nextpnr_iob ci) ∧
    settings ctx' = settings buffered.
Proof.
  apply (pack_io_elides_placeholders buffered).
  apply (bool_decide_unpack _). vm_compute. exact I.
Defined.

End io.

(** *** The packing of the constants *)

Section constants.
Import Examples.


End constants.

(** *** Running a pass again *)

Section again.
Import Examples.

(** C5, as the claim states it, fails: run on its own output, the packing of
    the constants returns a netlist that differs from its input, the ground
    net has lost the four users it had. *)
Lemma pack_constants_not_idempotent :
  ∃ ctx1 ctx2,
    pack_constants three_grounds = Ok ctx1 ∧ pack_constants ctx1 = Ok ctx2 ∧
    ctx2 ≠ ctx1 ∧
    length <$> (net_users <$> nets ctx1 !! "$PACKER_GND_NET") = Some 4%nat ∧
    length <$> (net_users <$> nets ctx2 !! "$PACKER_GND_NET") = Some 0%nat.
Proof.
  destruct (pack_constants three_grounds) as [ctx1|] eqn:H1; [|by vm_compute in H1].
  destruct (pack_constants ctx1) as [ctx2|] eqn:H2.
  2:{ vm_compute in H1. injection H1 as <-. by vm_compute in H2. }
  exists ctx1, ctx2. split; [done|]. split; [done|].
  assert (length <$> (net_users <$> nets ctx1 !! "$PACKER_GND_NET") = Some 4%nat) as Hu1.
  { vm_compute in H1. injection H1 as <-. by vm_compute. }
  assert (length <$> (net_users <$> nets ctx2 !! "$PACKER_GND_NET") = Some 0%nat) as Hu2.
  { vm_compute in H1. injection H1 as <-. vm_compute in H2. injection H2 as <-.
    by vm_compute. }
  split_and!; [|done|done]. intros ->. rewrite Hu1 in Hu2. discriminate.
Qed.

(** C5 (amended): on a well-formed netlist the elision of the IO buffers and
    the fusion each return, and return their own output unchanged when they
    are run on it; the packing of the constants, run on its own output, keeps
    the cells, the settings, the names of the nets and every net but its two
    constant nets, which it builds anew without users. *)
Theorem passes_run_again ctx :
  wf_netlist ctx →
  (∃ ctx1, pack_io ctx = Ok ctx1 ∧ pack_io ctx1 = Ok ctx1) ∧
  (luts_have_output ctx → slice_names_free ctx → fused_exclusive ctx →
   ∃ ctx1, pack_lut_lutffs ctx = Ok ctx1 ∧ pack_lut_lutffs ctx1 = Ok ctx1) ∧
  (const_cells_single_pin ctx → reserved_free ctx →
   ∃ ctx1 ctx2,
     pack_constants ctx = Ok ctx1 ∧ pack_constants ctx1 = Ok ctx2 ∧
     cells ctx2 = cells ctx1 ∧ settings ctx2 = settings ctx1 ∧
     (∀ n, is_Some (nets ctx2 !! n) ↔ is_Some (nets ctx1 !! n)) ∧
     (∀ n, n ≠ "$PACKER_GND_NET" → n ≠ "$PACKER_VCC_NET" →
           nets ctx2 !! n = nets ctx1 !! n) ∧
     nets ctx2 !! "$PACKER_GND_NET" = Some (new_gnd_net the_const_cell) ∧
     nets ctx2 !! "$PACKER_VCC_NET" = Some (new_vcc_net the_const_cell) ∧
     net_users (new_gnd_net the_const_cell) = [] ∧
     net_users (new_vcc_net the_const_cell) = []).
Proof.
  intros Hwf. split_and!.
  - eexists. split; [by apply pack_io_spec|].
    eapply pack_io_again; [done|]. by apply pack_io_spec.
  - intros HZ Hfree Hexcl.
    destruct (pack_lut_lutffs_run ctx Hwf HZ Hfree Hexcl) as (st & _ & Hrun).
    eexists. split; [exact Hrun|]. by eapply pack_lut_lutffs_again.
  - intros Hpin Hres.
    destruct (pack_constants_const_nets ctx Hwf Hpin Hres)
      as (ctx1 & gnd & vcc & Hrun & Hg & Hv).
    exists ctx1. eexists. split; [done|].
    split; [by eapply pack_constants_again|]. recsimpl. split_and!; try done.
    + intros n. destruct (decide (n = "$PACKER_VCC_NET")) as [->|Hn1].
      { rewrite lookup_insert_eq, Hv. split; by eexists. }
      rewrite lookup_insert_ne by done.
      destruct (decide (n = "$PACKER_GND_NET")) as [->|Hn2].
      { rewrite lookup_insert_eq, Hg. split; by eexists. }
      by rewrite lookup_insert_ne.
    + intros n Hn1 Hn2. by rewrite !lookup_insert_ne.
    + by rewrite lookup_insert_ne, lookup_insert_eq.
    + by rewrite lookup_insert_eq.
Qed.

Lemma passes_run_again_witness :
  (∃ ctx1, pack_io three_grounds = Ok ctx1 ∧ pack_io ctx1 = Ok ctx1) ∧
  (∃ ctx1, pack_lut_lutffs three_grounds = Ok ctx1 ∧ pack_lut_lutffs ctx1 = Ok ctx1) ∧
  (∃ ctx1 ctx2,
     pack_constants three_grounds = Ok ctx1 ∧ pack_constants ctx1 = Ok ctx2 ∧
     cells ctx2 = cells ctx1 ∧ settings ctx2 = settings ctx1 ∧
     (∀ n, is_Some (nets ctx2 !! n) ↔ is_Some (nets ctx1 !! n)) ∧
     (∀ n, n ≠ "$PACKER_GND_NET" → n ≠ "$PACKER_VCC_NET" →
           nets ctx2 !! n = nets ctx1 !! n) ∧
     nets ctx2 !! "$PACKER_GND_NET" = Some (new_gnd_net the_const_cell) ∧
     nets ctx2 !! "$PACKER_VCC_NET" = Some (new_vcc_net the_const_cell) ∧
     net_users (new_gnd_net the_const_cell) = [] ∧
     net_users (new_vcc_net the_const_cell) = []).
Proof.
  assert (wf_netlist three_grounds) as Hwf.
  { apply (bool_decide_unpack _). vm_compute. exact I. }
  destruct (passes_run_again three_grounds Hwf) as (Hio & Hlut & Hconst).
  split; [exact Hio|]. split.
  - apply Hlut; apply (bool_decide_unpack _); vm_compute; exact I.
  - apply Hconst; apply (bool_decide_unpack _); vm_compute; exact I.
Defined.

End again.

(** *** The fusion of lookup-tables and flip-flops *)

Section fusion_facts.
Context (ctx : Context) (Hwf : wf_netlist ctx) (Hexcl : fused_exclusive ctx).

(** the net on the output of a lookup-table is erased only when that
    lookup-table is fused *)
Lemma fused_net_owner k on :
  z_net ctx k = Some on → fused_net ctx (sorted (cells ctx)) on →
  is_Some (fused_with ctx k).
Proof.
  intros Hz (k' & d' & _ & Hf & Hz').
  apply z_net_Some in Hz as (ci & zp & Hci & Hzp & Hon).
  destruct (wf_port_net ctx Hwf k ci "Z" zp on Hci Hzp Hon) as (ni & Hni & Hport).
  destruct (port_on_fused_net ctx Hwf Hexcl k' d' on ni k "Z" Hf Hz' Hni Hport)
    as [[-> _]|[_ ?]]; [by eexists|done].
Qed.

(** the flip-flop found on the output of a lookup-table is dropped only
    when it is fused with that lookup-table *)
Lemma touched_candidate k dffp :
  candidate ctx k = Some dffp → touched ctx (sorted (cells ctx)) dffp →
  fused_with ctx k = Some dffp.
Proof.
  intros Hc Ht.
  pose proof Hc as (on & ni & dc & Hz & Hni & Hu & Hdc & Hff)%candidate_Some.
  apply (touched_all ctx) in Ht as [(ci & Hci & Hl)|(k' & Hf)].
  { assert (ci = dc) as -> by congruence. by destruct (is_lut_not_ff dc). }
  pose proof Hf as (ci' & dc' & _ & _ & Hc' & _)%fused_with_Some.
  apply candidate_Some in Hc' as (on' & ni' & _ & Hz' & Hni' & Hu' & _).
  destruct (wf_net_port ctx Hwf on ni dffp "DI" Hni) as (ce & pi & Hce & Hpi & Hpn);
    [by right|].
  destruct (wf_net_port ctx Hwf on' ni' dffp "DI" Hni') as (ce' & pi' & Hce' & Hpi' & Hpn');
    [by right|].
  assert (on' = on) as -> by congruence.
  destruct (fused_net_owner k on Hz) as [d Hd].
  { exists k', dffp. split; [|done]. apply elem_of_sorted.
    apply fused_with_Some in Hf as (? & ? & ? & _). by eexists. }
  rewrite Hd. f_equal.
  apply fused_with_Some in Hd as (? & ? & _ & _ & Hcd & _). congruence.
Qed.

End fusion_facts.

Section fusion_claims.
Import Examples.

(** C3: for a lookup-table and the flip-flop found through the data pin on
    its output net, the pair is fused exactly when the placement constraints
    agree: none on either cell, one on one cell only, or the same on both.
    When they agree, the slice holds the truth table of the lookup-table and
    the output of the flip-flop, both cells are gone and so is the net
    between them.  When they do not, the slice holds the lookup-table alone,
    its flip-flop pins unconnected, and the flip-flop and the net stay as
    they were. *)
Theorem lut_ff_fusion_rule ctx k ci dffp dffc on :
  wf_netlist ctx → luts_have_output ctx → slice_names_free ctx → fused_exclusive ctx →
  cells ctx !! k = Some ci → is_lut ci →
  candidate ctx k = Some dffp → cells ctx !! dffp = Some dffc →
  z_net ctx k = Some on →
  let lut_bel := cell_attrs ci !! id_BEL in
  let dff_bel := cell_attrs dffc !! id_BEL in
  (locations_differ lut_bel dff_bel = false ↔ compatible lut_bel dff_bel) ∧
  ∃ ctx' packed,
    pack_lut_lutffs ctx = Ok ctx' ∧
    cells ctx' !! (k +:+ "_LC") = Some packed ∧
    cell_type packed = id_FACADE_SLICE ∧
    cell_params packed !! id_LUT0_INITVAL
      = Some (default (PropInt 0 16) (cell_params ci !! "INIT")) ∧
    cells ctx' !! k = None ∧
    (compatible lut_bel dff_bel →
       cells ctx' !! dffp = None ∧ nets ctx' !! on = None ∧
       is_Some (cell_params packed !! "REG0_REGSET") ∧
       ∀ qp, cell_ports dffc !! "Q" = Some qp →
             net_of_port packed "Q0" = Some (port_net qp)) ∧
    (¬ compatible lut_bel dff_bel →
       cells ctx' !! dffp = Some dffc ∧ is_Some (nets ctx' !! on) ∧
       cell_params packed !! "REG0_REGSET" = None ∧
       Forall (λ p, net_of_port packed p = Some None)
         ["CLK"; "LSR"; "CE"; "DI0"; "Q0"]).
Proof.
  intros Hwf HZ Hfree Hexcl Hci Hlut Hcand Hdffc Hz. cbv zeta.
  split; [apply locations_differ_compatible|].
  destruct (pack_lut_lutffs_run ctx Hwf HZ Hfree Hexcl) as (st & _ & Hrun).
  destruct (pack_lut_lutffs_cells ctx Hwf HZ Hfree Hexcl _ Hrun)
    as (Hslice & Hgone & Hkept & _ & Hnet_gone & Hnet_kept & _).
  assert (fused_with ctx k =
          if locations_differ (cell_attrs ci !! id_BEL) (cell_attrs dffc !! id_BEL)
          then None else Some dffp) as Hfw.
  { unfold fused_with. rewrite Hci. optsimpl. destruct (is_lut ci); [|done].
    rewrite Hcand. optsimpl. rewrite Hdffc. optsimpl. done. }
  assert (is_Some (nets ctx !! on)) as Hon.
  { apply candidate_Some in Hcand as (on' & ni & _ & Hz' & Hni & _).
    assert (on' = on) as -> by congruence. by eexists. }
  eexists _, (slice_for ctx k ci). split; [exact Hrun|].
  split; [by apply Hslice|]. split; [apply slice_for_type|].
  assert (touched ctx (sorted (cells ctx)) k) as Htk.
  { apply (touched_all ctx). left. eauto. }
  destruct (locations_differ _ _) eqn:Hloc.
  - (* the constraints differ *)
    assert (¬ compatible (cell_attrs ci !! id_BEL) (cell_attrs dffc !! id_BEL)) as Hnc.
    { intros Hc%locations_differ_compatible. congruence. }
    assert (slice_for ctx k ci = lut_merged ci true (fresh_slice ci)) as ->.
    { unfold slice_for. by rewrite Hfw. }
    destruct (lut_alone_content ci) as (Hinit & Hreg & Hpins).
    split; [done|]. split; [by apply Hgone|]. split; [done|]. intros _.
    split_and!; try done.
    + apply Hkept; [done|]. intros Ht.
      pose proof (touched_candidate ctx Hwf Hexcl k dffp Hcand Ht). congruence.
    + apply Hnet_kept; [|done]. intros Hf.
      destruct (fused_net_owner ctx Hwf Hexcl k on Hz Hf) as [? ?]. congruence.
  - (* the constraints agree *)
    assert (compatible (cell_attrs ci !! id_BEL) (cell_attrs dffc !! id_BEL)) as Hc.
    { by apply locations_differ_compatible. }
    destruct (fused_content ctx k ci dffp dffc Hfw Hdffc) as (Hinit & Hreg & Hq).
    split; [done|]. split; [by apply Hgone|]. split; [|done]. intros _.
    split_and!; try done.
    + apply Hgone, (touched_all ctx). right. by exists k.
    + apply Hnet_gone. exists k, dffp. split; [|done].
      apply elem_of_sorted. by eexists.
Qed.

Lemma lut_ff_fusion_rule_witness :
  let ci := mkcell "l2" "LUT4" [("A", PORT_IN, Some "a"); ("Z", PORT_OUT, Some "n2")]
              [("BEL", PropString "X1/Y1/SLICEA")] in
  let dffc := mkcell "f2" "FACADE_FF"
                [("DI", PORT_IN, Some "n2"); ("CLK", PORT_IN, Some "clk");
                 ("Q", PORT_OUT, Some "q2")]
                [("BEL", PropString "X2/Y2/SLICEB")] in
  ¬ compatible (cell_attrs ci !! id_BEL) (cell_attrs dffc !! id_BEL) ∧
  ∃ ctx' packed,
    pack_lut_lutffs two_pairs = Ok ctx' ∧
    cells ctx' !! "l2_LC" = Some packed ∧
    cells ctx' !! "l2" = None ∧
    cells ctx' !! "f2" = Some dffc ∧ is_Some (nets ctx' !! "n2").
Proof.
  cbv zeta.
  assert (¬ compatible (Some (PropString "X1/Y1/SLICEA"))
                       (Some (PropString "X2/Y2/SLICEB"))) as Hnc.
  { intros [?|[?|?]]; discriminate. }
  split; [exact Hnc|].
  destruct (lut_ff_fusion_rule two_pairs "l2"
              (mkcell "l2" "LUT4" [("A", PORT_IN, Some "a"); ("Z", PORT_OUT, Some "n2")]
                 [("BEL", PropString "X1/Y1/SLICEA")])
              "f2"
              (mkcell "f2" "FACADE_FF"
                 [("DI", PORT_IN, Some "n2"); ("CLK", PORT_IN, Some "clk");
                  ("Q", PORT_OUT, Some "q2")]
                 [("BEL", PropString "X2/Y2/SLICEB")])
              "n2")
    as (_ & ctx' & packed & Hrun & Hslice & _ & _ & Hk & _ & Halone).
  - apply (bool_decide_unpack _). vm_compute. exact I.
  - apply (bool_decide_unpack _). vm_compute. exact I.
  - apply (bool_decide_unpack _). vm_compute. exact I.
  - apply (bool_decide_unpack _). vm_compute. exact I.
  - vm_compute. reflexivity.
  - vm_compute. exact I.
  - vm_compute. reflexivity.
  - vm_compute. reflexivity.
  - vm_compute. reflexivity.
  - exists ctx', packed. destruct (Halone Hnc) as (Hff & Hnet & _).
    split_and!; done.
Defined.

(** C10: the slice built for a lookup-table is stored under the name of the
    lookup-table followed by [_LC] and bears that name; every attribute of
    the lookup-table is an attribute of the slice, with the same value; and
    when a flip-flop is fused that has a [BEL] attribute, the [BEL] attribute
    of the slice has the value of the flip-flop. *)
Theorem slice_name_and_attrs ctx k ci :
  wf_netlist ctx → luts_have_output ctx → slice_names_free ctx → fused_exclusive ctx →
  cells ctx !! k = Some ci → is_lut ci →
  ∃ ctx' packed,
    pack_lut_lutffs ctx = Ok ctx' ∧
    cells ctx' !! (cell_name ci +:+ "_LC") = Some packed ∧
    cell_name packed = cell_name ci +:+ "_LC" ∧
    (∀ a v, cell_attrs ci !! a = Some v → cell_attrs packed !! a = Some v) ∧
    (∀ dffp dffc v,
       fused_with ctx k = Some dffp → cells ctx !! dffp = Some dffc →
       cell_attrs dffc !! id_BEL = Some v →
       cells ctx' !! dffp = None ∧ cell_attrs packed !! id_BEL = Some v).
Proof.
  intros Hwf HZ Hfree Hexcl Hci Hlut.
  destruct (pack_lut_lutffs_run ctx Hwf HZ Hfree Hexcl) as (st & _ & Hrun).
  destruct (pack_lut_lutffs_cells ctx Hwf HZ Hfree Hexcl _ Hrun)
    as (Hslice & Hgone & _).
  eexists _, (slice_for ctx k ci). split; [exact Hrun|].
  rewrite (wf_cell_name ctx Hwf k ci Hci). split_and!.
  - by apply Hslice.
  - by rewrite slice_for_name, (wf_cell_name ctx Hwf k ci Hci).
  - intros a v. by apply slice_for_attrs.
  - intros dffp dffc v Hf Hd Hv. split.
    + apply Hgone, (touched_all ctx). right. by exists k.
    + by eapply slice_for_bel.
Qed.

Lemma slice_name_and_attrs_witness :
  let ci := mkcell "l3" "LUT4" [("A", PORT_IN, Some "a"); ("Z", PORT_OUT, Some "n3")] [] in
  fused_with two_pairs "l3" = Some "f3" ∧
  ∃ ctx' packed,
    pack_lut_lutffs two_pairs = Ok ctx' ∧
    cells ctx' !! "l3_LC" = Some packed ∧
    cell_name packed = "l3_LC" ∧
    cells ctx' !! "f3" = None ∧
    cell_attrs packed !! id_BEL = Some (PropString "X3/Y3/SLICEC").
Proof.
  cbv zeta.
  assert (fused_with two_pairs "l3" = Some "f3") as Hf by (vm_compute; reflexivity).
  split; [exact Hf|].
  destruct (slice_name_and_attrs two_pairs "l3"
              (mkcell "l3" "LUT4" [("A", PORT_IN, Some "a"); ("Z", PORT_OUT, Some "n3")] []))
    as (ctx' & packed & Hrun & Hslice & Hname & _ & Hbel).
  - apply (bool_decide_unpack _). vm_compute. exact I.
  - apply (bool_decide_unpack _). vm_compute. exact I.
  - apply (bool_decide_unpack _). vm_compute. exact I.
  - apply (bool_decide_unpack _). vm_compute. exact I.
  - vm_compute. reflexivity.
  - vm_compute. exact I.
  - exists ctx', packed.
    destruct (Hbel "f3"
                (mkcell "f3" "FACADE_FF"
                   [("DI", PORT_IN, Some "n3"); ("CLK", PORT_IN, Some "clk");
                    ("Q", PORT_OUT, Some "q3")]
                   [("BEL", PropString "X3/Y3/SLICEC")])
                (PropString "X3/Y3/SLICEC") Hf)
      as [Hgone Hb]; [vm_compute; reflexivity..|].
    split_and!; done.
Defined.

(** C4 (defect): on a lookup-table whose output feeds the data pin of a
    flip-flop and an output pad as well, the pair is fused and the net is
    erased as a whole: the pad keeps a port on a net that is no more, so it
    is not connected to the signal any longer.  With a second lookup-table in
    the place of the pad, the pass goes on to follow that net after it has
    erased it. *)
Theorem fusion_erases_shared_net :
  wf_netlist fan_out ∧ luts_have_output fan_out ∧ slice_names_free fan_out ∧
  fused_with fan_out "l" = Some "f" ∧
  (ce ← cells fan_out !! "pad"; net_of_port ce "I") = Some (Some "n") ∧
  (∃ ctx', pack_lut_lutffs fan_out = Ok ctx' ∧
           (ce ← cells ctx' !! "pad"; net_of_port ce "I") = Some (Some "n") ∧
           nets ctx' !! "n" = None ∧
           map_Forall (λ _ ni, {| ref_cell := Some "pad"; ref_port := "I" |}
                               ∉ net_users ni) (nets ctx')) ∧
  wf_netlist fan_out_lut ∧
  ∃ ctx', pack_lut_lutffs fan_out_lut = Throw undefined_behaviour ctx'.
Proof.
  split_and!; try (apply (bool_decide_unpack _); vm_compute; exact I);
    try (vm_compute; reflexivity).
  - destruct (pack_lut_lutffs fan_out) as [ctx'|] eqn:Hrun; [|by vm_compute in Hrun].
    exists ctx'. vm_compute in Hrun. injection Hrun as <-.
    split_and!; try (vm_compute; reflexivity).
    apply (bool_decide_unpack _). vm_compute. exact I.
  - destruct (pack_lut_lutffs fan_out_lut) as [ctx'|e ctx'] eqn:Hrun;
      [by vm_compute in Hrun|].
    exists ctx'. vm_compute in Hrun. by injection Hrun as <- <-.
Qed.

End fusion_claims.

(** ** Part V: further properties of the code *)

(** *** The site iterator and the queries on sites *)

Section iterator.
Import Chipdb Examples.
Local Open Scope Z_scope.

Lemma remaining_end chip :
  wf_chip chip →
  remaining chip {| cursor_index := 0; cursor_tile := num_tiles chip |} = [].
Proof.
  intros Hwf. rewrite (remaining_start chip Hwf).
  - apply tiles_from_end. lia.
  - destruct Hwf as (? & ? & -> & _). nia.
Qed.

(** X1: from a position on a site, [operator*] reads that site and
    [operator++] returns and moves to the next site in the canonical order,
    over any number of tiles without sites, or to the end; it never rests on
    a tile without sites.  [operator++(int)] moves in the same way and
    returns the position it started from. *)
Theorem operator_incr_advances chip it :
  wf_chip chip → settled chip it →
  operator_ne it {| cursor_index := 0; cursor_tile := num_tiles chip |} = true →
  ∃ bel it',
    operator_deref chip it = Some bel ∧
    operator_incr chip it = Some it' ∧
    operator_post_incr chip it = Some (it, it') ∧
    settled chip it' ∧
    remaining chip it = bel :: remaining chip it' ∧
    (cursor_tile it < cursor_tile it' ∨
     (cursor_tile it = cursor_tile it' ∧ cursor_index it' = cursor_index it + 1)).
Proof.
  intros Hwf [[Ht Hi]| ->] Hne.
  2:{ unfold operator_ne in Hne. cbn in Hne. by rewrite !Z.eqb_refl in Hne. }
  destruct it as [i t]. cbn [cursor_index cursor_tile] in *.
  destruct (operator_incr_spec chip Hwf i t) as (it' & Hincr & Hrem & Hset); [lia..|].
  exists (bel_at chip t i), it'. split_and!.
  - apply (operator_deref_spec chip Hwf). lia.
  - done.
  - unfold operator_post_incr. by rewrite Hincr.
  - done.
  - rewrite Hrem. by apply remaining_cons.
  - unfold operator_incr in Hincr. cbn [cursor_index cursor_tile] in Hincr.
    clear Hrem Hset.
    assert (∀ fuel j s it2,
              skip_empty_tiles fuel chip {| cursor_index := j; cursor_tile := s |}
                = Some it2 →
              s < cursor_tile it2 ∨ it2 = {| cursor_index := j; cursor_tile := s |})
      as Hskip.
    { induction fuel as [|fuel IH]; intros j s it2; cbn [skip_empty_tiles];
        cbn [cursor_index cursor_tile].
      - destruct (s <? num_tiles chip); [|intros [= <-]; by right].
        destruct (rel_index (tiles chip) s); [|done].
        destruct (j >=? num_bels t0); [done|]. intros [= <-]. by right.
      - destruct (s <? num_tiles chip); [|intros [= <-]; by right].
        destruct (rel_index (tiles chip) s); [|done].
        destruct (j >=? num_bels t0); [|intros [= <-]; by right].
        intros [Hlt| ->]%IH; left; cbn [cursor_tile] in *; lia. }
    destruct (Hskip _ _ _ _ Hincr) as [Hlt| ->]; [by left|right]. done.
Qed.

Lemma operator_incr_advances_witness :
  ∃ bel it',
    operator_deref small_chip {| cursor_index := 1; cursor_tile := 0 |} = Some bel ∧
    operator_incr small_chip {| cursor_index := 1; cursor_tile := 0 |} = Some it' ∧
    operator_post_incr small_chip {| cursor_index := 1; cursor_tile := 0 |}
      = Some ({| cursor_index := 1; cursor_tile := 0 |}, it') ∧
    settled small_chip it' ∧
    remaining small_chip {| cursor_index := 1; cursor_tile := 0 |}
      = bel :: remaining small_chip it' ∧
    (0 < cursor_tile it' ∨ (0 = cursor_tile it' ∧ cursor_index it' = 1 + 1)).
Proof.
  apply (operator_incr_advances small_chip {| cursor_index := 1; cursor_tile := 0 |}).
  - unfold wf_chip, wf_tile. vm_compute.
    repeat split; try discriminate; repeat constructor; discriminate.
  - left. vm_compute. repeat split; discriminate.
  - vm_compute. reflexivity.
Defined.

(** X2: [getBels] returns; its first position sits on the first site of
    the canonical order, over leading tiles without sites, and is the end
    position exactly when the database has no site at all. *)
Theorem getBels_begin chip :
  wf_chip chip →
  ∃ r, getBels chip = Some r ∧
    end_ r = {| cursor_index := 0; cursor_tile := num_tiles chip |} ∧
    settled chip (begin_ r) ∧
    remaining chip (begin_ r) = canonical_bels chip ∧
    (operator_eq (begin_ r) (end_ r) = true ↔ total_bels chip = 0) ∧
    (∀ bel, head (canonical_bels chip) = Some bel →
            operator_deref chip (begin_ r) = Some bel).
Proof.
  intros Hwf. destruct (getBels_spec chip Hwf) as (b0 & Hr & Hrem & Hset).
  eexists. split; [exact Hr|]. unfold begin_, end_. cbn [b e].
  rewrite (tiles_from_canonical chip Hwf) in Hrem.
  pose proof (tiles_from_length chip Hwf) as Hlen.
  rewrite (tiles_from_canonical chip Hwf) in Hlen.
  split_and!; try done.
  - destruct Hset as [[Ht Hi]| ->].
    + destruct b0 as [i t]. cbn [cursor_index cursor_tile] in *.
      rewrite (remaining_cons chip i t) in Hrem by done.
      rewrite <-Hrem in Hlen. cbn [length] in Hlen.
      unfold operator_eq. cbn [cursor_index cursor_tile].
      split; [|lia]. intros [_ ?%Z.eqb_eq]%andb_true_iff. lia.
    + rewrite (remaining_end chip Hwf) in Hrem. rewrite <-Hrem in Hlen.
      unfold operator_eq. cbn [cursor_index cursor_tile length] in *.
      rewrite !Z.eqb_refl. split; [intros _; lia|done].
  - intros bel Hhd. destruct Hset as [[Ht Hi]| ->].
    + destruct b0 as [i t]. cbn [cursor_index cursor_tile] in *.
      rewrite (remaining_cons chip i t) in Hrem by done.
      rewrite <-Hrem in Hhd. injection Hhd as <-.
      apply (operator_deref_spec chip Hwf). lia.
    + rewrite (remaining_end chip Hwf) in Hrem. by rewrite <-Hrem in Hhd.
Qed.

Lemma getBels_begin_witness :
  ∃ r, getBels small_chip = Some r ∧
    end_ r = {| cursor_index := 0; cursor_tile := num_tiles small_chip |} ∧
    settled small_chip (begin_ r) ∧
    remaining small_chip (begin_ r) = canonical_bels small_chip ∧
    (operator_eq (begin_ r) (end_ r) = true ↔ total_bels small_chip = 0) ∧
    (∀ bel, head (canonical_bels small_chip) = Some bel →
            operator_deref small_chip (begin_ r) = Some bel).
Proof.
  apply (getBels_begin small_chip).
  unfold wf_chip, wf_tile. vm_compute.
  repeat split; try discriminate; repeat constructor; discriminate.
Defined.

(** X3: [operator!=] is the negation of [operator==], and [operator==]
    holds exactly between equal positions. *)
Theorem operator_eq_ne a b :
  operator_ne a b = negb (operator_eq a b) ∧ (operator_eq a b = true ↔ a = b).
Proof.
  unfold operator_ne, operator_eq. split.
  - by rewrite negb_andb.
  - rewrite andb_true_iff, !Z.eqb_eq. destruct a, b; cbn. split.
    + by intros [-> ->].
    + by intros [= -> ->].
Qed.

(** X17: [operator++] does not stop at the end position: from there it
    returns a position one index further that differs from the end, so a
    loop that runs until the position equals the end must not step over
    it. *)
Theorem operator_incr_past_end chip :
  let last := {| cursor_index := 0; cursor_tile := num_tiles chip |} in
  operator_incr chip last = Some {| cursor_index := 1; cursor_tile := num_tiles chip |} ∧
  operator_ne {| cursor_index := 1; cursor_tile := num_tiles chip |} last = true ∧
  operator_eq {| cursor_index := 1; cursor_tile := num_tiles chip |} last = false.
Proof.
  cbv zeta. unfold operator_incr, operator_ne, operator_eq.
  cbn [cursor_index cursor_tile]. rewrite Z.sub_diag.
  change (Z.to_nat 0) with 0%nat. cbn [skip_empty_tiles cursor_index cursor_tile].
  rewrite Z.ltb_irrefl. done.
Qed.

(** X4: [tileInfo] does not compare the column of an identifier with the
    width of the grid: the column [x + width] of row [y] names the same tile,
    and with it the same site records, as column [x] of row [y + 1]. *)
Theorem tileInfo_wraps_rows chip x0 y0 i :
  tileInfo chip {| location := {| x := x0 + width chip; y := y0 |}; index := i |}
  = tileInfo chip {| location := {| x := x0; y := y0 + 1 |}; index := i |} ∧
  bel_record chip {| location := {| x := x0 + width chip; y := y0 |}; index := i |}
  = bel_record chip {| location := {| x := x0; y := y0 + 1 |}; index := i |}.
Proof.
  assert (tileInfo chip {| location := {| x := x0 + width chip; y := y0 |}; index := i |}
          = tileInfo chip {| location := {| x := x0; y := y0 + 1 |}; index := i |}) as Heq.
  { unfold tileInfo. cbn [location x y]. f_equal. lia. }
  split; [done|]. unfold bel_record. by rewrite Heq.
Qed.

(** the site record of an identifier of the canonical order *)
Lemma canonical_bel_record chip bel :
  wf_chip chip → bel ∈ canonical_bels chip →
  ∃ rec, bel_record chip bel = Some rec ∧
         0 ≤ x (location bel) < width chip ∧ 0 ≤ y (location bel) < height chip ∧
         0 ≤ index bel.
Proof.
  intros Hwf Hbel. rewrite <-(tiles_from_canonical chip Hwf) in Hbel.
  pose proof Hbel as Hti. apply (elem_of_tiles_from chip) in Hti.
  destruct Hti as (t & i & -> & Ht & Hi).
  destruct (tiles_from_round_trip chip Hwf _ Hbel)
    as (t' & tile & rec & _ & _ & _ & _ & _ & Hrec).
  pose proof (width_pos chip Hwf t Ht) as Hw.
  pose proof (Z.mod_pos_bound t (width chip) Hw).
  destruct Hwf as (_ & _ & Hn & _).
  exists rec. cbn [location x y index bel_at]. split_and!; try done; try lia.
  - apply Z.div_pos; lia.
  - apply Z.div_lt_upper_bound; lia.
Qed.



(** the decimal form of a number holds no slash, so a name can be cut at
    its first slash *)
Lemma app_cons s c t : String c s +:+ t = String c (s +:+ t).
Proof. done. Qed.

Lemma app_char c t : String c EmptyString +:+ t = String c t.
Proof. done. Qed.

Lemma no_slash_cons c s :
  c ≠ "/"%char → (∀ a b0, s ≠ a +:+ String "/" b0) →
  ∀ a b0, String c s ≠ a +:+ String "/" b0.
Proof.
  intros Hc Hs [|c' a] b0.
  - intros [= -> _]. done.
  - rewrite app_cons. intros [= _ ->]. by eapply Hs.
Qed.

Lemma no_slash_empty a b0 : EmptyString ≠ a +:+ String "/" b0.
Proof. by destruct a. Qed.

Lemma pretty_N_char_no_slash n : pretty_N_char n ≠ "/"%char.
Proof. unfold pretty_N_char. by repeat case_match. Qed.

Lemma pretty_N_go_no_slash n s :
  (∀ a b0, s ≠ a +:+ String "/" b0) →
  ∀ a b0, pretty_N_go n s ≠ a +:+ String "/" b0.
Proof.
  revert s. induction (N.lt_wf_0 n) as [n _ IH]; intros s Hs.
  assert (n = 0 ∨ 0 < n)%N as [->|Hn] by lia.
  - by rewrite pretty_N_go_0.
  - rewrite pretty_N_go_step by done. apply IH.
    + by apply N.div_lt.
    + apply no_slash_cons; [apply pretty_N_char_no_slash|done].
Qed.

Lemma pretty_N_no_slash (n : N) a b0 : pretty n ≠ a +:+ String "/" b0.
Proof.
  unfold pretty, pretty_N. case_decide.
  - apply no_slash_cons; [done|apply no_slash_empty].
  - apply pretty_N_go_no_slash, no_slash_empty.
Qed.

Lemma pretty_Z_no_slash (z : Z) a b0 : pretty z ≠ a +:+ String "/" b0.
Proof.
  unfold pretty, pretty_Z. destruct z as [|p|p].
  - apply no_slash_cons; [done|apply no_slash_empty].
  - apply pretty_N_no_slash.
  - apply no_slash_cons; [done|]. apply pretty_N_no_slash.
Qed.

Lemma cut_at_slash s1 s2 r1 r2 :
  (∀ a b0, s1 ≠ a +:+ String "/" b0) → (∀ a b0, s2 ≠ a +:+ String "/" b0) →
  s1 +:+ String "/" r1 = s2 +:+ String "/" r2 → s1 = s2 ∧ r1 = r2.
Proof.
  revert s2. induction s1 as [|c s1 IH]; intros [|c' s2] H1 H2.
  - by intros [= ->].
  - rewrite app_cons. intros [= <- _]. by destruct (H2 EmptyString s2).
  - rewrite app_cons. intros [= -> _]. by destruct (H1 EmptyString s1).
  - rewrite !app_cons. intros [= -> Heq]. destruct (IH s2) as [-> ->]; try done.
    + intros a b0 ->. by destruct (H1 (String c' a) b0).
    + intros a b0 ->. by destruct (H2 (String c' a) b0).
Qed.

(** X6: the name [getBelName] gives to a site can be read back: where the
    sites of a tile have different local names, two identifiers with the same
    name are the same identifier. *)
Theorem getBelName_injective none chip b1 b2 n :
  (∀ t tile, rel_index (tiles chip) t = Some tile →
             NoDup (bel_name <$> bel_data tile)) →
  getBelName none chip b1 = Value n → getBelName none chip b2 = Value n →
  b1 = b2.
Proof.
  intros Hnames. unfold getBelName.
  destruct (is_none none b1); [done|]. destruct (is_none none b2); [done|].
  destruct (bel_record chip b1) as [r1|] eqn:Hr1; [|done].
  destruct (bel_record chip b2) as [r2|] eqn:Hr2; [|done].
  intros [= <-] [= Heq]. change (EmptyString +:+ ?s) with s in Heq.
  rewrite !app_cons in Heq. change (EmptyString +:+ ?s) with s in Heq.
  apply cut_at_slash in Heq as [Hx Heq]; try apply pretty_Z_no_slash.
  injection Heq as Heq.
  apply cut_at_slash in Heq as [Hy Hnm]; try apply pretty_Z_no_slash.
  apply (inj pretty) in Hx. apply (inj pretty) in Hy.
  destruct b1 as [[x1 y1] i1], b2 as [[x2 y2] i2]. cbn [location x y index] in *.
  subst x1 y1. f_equal.
  unfold bel_record, tileInfo in Hr1, Hr2. cbn [location x y index] in *.
  destruct (rel_index (tiles chip) (y2 * width chip + x2)) as [tile|] eqn:Htile;
    [|done].
  cbn in Hr1, Hr2. unfold rel_index in Hr1, Hr2.
  destruct (Z.ltb_spec i1 0); [done|]. destruct (Z.ltb_spec i2 0); [done|].
  assert (Z.to_nat i1 = Z.to_nat i2) as Hi; [|lia].
  eapply (NoDup_lookup (bel_name <$> bel_data tile)).
  - by eapply Hnames.
  - by rewrite list_lookup_fmap, Hr1.
  - change (bel_name r2 = bel_name r1) in Hnm.
    by rewrite list_lookup_fmap, Hr2, <-Hnm.
Qed.

Lemma getBelName_injective_witness :
  let none := {| location := {| x := -1; y := -1 |}; index := -1 |} in
  getBelName none small_chip {| location := {| x := 1; y := 1 |}; index := 2 |}
    = Value "X1/Y1/SLICEC" ∧
  ∀ bel, getBelName none small_chip bel = Value "X1/Y1/SLICEC" →
         {| location := {| x := 1; y := 1 |}; index := 2 |} = bel.
Proof.
  cbv zeta. split; [vm_compute; reflexivity|]. intros bel Hbel.
  apply (getBelName_injective
           {| location := {| x := -1; y := -1 |}; index := -1 |} small_chip
           {| location := {| x := 1; y := 1 |}; index := 2 |} bel "X1/Y1/SLICEC").
  - intros t tile. unfold rel_index. destruct (t <? 0); [done|].
    destruct (Z.to_nat t) as [|[|[|[|k]]]]; vm_compute; intros [= <-];
      repeat constructor; set_solver.
  - vm_compute. reflexivity.
  - exact Hbel.
Defined.

End iterator.

(** *** [pack_io] *)

Section io_more.
Import Examples.

Lemma sever_iob_name ctx ni : net_name (sever_iob ctx ni) = net_name ni.
Proof. unfold sever_iob. by destruct (ref_is_iob ctx (net_driver ni)). Qed.

Lemma ref_is_iob_cell ctx k p ci :
  cells ctx !! k = Some ci →
  ref_is_iob ctx {| ref_cell := Some k; ref_port := p |} = is_nextpnr_iob ci.
Proof. intros Hk. unfold ref_is_iob, cell_is_iob. cbn. by rewrite Hk. Qed.

(** a reference that [sever_iob] keeps is a reference of the net, to a cell
    that stays *)
Lemma sever_iob_refs ctx ni u :
  u ∈ net_driver (sever_iob ctx ni) :: net_users (sever_iob ctx ni) →
  ref_cell u = None ∨
  (ref_is_iob ctx u = false ∧ u ∈ net_driver ni :: net_users ni).
Proof.
  unfold sever_iob.
  destruct (ref_is_iob ctx (net_driver ni)) eqn:Hd; recsimpl;
    intros [->|Hu]%elem_of_cons.
  - by left.
  - apply list_elem_of_filter in Hu as [Hno Hu]. right.
    split; [by destruct (ref_is_iob ctx u)|by right].
  - right. split; [done|by left].
  - apply list_elem_of_filter in Hu as [Hno Hu]. right.
    split; [by destruct (ref_is_iob ctx u)|by right].
Qed.

(** X7: [pack_io] keeps a well-formed netlist well-formed: in its result the
    cells and nets are stored under their names, every connected port is on
    the net it names, and every net refers to ports of cells that exist. *)
Theorem pack_io_keeps_wf ctx :
  wf_netlist ctx → ∃ ctx', pack_io ctx = Ok ctx' ∧ wf_netlist ctx'.
Proof.
  intros Hwf. eexists. split; [by apply pack_io_spec|].
  pose proof Hwf as ((Hcn & Hnn) & Hports & Hnets).
  split; [split|split].
  - intros k ci [Hk _]%map_lookup_filter_Some. by apply Hcn.
  - intros n ni'. recsimpl. rewrite lookup_fmap.
    destruct (nets ctx !! n) as [ni|] eqn:Hn; [|done]. intros [= <-].
    rewrite sever_iob_name. by apply Hnn.
  - intros k ci [Hk Hno]%map_lookup_filter_Some p pi Hp. cbn [snd] in Hno.
    specialize (Hports k ci Hk p pi Hp). cbn beta in Hports |- *.
    destruct (port_net pi) as [n|]; [|done]. recsimpl. rewrite lookup_fmap.
    destruct (nets ctx !! n) as [ni|] eqn:Hn; [|done]. cbn.
    assert (ref_is_iob ctx {| ref_cell := Some k; ref_port := p |} = false) as Hk'.
    { rewrite (ref_is_iob_cell ctx k p ci Hk). by destruct (is_nextpnr_iob ci). }
    unfold port_on_net, sever_iob. destruct Hports as [Hd|Hu].
    + left. rewrite Hd, Hk'. recsimpl. done.
    + right. destruct (ref_is_iob ctx (net_driver ni)); recsimpl;
        apply list_elem_of_filter; (split; [by rewrite Hk'; intros []|done]).
  - intros n ni'. recsimpl. rewrite lookup_fmap.
    destruct (nets ctx !! n) as [ni|] eqn:Hn; [|done]. intros [= <-].
    destruct (Hnets n ni Hn) as [Hdrv Hus]. rewrite Forall_forall in Hus.
    assert (∀ u, u ∈ net_driver (sever_iob ctx ni) :: net_users (sever_iob ctx ni) →
                 ref_on_port
                   {| cells := filter (λ kc, ¬ is_nextpnr_iob kc.2) (cells ctx);
                      nets := sever_iob ctx <$> nets ctx;
                      settings := settings ctx |} n u) as Hall.
    { intros u [Hnone|[Hno Hin]]%sever_iob_refs.
      { unfold ref_on_port. by rewrite Hnone. }
      assert (ref_on_port ctx n u) as Hon.
      { apply elem_of_cons in Hin as [->|Hin]; auto. }
      unfold ref_on_port in *. destruct (ref_cell u) as [c|] eqn:Hc; [|done].
      recsimpl. destruct (cells ctx !! c) as [ce|] eqn:Hce; [|done].
      unfold ref_is_iob, cell_is_iob in Hno. rewrite Hc, Hce in Hno.
      assert (filter (λ kc, ¬ is_nextpnr_iob kc.2) (cells ctx) !! c = Some ce) as ->.
      { apply map_lookup_filter_Some. split; [done|]. cbn [snd]. rewrite Hno.
        by intros []. }
      done. }
    split.
    + apply Hall. by left.
    + apply Forall_forall. intros u Hu. apply Hall. by right.
Qed.

Lemma pack_io_keeps_wf_witness :
  ∃ ctx', pack_io buffered = Ok ctx' ∧ wf_netlist ctx'.
Proof.
  apply (pack_io_keeps_wf buffered).
  apply (bool_decide_unpack _). vm_compute. exact I.
Defined.

(** X8: no cell is a placeholder buffer and a [FACADE_IO] cell at once, so
    [pack_io] leaves every [FACADE_IO] cell in place, as it was. *)
Theorem pack_io_keeps_facade_io ctx :
  wf_netlist ctx →
  (∀ c, is_facade_iob c → is_nextpnr_iob c = false) ∧
  ∃ ctx', pack_io ctx = Ok ctx' ∧
    ∀ k ci, cells ctx !! k = Some ci → is_facade_iob ci → cells ctx' !! k = Some ci.
Proof.
  assert (∀ c, is_facade_iob c → is_nextpnr_iob c = false) as Hex.
  { intros c Hc%bool_decide_unpack. unfold is_nextpnr_iob. by rewrite Hc. }
  intros Hwf. split; [done|]. eexists. split; [by apply pack_io_spec|].
  intros k ci Hk Hf. recsimpl. apply map_lookup_filter_Some. split; [done|].
  cbn [snd]. rewrite (Hex ci Hf). by intros [].
Qed.

Lemma pack_io_keeps_facade_io_witness :
  ∃ ctx', pack_io buffered = Ok ctx' ∧
    cells ctx' !! "a" = cells buffered !! "a" ∧ is_Some (cells ctx' !! "a").
Proof.
  destruct (pack_io_keeps_facade_io buffered) as (_ & ctx' & Hrun & Hkeep).
  - apply (bool_decide_unpack _). vm_compute. exact I.
  - exists ctx'. split; [exact Hrun|].
    rewrite (Hkeep "a"
               (mkcell "a" "FACADE_IO"
                  [("I", PORT_IN, Some "i"); ("O", PORT_OUT, Some "o")] []));
      [|vm_compute; reflexivity|vm_compute; exact I].
    split; [vm_compute; reflexivity|by eexists].
Defined.

(** X9: on a netlist without placeholder buffers [pack_io] returns the
    netlist as it is, whether it is well-formed or not; and a well-formed
    netlist that [pack_io] returns as it is holds no placeholder buffer. *)
Theorem pack_io_nothing_to_do ctx :
  (map_Forall (λ _ ci, is_nextpnr_iob ci = false) (cells ctx) → pack_io ctx = Ok ctx) ∧
  (wf_netlist ctx → pack_io ctx = Ok ctx →
   map_Forall (λ _ ci, is_nextpnr_iob ci = false) (cells ctx)).
Proof.
  split.
  - intros Hno. apply pack_io_nothing. exact Hno.
  - intros Hwf Hrun. rewrite (pack_io_spec ctx Hwf) in Hrun.
    apply (f_equal (λ r, match r with
                         | Ok c => cells c
                         | Throw _ c => cells c
                         end)) in Hrun. cbn in Hrun.
    intros k ci Hk. rewrite <-Hrun in Hk.
    apply map_lookup_filter_Some in Hk as [_ Hno]. cbn [snd] in Hno.
    by destruct (is_nextpnr_iob ci).
Qed.

Lemma pack_io_nothing_to_do_witness : pack_io three_grounds = Ok three_grounds.
Proof.
  apply (proj1 (pack_io_nothing_to_do three_grounds)).
  apply (bool_decide_unpack _). vm_compute. exact I.
Defined.

End io_more.

(** *** [set_net_constant] and [pack_constants] *)

Section constants_more.
Import Examples.

Lemma redirect_user_keeps u cur cn cur' cn' c p :
  redirect_user u (cur, cn) = Ok (cur', cn') →
  on_net_named cur c p (net_name cn) → on_net_named cur' c p (net_name cn).
Proof.
  unfold redirect_user. destruct (ref_cell u) as [uc|]; [|by intros [= <- <-]].
  destruct (cells cur !! uc) as [ce0|] eqn:Huc; [|done]. intros [= <- <-].
  intros (ce & Hce & Hp). unfold on_net_named. recsimpl.
  destruct (decide (c = uc)) as [->|Hne]; [|rewrite lookup_insert_ne by done; eauto].
  rewrite lookup_insert_eq. eexists. split; [done|].
  assert (ce0 = ce) as -> by congruence.
  unfold net_of_port, set_port_net_default in *. recsimpl.
  destruct (decide (p = ref_port u)) as [->|Hp'].
  - by rewrite lookup_insert_eq.
  - by rewrite lookup_insert_ne.
Qed.

Lemma redirect_user_sets u uc cur cn cur' cn' :
  redirect_user u (cur, cn) = Ok (cur', cn') → ref_cell u = Some uc →
  on_net_named cur' uc (ref_port u) (net_name cn) ∧ net_name cn' = net_name cn.
Proof.
  unfold redirect_user. intros Hrun Hu. rewrite Hu in Hrun.
  destruct (cells cur !! uc) as [ce0|] eqn:Huc; [|done]. injection Hrun as <- <-.
  split; [|done]. unfold on_net_named. recsimpl. rewrite lookup_insert_eq.
  eexists. split; [done|]. unfold net_of_port, set_port_net_default. recsimpl.
  by rewrite lookup_insert_eq.
Qed.

Lemma redirect_user_name u cur cn cur' cn' :
  redirect_user u (cur, cn) = Ok (cur', cn') → net_name cn' = net_name cn.
Proof.
  unfold redirect_user. destruct (ref_cell u) as [uc|]; [|by intros [= <- <-]].
  destruct (cells cur !! uc); [|done]. by intros [= <- <-].
Qed.

Lemma redirect_users_ports us : ∀ cur cn cur' cn',
  for_each redirect_user us (cur, cn) = Ok (cur', cn') →
  net_name cn' = net_name cn ∧
  (∀ c p, on_net_named cur c p (net_name cn) → on_net_named cur' c p (net_name cn)) ∧
  (∀ u uc, u ∈ us → ref_cell u = Some uc →
           on_net_named cur' uc (ref_port u) (net_name cn)).
Proof.
  induction us as [|u us IH]; intros cur cn cur' cn'; cbn [for_each].
  - intros [= <- <-]. split_and!; [done|done|]. by intros u uc ?%elem_of_nil.
  - intros ([cur1 cn1] & Hstep & Hrest)%bind_Ok.
    destruct (IH _ _ _ _ Hrest) as (Hname & Hkeep & Hset).
    pose proof (redirect_user_name _ _ _ _ _ Hstep) as Hname1.
    rewrite Hname1 in Hname, Hkeep, Hset. split_and!; [done| |].
    + intros c p Hon. by eapply Hkeep, redirect_user_keeps.
    + intros u' uc [->|Hin]%elem_of_cons Hu'; [|by eapply Hset].
      apply Hkeep. by eapply redirect_user_sets.
Qed.

(** X10: [set_net_constant] hands the users of a net over to the constant
    net: those that are ports of a cell are appended to the users of the
    constant net in their order and each of these ports is put on the
    constant net, the others are dropped; the net itself is left without
    users and without a driving cell; no other net changes, and the value of
    the constant plays no role. *)
Theorem set_net_constant_moves_users ctx n ni cn v :
  nets ctx !! n = Some ni →
  (∀ u uc, u ∈ net_users ni → ref_cell u = Some uc → is_Some (cells ctx !! uc)) →
  ∃ ctx' cn',
    set_net_constant ctx n cn v = Ok (ctx', cn') ∧
    set_net_constant ctx n cn (negb v) = Ok (ctx', cn') ∧
    net_name cn' = net_name cn ∧ net_driver cn' = net_driver cn ∧
    net_users cn' = net_users cn ++ live_users ni ∧
    (∃ ni', nets ctx' !! n = Some ni' ∧ net_users ni' = [] ∧
            ref_cell (net_driver ni') = None ∧ net_name ni' = net_name ni) ∧
    (∀ m, m ≠ n → nets ctx' !! m = nets ctx !! m) ∧
    (∀ u uc, u ∈ net_users ni → ref_cell u = Some uc →
             on_net_named ctx' uc (ref_port u) (net_name cn)) ∧
    settings ctx' = settings ctx.
Proof.
  intros Hn Hpres.
  destruct (set_net_constant_spec ctx n ni cn v Hn Hpres)
    as (ctx' & Hrun & Hnets & Hset & _).
  exists ctx', (set_net_users (net_users cn ++ live_users ni) cn).
  split; [done|]. split; [exact Hrun|]. recsimpl. split_and!; try done.
  - exists (emptied ni). rewrite Hnets, lookup_insert_eq. done.
  - intros m Hm. by rewrite Hnets, lookup_insert_ne.
  - intros u uc Hu Huc. unfold set_net_constant in Hrun. rewrite Hn in Hrun.
    apply bind_Ok in Hrun as ([cur2 cn2] & Hloop & Hfin).
    injection Hfin as <- _.
    destruct (redirect_users_ports _ _ _ _ _ Hloop) as (_ & _ & Hports).
    destruct (Hports u uc Hu Huc) as (ce & Hce & Hp). by exists ce.
Qed.

Lemma set_net_constant_moves_users_witness :
  ∃ ctx' cn',
    set_net_constant three_grounds "z1" (new_gnd_net the_const_cell) false
      = Ok (ctx', cn') ∧
    net_users cn' = [ {| ref_cell := Some "u"; ref_port := "A" |};
                      {| ref_cell := Some "u"; ref_port := "E" |} ] ∧
    on_net_named ctx' "u" "A" "$PACKER_GND_NET" ∧
    on_net_named ctx' "u" "E" "$PACKER_GND_NET".
Proof.
  destruct (set_net_constant_moves_users three_grounds "z1"
              (mknet "z1" (Some "g1", "GND") [("u", "A"); ("u", "E")])
              (new_gnd_net the_const_cell) false)
    as (ctx' & cn' & Hrun & _ & _ & _ & Hus & _ & _ & Hports & _).
  - vm_compute. reflexivity.
  - intros u uc Hu Huc. apply (bool_decide_unpack _).
    cbn in Hu. apply elem_of_cons in Hu as [->|Hu].
    { injection Huc as <-. vm_compute. exact I. }
    apply list_elem_of_singleton in Hu as ->.
    injection Huc as <-. vm_compute. exact I.
  - exists ctx', cn'. split; [exact Hrun|]. split; [exact Hus|]. split.
    + apply (Hports {| ref_cell := Some "u"; ref_port := "A" |} "u");
        [cbn; set_solver|done].
    + apply (Hports {| ref_cell := Some "u"; ref_port := "E" |} "u");
        [cbn; set_solver|done].
Defined.

(** X11: whatever the netlist, when [pack_constants] returns, its result
    holds the constant-source cell under [$PACKER_CONST]: a [FACADE_SLICE]
    whose first lookup-table is initialised to all zeros and whose second
    to all ones, with output [F0] on the ground net and [F1] on the supply
    net, and every other pin unconnected. *)
Theorem pack_constants_const_cell ctx ctx' :
  pack_constants ctx = Ok ctx' →
  ∃ K, cells ctx' !! "$PACKER_CONST" = Some K ∧
    cell_name K = "$PACKER_CONST" ∧ cell_type K = id_FACADE_SLICE ∧
    cell_params K !! id_LUT0_INITVAL = Some (PropInt 0 16) ∧
    cell_params K !! id_LUT1_INITVAL = Some (PropInt 65535 16) ∧
    net_of_port K id_F0 = Some (Some "$PACKER_GND_NET") ∧
    net_of_port K id_F1 = Some (Some "$PACKER_VCC_NET") ∧
    (∀ p, p ≠ id_F0 → p ≠ id_F1 → is_Some (cell_ports K !! p) →
          net_of_port K p = Some None).
Proof.
  unfold pack_constants. rewrite new_const_cell_eq.
  intros (st & _ & Heq)%bind_Ok. exists the_const_cell.
  assert (cells ctx' = <[cell_name the_const_cell := the_const_cell]> (cells (c_ctx st)))
    as ->.
  { cbv zeta in Heq. apply (f_equal (λ r, match r with
                                           | Ok c => cells c
                                           | Throw _ c => cells c
                                           end)) in Heq.
    symmetry. exact Heq. }
  rewrite the_const_cell_name, lookup_insert_eq.
  split; [done|]. do 6 (split; [vm_compute; reflexivity|]).
  intros p H0 H1 [pi Hp]. unfold net_of_port. rewrite Hp. cbn. f_equal.
  assert (map_Forall (λ q qi, q ≠ id_F0 → q ≠ id_F1 → port_net qi = None)
            (cell_ports the_const_cell)) as Hall.
  { apply (bool_decide_unpack _). by vm_compute. }
  by apply (Hall p pi Hp).
Qed.

Lemma pack_constants_const_cell_witness :
  ∃ ctx' K, pack_constants three_grounds = Ok ctx' ∧
    cells ctx' !! "$PACKER_CONST" = Some K ∧
    cell_params K !! id_LUT1_INITVAL = Some (PropInt 65535 16).
Proof.
  destruct (pack_constants three_grounds) as [ctx'|] eqn:Hrun;
    [|by vm_compute in Hrun].
  destruct (pack_constants_const_cell three_grounds ctx' Hrun)
    as (K & HK & _ & _ & _ & H1 & _).
  exists ctx', K. split; [reflexivity|]. split; [exact HK|exact H1].
Defined.

(** X12: on a well-formed netlist in which no net is driven by a ground or
    a supply cell, [pack_constants] only adds: the constant-source cell and
    the two constant nets, both without users; every cell and every net of
    the input stays as it was where the three names were free. *)
Theorem pack_constants_without_constants ctx :
  wf_netlist ctx → map_Forall (λ _ ni, net_kind ctx ni = None) (nets ctx) →
  ∃ ctx', pack_constants ctx = Ok ctx' ∧
    cells ctx' = <["$PACKER_CONST" := the_const_cell]> (cells ctx) ∧
    nets ctx' = <["$PACKER_VCC_NET" := new_vcc_net the_const_cell]>
                  (<["$PACKER_GND_NET" := new_gnd_net the_const_cell]> (nets ctx)) ∧
    net_users (new_gnd_net the_const_cell) = [] ∧
    net_users (new_vcc_net the_const_cell) = [] ∧
    settings ctx' = settings ctx ∧
    (reserved_free ctx →
     (∀ c ce, cells ctx !! c = Some ce → cells ctx' !! c = Some ce) ∧
     (∀ n ni, nets ctx !! n = Some ni → nets ctx' !! n = Some ni)).
Proof.
  intros Hwf Hquiet. eexists. split.
  - apply pack_constants_quiet. intros n ni Hn.
    specialize (Hquiet n ni Hn). cbn beta in Hquiet.
    unfold quiet_net. unfold net_kind in Hquiet.
    destruct (ref_cell (net_driver ni)) as [d|] eqn:Hd; [|done].
    destruct Hwf as (_ & _ & Hnets). destruct (Hnets n ni Hn) as [Hdrv _].
    unfold ref_on_port in Hdrv. rewrite Hd in Hdrv. optsimpl.
    destruct (cells ctx !! d) as [dc|]; [|done]. optsimpl.
    exists dc. split; [done|].
    destruct (decide (cell_type dc = "GND")); [done|].
    destruct (decide (cell_type dc = "VCC")); done.
  - recsimpl. split_and!; try done. intros (HfC & HfG & HfV). split.
    + intros c ce Hc. rewrite lookup_insert_ne; [done|]. intros <-. congruence.
    + intros n ni Hn. rewrite !lookup_insert_ne; [done|..]; intros <-; congruence.
Qed.

Lemma pack_constants_without_constants_witness :
  ∃ ctx', pack_constants buffered = Ok ctx' ∧
    cells ctx' = <["$PACKER_CONST" := the_const_cell]> (cells buffered) ∧
    nets ctx' = <["$PACKER_VCC_NET" := new_vcc_net the_const_cell]>
                  (<["$PACKER_GND_NET" := new_gnd_net the_const_cell]> (nets buffered)).
Proof.
  destruct (pack_constants_without_constants buffered)
    as (ctx' & Hrun & Hc & Hn & _).
  - apply (bool_decide_unpack _). vm_compute. exact I.
  - apply (bool_decide_unpack _). vm_compute. exact I.
  - exists ctx'. split; [exact Hrun|]. split; [exact Hc|exact Hn].
Defined.

End constants_more.

(** *** The settings *)

(** no pass touches [ctx->settings] *)
Lemma for_each_keeps {K St} (P : St → St → Prop) (body : K → St → result St) l :
  (∀ s, P s s) → (∀ s1 s2 s3, P s1 s2 → P s2 s3 → P s1 s3) →
  (∀ k s s', body k s = Ok s' → P s s') →
  ∀ st st', for_each body l st = Ok st' → P st st'.
Proof.
  intros Hrefl Htrans Hbody. induction l as [|k l IH]; intros st st'; cbn [for_each].
  - intros [= <-]. apply Hrefl.
  - intros (s1 & Hstep & Hrest)%bind_Ok.
    eapply Htrans; [by eapply Hbody|by apply IH].
Qed.

Lemma disconnect_port_settings ctx c p ctx' :
  disconnect_port ctx c p = Ok ctx' → settings ctx' = settings ctx.
Proof.
  unfold disconnect_port. repeat case_match; try done; by intros [= <-].
Qed.

Lemma pack_io_settings ctx ctx' :
  pack_io ctx = Ok ctx' → settings ctx' = settings ctx.
Proof.
  unfold pack_io. intros ([c1 pk] & Hloop & [= <-])%bind_Ok. recsimpl.
  apply (for_each_keeps (λ s s', settings s'.1 = settings s.1)) in Hloop;
    [done|done|by intros ??? -> ->|].
  intros k [c pc] [c' pc']. unfold pack_io_body.
  destruct (cells c !! k) as [ci|]; [|done].
  destruct (is_nextpnr_iob ci); [|by intros [= <- <-]].
  intros (c2 & Hports & [= <- <-])%bind_Ok. cbn [fst].
  apply (for_each_keeps (λ s s', settings s' = settings s)) in Hports;
    [done|done|by intros ??? -> ->|].
  intros p s s'. apply disconnect_port_settings.
Qed.

Lemma redirect_user_settings u s s' :
  redirect_user u s = Ok s' → settings s'.1 = settings s.1.
Proof.
  destruct s as [c cn]. unfold redirect_user.
  repeat case_match; try done; by intros [= <-].
Qed.

Lemma set_net_constant_settings ctx n cn v ctx' cn' :
  set_net_constant ctx n cn v = Ok (ctx', cn') → settings ctx' = settings ctx.
Proof.
  unfold set_net_constant. destruct (nets ctx !! n) as [ni|]; [|done].
  intros ([c2 cn2] & Hloop & [= <- <-])%bind_Ok. recsimpl.
  apply (for_each_keeps (λ s s', settings s'.1 = settings s.1)) in Hloop;
    [done|done|by intros ??? -> ->|].
  intros u s s'. apply redirect_user_settings.
Qed.

Lemma pack_constants_settings ctx ctx' :
  pack_constants ctx = Ok ctx' → settings ctx' = settings ctx.
Proof.
  unfold pack_constants. destruct new_const_cell as [K|]; [|done].
  intros (st & Hloop & Heq)%bind_Ok.
  apply (f_equal (λ r, match r with
                       | Ok c => settings c
                       | Throw _ c => settings c
                       end)) in Heq. cbn in Heq. rewrite <-Heq.
  apply (for_each_keeps (λ s s', settings (c_ctx s') = settings (c_ctx s))) in Hloop;
    [done|done|by intros ??? -> ->|].
  intros n s s'. unfold pack_constants_body.
  destruct (nets (c_ctx s) !! n) as [ni|]; [|done].
  destruct (ref_cell (net_driver ni)) as [d|]; [|by intros [= <-]].
  destruct (cells (c_ctx s) !! d) as [dc|]; [|done].
  repeat case_bool_decide.
  all: try (intros ([c1 cn1] & Hset%set_net_constant_settings & [= <-])%bind_Ok;
            by recsimpl).
  by intros [= <-].
Qed.

Lemma replace_port_settings ctx oc o rep r ctx' rep' :
  replace_port ctx oc o rep r = Ok (ctx', rep') → settings ctx' = settings ctx.
Proof.
  unfold replace_port. repeat case_match; try done; by intros [= <- _].
Qed.

Lemma replace_ports_settings oc moves s s' :
  replace_ports oc moves s = Ok s' → settings s'.1 = settings s.1.
Proof.
  unfold replace_ports.
  apply (for_each_keeps (λ s s', settings s'.1 = settings s.1));
    [done|by intros ??? -> ->|].
  intros [o r] [c rep] [c' rep']. cbn [fst]. apply replace_port_settings.
Qed.

Lemma lut_to_lc_settings ctx lut lc b ctx' lc' :
  lut_to_lc ctx lut lc b = Ok (ctx', lc') → settings ctx' = settings ctx.
Proof.
  unfold lut_to_lc. destruct (cells ctx !! lut); [|done].
  intros ([c1 lc2] & Hmoves%replace_ports_settings & Hlast)%bind_Ok.
  cbn [fst] in Hmoves. destruct b.
  - apply replace_port_settings in Hlast. congruence.
  - injection Hlast as <- _. done.
Qed.

Lemma dff_to_lc_settings ctx dff lc b ctx' lc' :
  dff_to_lc ctx dff lc b = Ok (ctx', lc') → settings ctx' = settings ctx.
Proof.
  unfold dff_to_lc. destruct (cells ctx !! dff); [|done].
  intros ([c1 lc2] & Hmoves%replace_ports_settings & Hlast)%bind_Ok.
  cbn [fst] in Hmoves. destruct b.
  - apply replace_port_settings in Hlast. congruence.
  - injection Hlast as <- _. done.
Qed.

Lemma try_pack_dff_settings ctx ncs k ci o dff packed pc ctx' packed' pc' b :
  try_pack_dff ctx ncs k ci o dff packed pc = Ok (ctx', packed', pc', b) →
  settings ctx' = settings ctx.
Proof.
  unfold try_pack_dff. destruct (deref_cell ctx ncs dff); [|done].
  destruct (locations_differ _ _); [by intros [= <- _ _ _]|].
  intros ([c1 p1] & H1%lut_to_lc_settings & Hrest)%bind_Ok.
  apply bind_Ok in Hrest as ([c2 p2] & H2%dff_to_lc_settings & Hfin).
  destruct (o ≫= _); [|done]. injection Hfin as <- _ _ _. recsimpl. congruence.
Qed.

Lemma pack_lut_lutffs_settings ctx ctx' :
  pack_lut_lutffs ctx = Ok ctx' → settings ctx' = settings ctx.
Proof.
  unfold pack_lut_lutffs. intros (st & Hloop & [= <-])%bind_Ok. recsimpl.
  apply (for_each_keeps (λ s s', settings (l_ctx s') = settings (l_ctx s))) in Hloop;
    [done|done|by intros ??? -> ->|].
  intros k s s'. unfold pack_lut_lutffs_body.
  destruct (cells (l_ctx s) !! k) as [ci|]; [|done].
  destruct (is_lut ci); [|by intros [= <-]].
  destruct (cell_ports ci !! "Z") as [zp|]; [|done].
  intros (dff & _ & Hrest)%bind_Ok.
  apply bind_Ok in Hrest as ([[[c1 p1] pc1] b] & Htry & Hrest).
  apply bind_Ok in Hrest as ([c2 p2] & Hlast & [= <-]). cbn [l_ctx].
  assert (settings c1 = settings (l_ctx s)) as <-.
  { destruct dff as [dffp|]; [by eapply try_pack_dff_settings|].
    by injection Htry as <- _ _ _. }
  destruct b; [by injection Hlast as <- _|by eapply lut_to_lc_settings].
Qed.

Section driver_more.
Import Examples.

(** X13: when [pack] returns [true], the three passes have returned one
    after the other and [assignArchInfo] has been run on the result of the
    fusion with [pack] set to 1 in the settings, which are otherwise those of
    the input; when it returns [false], one of the four has raised the
    recoverable failure.  With an [assignArchInfo] that keeps the netlist,
    the settings of the result are those of the input with [pack] set. *)
Theorem pack_marks_settings a ctx ok out :
  Arch_pack a ctx = Ok (ok, out) →
  (ok = true →
   ∃ c1 c2 c3,
     pack_constants ctx = Ok c1 ∧ pack_io c1 = Ok c2 ∧ pack_lut_lutffs c2 = Ok c3 ∧
     settings c3 = settings ctx ∧
     a (set_settings (<["pack" := PropInt 1 32]> (settings ctx)) c3) = Ok out) ∧
  (ok = false →
   pack_constants ctx = Throw log_execution_error_exception out ∨
   (∃ c1, pack_constants ctx = Ok c1 ∧
      (pack_io c1 = Throw log_execution_error_exception out ∨
       ∃ c2, pack_io c1 = Ok c2 ∧
         (pack_lut_lutffs c2 = Throw log_execution_error_exception out ∨
          ∃ c3, pack_lut_lutffs c2 = Ok c3 ∧
            a (set_settings (<["pack" := PropInt 1 32]> (settings c3)) c3)
              = Throw log_execution_error_exception out)))) ∧
  (ok = true → (∀ c, a c = Ok c) →
   settings out = <["pack" := PropInt 1 32]> (settings ctx)).
Proof.
  unfold Arch_pack, pack_pipeline. intros Hrun.
  assert (∀ r : result Context, catch_execution_error r = Ok (ok, out) →
            (ok = true ∧ r = Ok out) ∨
            (ok = false ∧ r = Throw log_execution_error_exception out)) as Hcatch.
  { intros [c|e c]; cbn; [intros [= <- <-]; by left|].
    destruct e; try done. intros [= <- <-]. by right. }
  apply Hcatch in Hrun. clear Hcatch.
  destruct (pack_constants ctx) as [c1|e1 x1] eqn:H1; rewrite ?mbind_Ok in Hrun.
  2:{ destruct Hrun as [[_ ?]|[-> [= -> ->]]]; [done|].
      split_and!; [done| |done]. intros _. by left. }
  destruct (pack_io c1) as [c2|e2 x2] eqn:H2; rewrite ?mbind_Ok in Hrun.
  2:{ destruct Hrun as [[_ ?]|[-> [= -> ->]]]; [done|].
      split_and!; [done| |done]. intros _. right. exists c1. split; [done|]. by left. }
  destruct (pack_lut_lutffs c2) as [c3|e3 x3] eqn:H3; rewrite ?mbind_Ok in Hrun.
  2:{ destruct Hrun as [[_ ?]|[-> [= -> ->]]]; [done|].
      split_and!; [done| |done]. intros _. right. exists c1. split; [done|].
      right. exists c2. split; [done|]. by left. }
  assert (settings c3 = settings ctx) as Hset.
  { rewrite (pack_lut_lutffs_settings c2 c3 H3), (pack_io_settings c1 c2 H2).
    by apply pack_constants_settings. }
  destruct Hrun as [[-> Ha]|[-> Ha]].
  - split_and!; [|done|].
    + intros _. exists c1, c2, c3. rewrite <-Hset. done.
    + intros _ Hid. rewrite Hid in Ha. injection Ha as <-. recsimpl.
      by rewrite Hset.
  - split_and!; [done| |done]. intros _. right. exists c1. split; [done|].
    right. exists c2. split; [done|]. right. by exists c3.
Qed.

Lemma pack_marks_settings_witness :
  ∃ out, Arch_pack Ok three_grounds = Ok (true, out) ∧
         settings out = <["pack" := PropInt 1 32]> (settings three_grounds).
Proof.
  destruct (Arch_pack Ok three_grounds) as [[ok out]|] eqn:Hrun;
    [|by vm_compute in Hrun].
  assert (ok = true) as ->.
  { vm_compute in Hrun. by injection Hrun as <- _. }
  exists out. split; [reflexivity|].
  destruct (pack_marks_settings Ok three_grounds true out Hrun) as (_ & _ & Hset).
  apply Hset; [reflexivity|]. intros c. reflexivity.
Defined.

End driver_more.

(** *** [pack_lut_lutffs] *)

Section fusion_more.
Import Examples.

(** X14: on a netlist without lookup-tables [pack_lut_lutffs] returns the
    netlist as it is, whether it is well-formed or not; and a netlist on
    which the fusion is defined and which the pass returns as it is holds no
    lookup-table. *)
Theorem pack_lut_lutffs_nothing_to_do ctx :
  (map_Forall (λ _ ci, is_lut ci = false) (cells ctx) → pack_lut_lutffs ctx = Ok ctx) ∧
  (wf_netlist ctx → luts_have_output ctx → slice_names_free ctx → fused_exclusive ctx →
   pack_lut_lutffs ctx = Ok ctx → map_Forall (λ _ ci, is_lut ci = false) (cells ctx)).
Proof.
  split.
  - intros Hno. apply pack_lut_lutffs_nothing. exact Hno.
  - intros Hwf HZ Hfree Hexcl Hrun.
    destruct (pack_lut_lutffs_cells ctx Hwf HZ Hfree Hexcl ctx Hrun)
      as (_ & _ & _ & Hnolut & _).
    intros k ci Hk. by apply (Hnolut k).
Qed.

Lemma pack_lut_lutffs_nothing_to_do_witness :
  pack_lut_lutffs three_grounds = Ok three_grounds.
Proof.
  apply (proj1 (pack_lut_lutffs_nothing_to_do three_grounds)).
  apply (bool_decide_unpack _). vm_compute. exact I.
Defined.

(** X15: after the fusion no lookup-table is left; every cell of the result
    is a cell of the input that the pass has not touched, or the slice built
    for a lookup-table of the input, stored under the name of the
    lookup-table followed by [_LC]; the pass creates no net, and a net it
    keeps has its name and as many users as before; the settings are
    unchanged. *)
Theorem fusion_postcondition ctx :
  wf_netlist ctx → luts_have_output ctx → slice_names_free ctx → fused_exclusive ctx →
  ∃ ctx', pack_lut_lutffs ctx = Ok ctx' ∧
    (∀ c ce, cells ctx' !! c = Some ce → is_lut ce = false) ∧
    (∀ c ce, cells ctx' !! c = Some ce →
       cells ctx !! c = Some ce ∨
       ∃ k ci, cells ctx !! k = Some ci ∧ is_lut ci ∧ c = k +:+ "_LC" ∧
               cell_name ce = c ∧ cell_type ce = id_FACADE_SLICE) ∧
    (∀ n ni', nets ctx' !! n = Some ni' →
       ∃ ni, nets ctx !! n = Some ni ∧ net_name ni' = net_name ni ∧
             length (net_users ni') = length (net_users ni)) ∧
    settings ctx' = settings ctx.
Proof.
  intros Hwf HZ Hfree Hexcl.
  destruct (pack_lut_lutffs_run ctx Hwf HZ Hfree Hexcl) as (st & _ & Hrun).
  destruct (pack_lut_lutffs_cells ctx Hwf HZ Hfree Hexcl _ Hrun)
    as (_ & _ & _ & Hnolut & _ & _ & Hset).
  destruct (pack_lut_lutffs_origin ctx Hwf HZ Hfree Hexcl _ Hrun) as (Hcells & Hnets).
  eexists. split; [exact Hrun|]. split_and!; try done.
  - intros c ce Hce. destruct (Hcells c ce Hce) as [?|(k & ci & Hci & Hl & -> & ->)];
      [by left|right].
    exists k, ci. split_and!; try done.
    + by rewrite slice_for_name, (wf_cell_name ctx Hwf k ci Hci).
    + apply slice_for_type.
  - intros n ni' Hn'. destruct (Hnets n ni' Hn') as (ni & Hn & Hname & Hus).
    exists ni. split_and!; try done. symmetry. by eapply Forall2_length.
Qed.

Lemma fusion_postcondition_witness :
  ∃ ctx', pack_lut_lutffs two_pairs = Ok ctx' ∧
    (∀ c ce, cells ctx' !! c = Some ce → is_lut ce = false) ∧
    (∀ c ce, cells ctx' !! c = Some ce →
       cells two_pairs !! c = Some ce ∨
       ∃ k ci, cells two_pairs !! k = Some ci ∧ is_lut ci ∧ c = k +:+ "_LC" ∧
               cell_name ce = c ∧ cell_type ce = id_FACADE_SLICE) ∧
    (∀ n ni', nets ctx' !! n = Some ni' →
       ∃ ni, nets two_pairs !! n = Some ni ∧ net_name ni' = net_name ni ∧
             length (net_users ni') = length (net_users ni)) ∧
    settings ctx' = settings two_pairs.
Proof.
  apply (fusion_postcondition two_pairs);
    apply (bool_decide_unpack _); vm_compute; exact I.
Defined.

(** X16: where the lookup-tables of a netlist have no port [Z], as soon as
    there is one the pass stops on the [std::out_of_range] of [at], with the
    netlist as it was on entry; when the first two passes of [pack] lead to
    such a netlist, [pack] does not catch this exception. *)
Theorem lut_without_output_throws ctx :
  map_Forall (λ _ ci, is_lut ci → cell_ports ci !! "Z" = None) (cells ctx) →
  (∃ k ci, cells ctx !! k = Some ci ∧ is_lut ci) →
  pack_lut_lutffs ctx = Throw std_out_of_range ctx ∧
  ∀ a c0 c1, pack_constants c0 = Ok c1 → pack_io c1 = Ok ctx →
             Arch_pack a c0 = Throw std_out_of_range ctx.
Proof.
  intros HnoZ (k0 & ci0 & Hk0 & Hl0).
  assert (pack_lut_lutffs ctx = Throw std_out_of_range ctx) as Hrun.
  { unfold pack_lut_lutffs.
    assert (∀ l st, l_ctx st = ctx → k0 ∈ l → (∀ k, k ∈ l → is_Some (cells ctx !! k)) →
              for_each pack_lut_lutffs_body l st = Throw std_out_of_range ctx) as Hloop.
    { induction l as [|k l IH]; intros st Hst Hin Hall; [by apply elem_of_nil in Hin|].
      cbn [for_each]. destruct (Hall k) as [ci Hci]; [by left|].
      destruct (is_lut ci) eqn:Hl.
      - assert (pack_lut_lutffs_body k st = Throw std_out_of_range ctx) as ->; [|done].
        unfold pack_lut_lutffs_body. cbv zeta. rewrite Hst, Hci, Hl.
        by rewrite (HnoZ k ci Hci) by (by rewrite Hl).
      - assert (pack_lut_lutffs_body k st = Ok st) as ->.
        { unfold pack_lut_lutffs_body. cbv zeta. by rewrite Hst, Hci, Hl. }
        rewrite mbind_Ok. apply IH; [done| |by intros; apply Hall; right].
        apply elem_of_cons in Hin as [->|?]; [|done].
        assert (ci = ci0) as -> by congruence. by rewrite Hl in Hl0. }
    rewrite Hloop; [done|done| |by intros k ?%elem_of_sorted].
    apply elem_of_sorted. by eexists. }
  split; [done|]. intros a c0 c1 H1 H2. unfold Arch_pack, pack_pipeline.
  by rewrite H1, mbind_Ok, H2, mbind_Ok, Hrun.
Qed.

Lemma lut_without_output_throws_witness :
  let ctx := mkctx [ mkcell "l" "LUT4" [("A", PORT_IN, None)] [] ] [] in
  pack_lut_lutffs ctx = Throw std_out_of_range ctx.
Proof.
  cbv zeta.
  refine (proj1 (lut_without_output_throws
                   (mkctx [ mkcell "l" "LUT4" [("A", PORT_IN, None)] [] ] []) _ _)).
  - apply (bool_decide_unpack _). vm_compute. exact I.
  - exists "l", (mkcell "l" "LUT4" [("A", PORT_IN, None)] []).
    split; [vm_compute; reflexivity|vm_compute; exact I].
Defined.

End fusion_more.
